(** * Nemesis Kart: a shallow embedding of [nemesis_kart.py]

    The race engine of the simulator ([Racer] and [Game]) is embedded as
    pure functions over explicit state.

    Modelling conventions.
    - Python [float]s (positions, speeds, probabilities) are rationals [Q]:
      the rounding of the doubles is not modelled, so the properties below
      use the order of floats only, never the exact value of a sum.  Python
      [int]s are [Z]; where the source mixes an int into float arithmetic,
      the conversion of the int and its [OverflowError] are modelled
      ([float_of_int]).
    - A Python [dict] is an insertion-ordered association list with unique
      keys ([Dict]); iteration order is list order.  The two dicts built
      from a literal with a fixed key set ([item_uses], [times_hit_by])
      are records with one field per key; indexing [times_hit_by] with
      [Boost] is the [KeyError] of the source.
    - An exception is a [Raise] in the error monad [Result]; nothing in the
      engine catches one except the [ValueError] handler of the overtake
      loop, so a [Raise] of [run_step] is the end of the program.
    - [random] is an oracle: every call site receives the value the
      generator would return there ([Rand]).
    - [debug_log] only feeds the console's log buffer and is left out. *)

From Stdlib Require Import List String Ascii ZArith QArith Bool Lia.
From Stdlib Require Import DecimalString Sorted Permutation Lqa.
Import ListNotations.

Open Scope string_scope.
Open Scope Z_scope.

(** ** Exceptions *)

Inductive PyError : Type :=
| NameError
| ValueError
| KeyError
| AttributeError
| OverflowError.

Inductive Result (A : Type) : Type :=
| Ok (a : A)
| Raise (e : PyError).

Arguments Ok {A} a.
Arguments Raise {A} e.

Definition bind {A B : Type} (c : Result A) (k : A -> Result B) : Result B :=
  match c with
  | Ok a => k a
  | Raise e => Raise e
  end.

Notation "x <- c ;; k" := (bind c (fun x => k))
  (at level 61, c at next level, right associativity).
Notation "' p <- c ;; k" := (bind c (fun x => let p := x in k))
  (at level 61, p pattern, c at next level, right associativity).

(** An attribute that [__init__] may or may not have assigned. *)
Inductive Attr (A : Type) : Type :=
| AttrMissing
| AttrVal (v : A).

Arguments AttrMissing {A}.
Arguments AttrVal {A} v.

Definition getattr {A : Type} (a : Attr A) : Result A :=
  match a with
  | AttrMissing => Raise AttributeError
  | AttrVal v => Ok v
  end.

(** ** Numbers *)

Definition Qltb (x y : Q) : bool := negb (Qle_bool y x).

Definition ZtoQ (z : Z) : Q := inject_Z z.

(** A number that is an [int] or a [float] at run time. *)
Inductive Num : Type :=
| IntNum (z : Z)
| FloatNum (q : Q).

(** The ints that convert to a double are those below [2^1024 - 2^970] in
    magnitude: from there on the nearest double would be [2^1024]. *)
Definition float_int_bound : Z := Z.shiftl 1 1024 - Z.shiftl 1 970.

(** The conversion Python applies to the int operand of [float + int] and
    [int * float]; it raises [OverflowError: int too large to convert to
    float] beyond the range of the doubles. *)
Definition float_of_int (z : Z) : Result Q :=
  if Z.abs z <? float_int_bound then Ok (ZtoQ z) else Raise OverflowError.

Definition to_float (n : Num) : Result Q :=
  match n with
  | IntNum z => float_of_int z
  | FloatNum q => Ok q
  end.

(** [max(-10, min(10, x))] *)
Definition clamp_rel (x : Z) : Z := Z.max (-10) (Z.min 10 x).

(** [max(1, x)]: Python returns the first argument unless a later one is
    strictly larger. *)
Definition max1 (x : Q) : Q := if Qltb 1 x then x else 1%Q.

(** ** Insertion-ordered dictionaries with string keys *)

Module Dict.
Section Dict.
Context {V : Type}.

Definition t : Type := list (string * V).

Fixpoint get (k : string) (d : list (string * V)) : option V :=
    match d with
    | [] => None
    | (k', v) :: d' => if String.eqb k k' then Some v else get k d'
    end.

Definition mem (k : string) (d : list (string * V)) : bool :=
    match get k d with Some _ => true | None => false end.

  (** [d[k] = v]: overwrite in place, or append a new key. *)
Fixpoint set (k : string) (v : V) (d : list (string * V)) : list (string * V) :=
    match d with
    | [] => [(k, v)]
    | (k', v') :: d' =>
        if String.eqb k k' then (k', v) :: d' else (k', v') :: set k v d'
    end.

Definition keys (d : list (string * V)) : list string := map fst d.
Definition values (d : list (string * V)) : list V := map snd d.

  (** [d.get(k)] with an optional key: [None] is never a key here. *)
Definition get_opt (k : option string) (d : list (string * V)) : option V :=
    match k with
    | Some k => get k d
    | None => None
    end.
End Dict.
Arguments t V : clear implicits.
End Dict.

(** [d.get(k, 0)] *)
Definition get0 (k : string) (d : Dict.t Z) : Z :=
  match Dict.get k d with Some v => v | None => 0 end.

(** ** Sorting

    [sorted] is stable; [reverse=True] keeps the original order of equal
    keys.  [sorted_by le] inserts an element in front of the first one it
    is [le] to, which for a total [le] is the stable sort. *)

Section Sorting.
Context {A : Type} (le : A -> A -> bool).

Fixpoint insert_by (x : A) (l : list A) : list A :=
    match l with
    | [] => [x]
    | y :: l' => if le x y then x :: y :: l' else y :: insert_by x l'
    end.

Fixpoint sorted_by (l : list A) : list A :=
    match l with
    | [] => []
    | x :: l' => insert_by x (sorted_by l')
    end.
End Sorting.

(** [sorted(l, key=key, reverse=True)] for a float key. *)
Definition sorted_desc {A : Type} (key : A -> Q) (l : list A) : list A :=
  sorted_by (fun x y => Qle_bool (key y) (key x)) l.

(** [sorted(l, key=key)] for an int key. *)
Definition sorted_asc {A : Type} (key : A -> Z) (l : list A) : list A :=
  sorted_by (fun x y => Z.leb (key x) (key y)) l.

(** ** Items and traits *)

Inductive Item : Type := Boost | GreenShell | RedShell | Banana.

Inductive Trait : Type := Aggressive | ShellShocked | TargetFixated | Slippery.

Definition Item_eqb (a b : Item) : bool :=
  match a, b with
  | Boost, Boost | GreenShell, GreenShell
  | RedShell, RedShell | Banana, Banana => true
  | _, _ => false
  end.

Definition Trait_eqb (a b : Trait) : bool :=
  match a, b with
  | Aggressive, Aggressive | ShellShocked, ShellShocked
  | TargetFixated, TargetFixated | Slippery, Slippery => true
  | _, _ => false
  end.

(** ** Configuration *)

Record Config : Type := mkConfig {
  track_length : Z;
  num_racers : Z;
  player_controlled : bool;
  base_speed_min : Z;
  base_speed_max : Z;
  boost_speed_bonus : Z;
  boost_duration : Z;
  shell_hit_speed_penalty : Z;
  shell_hit_duration : Z;
  banana_hit_speed_penalty : Z;
  banana_hit_duration : Z;
  item_box_spacing : Z;
  item_chance_boost : Q;
  item_chance_green_shell : Q;
  item_chance_red_shell : Q;
  item_chance_banana : Q;
  catch_up_assist_threshold : Z;
  catch_up_item_boost_mult : Q;
  nemesis_hit_relationship_penalty : Z;
  nemesis_overtake_relationship_penalty : Z;
  nemesis_finish_ahead_penalty : Z;
  nemesis_targeting_threshold : Z;
  nemesis_trait_threshold : Z
}.

Definition CONFIG_literal : Config := {|
  track_length := 1000;
  num_racers := 8;
  player_controlled := true;
  base_speed_min := 8;
  base_speed_max := 12;
  boost_speed_bonus := 15;
  boost_duration := 3;
  shell_hit_speed_penalty := -20;
  shell_hit_duration := 2;
  banana_hit_speed_penalty := -15;
  banana_hit_duration := 3;
  item_box_spacing := 200;
  item_chance_boost := 4 # 10;
  item_chance_green_shell := 3 # 10;
  item_chance_red_shell := 2 # 10;
  item_chance_banana := 1 # 10;
  catch_up_assist_threshold := 150;
  catch_up_item_boost_mult := 3 # 2;
  nemesis_hit_relationship_penalty := -3;
  nemesis_overtake_relationship_penalty := -1;
  nemesis_finish_ahead_penalty := -2;
  nemesis_targeting_threshold := -5;
  nemesis_trait_threshold := 3
|}.

(** The module-level division of the four chances by their sum.  The
    quotients are exact here, where the doubles of the source are rounded
    ([0.4 / 1.0000000000000002]); the draws the properties are tried on
    stay away from the thresholds. *)
Definition normalize_chances (c : Config) : Config :=
  let total := (item_chance_boost c + item_chance_green_shell c
                + item_chance_red_shell c + item_chance_banana c)%Q in
  {| track_length := track_length c;
     num_racers := num_racers c;
     player_controlled := player_controlled c;
     base_speed_min := base_speed_min c;
     base_speed_max := base_speed_max c;
     boost_speed_bonus := boost_speed_bonus c;
     boost_duration := boost_duration c;
     shell_hit_speed_penalty := shell_hit_speed_penalty c;
     shell_hit_duration := shell_hit_duration c;
     banana_hit_speed_penalty := banana_hit_speed_penalty c;
     banana_hit_duration := banana_hit_duration c;
     item_box_spacing := item_box_spacing c;
     item_chance_boost := (item_chance_boost c / total)%Q;
     item_chance_green_shell := (item_chance_green_shell c / total)%Q;
     item_chance_red_shell := (item_chance_red_shell c / total)%Q;
     item_chance_banana := (item_chance_banana c / total)%Q;
     catch_up_assist_threshold := catch_up_assist_threshold c;
     catch_up_item_boost_mult := catch_up_item_boost_mult c;
     nemesis_hit_relationship_penalty := nemesis_hit_relationship_penalty c;
     nemesis_overtake_relationship_penalty :=
       nemesis_overtake_relationship_penalty c;
     nemesis_finish_ahead_penalty := nemesis_finish_ahead_penalty c;
     nemesis_targeting_threshold := nemesis_targeting_threshold c;
     nemesis_trait_threshold := nemesis_trait_threshold c |}.

Definition CONFIG : Config := normalize_chances CONFIG_literal.

(** ** Racer state *)

(** [item_uses = {BOOST: 0, GREEN_SHELL: 0, RED_SHELL: 0, BANANA: 0}] *)
Record ItemUses : Type := mkItemUses {
  uses_boost : Z;
  uses_green_shell : Z;
  uses_red_shell : Z;
  uses_banana : Z
}.

(** [times_hit_by = {GREEN_SHELL: 0, RED_SHELL: 0, BANANA: 0}] *)
Record TimesHitBy : Type := mkTimesHitBy {
  hits_green_shell : Z;
  hits_red_shell : Z;
  hits_banana : Z
}.

Definition item_uses_get (u : ItemUses) (i : Item) : Z :=
  match i with
  | Boost => uses_boost u
  | GreenShell => uses_green_shell u
  | RedShell => uses_red_shell u
  | Banana => uses_banana u
  end.

(** [item_uses[i] += 1] *)
Definition item_uses_incr (u : ItemUses) (i : Item) : ItemUses :=
  match i with
  | Boost => mkItemUses (uses_boost u + 1) (uses_green_shell u)
                        (uses_red_shell u) (uses_banana u)
  | GreenShell => mkItemUses (uses_boost u) (uses_green_shell u + 1)
                             (uses_red_shell u) (uses_banana u)
  | RedShell => mkItemUses (uses_boost u) (uses_green_shell u)
                           (uses_red_shell u + 1) (uses_banana u)
  | Banana => mkItemUses (uses_boost u) (uses_green_shell u)
                         (uses_red_shell u) (uses_banana u + 1)
  end.

(** [times_hit_by[i] += 1]; there is no [BOOST] key. *)
Definition times_hit_by_incr (h : TimesHitBy) (i : Item) : Result TimesHitBy :=
  match i with
  | Boost => Raise KeyError
  | GreenShell => Ok (mkTimesHitBy (hits_green_shell h + 1) (hits_red_shell h)
                                   (hits_banana h))
  | RedShell => Ok (mkTimesHitBy (hits_green_shell h) (hits_red_shell h + 1)
                                 (hits_banana h))
  | Banana => Ok (mkTimesHitBy (hits_green_shell h) (hits_red_shell h)
                               (hits_banana h + 1))
  end.

Record Racer : Type := mkRacer {
  name : string;
  is_player : bool;
  position : Q;
  speed : Q;
  base_speed : Q;
  current_item : option Item;
  item_uses : ItemUses;
  times_hit_by : TimesHitBy;
  boost_timer : Z;
  hit_timer : Z;
  last_hit_by : option string;
  last_hit_by_item : Attr (option Item);
  relationships : Dict.t Z;
  traits : list Trait;
  hit_by_count : Dict.t Z;
  hit_others_count : Dict.t Z;
  next_item_box_pos : Z
}.

(** Field updates, one per assigned attribute. *)
Definition with_position (p : Q) (r : Racer) : Racer :=
  mkRacer (name r) (is_player r) p (speed r) (base_speed r) (current_item r)
    (item_uses r) (times_hit_by r) (boost_timer r) (hit_timer r)
    (last_hit_by r) (last_hit_by_item r) (relationships r) (traits r)
    (hit_by_count r) (hit_others_count r) (next_item_box_pos r).
Definition with_current_item (i : option Item) (r : Racer) : Racer :=
  mkRacer (name r) (is_player r) (position r) (speed r) (base_speed r) i
    (item_uses r) (times_hit_by r) (boost_timer r) (hit_timer r)
    (last_hit_by r) (last_hit_by_item r) (relationships r) (traits r)
    (hit_by_count r) (hit_others_count r) (next_item_box_pos r).
Definition with_item_uses (u : ItemUses) (r : Racer) : Racer :=
  mkRacer (name r) (is_player r) (position r) (speed r) (base_speed r)
    (current_item r) u (times_hit_by r) (boost_timer r) (hit_timer r)
    (last_hit_by r) (last_hit_by_item r) (relationships r) (traits r)
    (hit_by_count r) (hit_others_count r) (next_item_box_pos r).
Definition with_times_hit_by (h : TimesHitBy) (r : Racer) : Racer :=
  mkRacer (name r) (is_player r) (position r) (speed r) (base_speed r)
    (current_item r) (item_uses r) h (boost_timer r) (hit_timer r)
    (last_hit_by r) (last_hit_by_item r) (relationships r) (traits r)
    (hit_by_count r) (hit_others_count r) (next_item_box_pos r).
Definition with_boost_timer (t : Z) (r : Racer) : Racer :=
  mkRacer (name r) (is_player r) (position r) (speed r) (base_speed r)
    (current_item r) (item_uses r) (times_hit_by r) t (hit_timer r)
    (last_hit_by r) (last_hit_by_item r) (relationships r) (traits r)
    (hit_by_count r) (hit_others_count r) (next_item_box_pos r).
Definition with_hit_timer (t : Z) (r : Racer) : Racer :=
  mkRacer (name r) (is_player r) (position r) (speed r) (base_speed r)
    (current_item r) (item_uses r) (times_hit_by r) (boost_timer r) t
    (last_hit_by r) (last_hit_by_item r) (relationships r) (traits r)
    (hit_by_count r) (hit_others_count r) (next_item_box_pos r).
Definition with_last_hit_by (a : option string) (r : Racer) : Racer :=
  mkRacer (name r) (is_player r) (position r) (speed r) (base_speed r)
    (current_item r) (item_uses r) (times_hit_by r) (boost_timer r)
    (hit_timer r) a (last_hit_by_item r) (relationships r) (traits r)
    (hit_by_count r) (hit_others_count r) (next_item_box_pos r).
Definition with_last_hit_by_item (i : Attr (option Item)) (r : Racer) : Racer :=
  mkRacer (name r) (is_player r) (position r) (speed r) (base_speed r)
    (current_item r) (item_uses r) (times_hit_by r) (boost_timer r)
    (hit_timer r) (last_hit_by r) i (relationships r) (traits r)
    (hit_by_count r) (hit_others_count r) (next_item_box_pos r).
Definition with_relationships (d : Dict.t Z) (r : Racer) : Racer :=
  mkRacer (name r) (is_player r) (position r) (speed r) (base_speed r)
    (current_item r) (item_uses r) (times_hit_by r) (boost_timer r)
    (hit_timer r) (last_hit_by r) (last_hit_by_item r) d (traits r)
    (hit_by_count r) (hit_others_count r) (next_item_box_pos r).
Definition with_traits (t : list Trait) (r : Racer) : Racer :=
  mkRacer (name r) (is_player r) (position r) (speed r) (base_speed r)
    (current_item r) (item_uses r) (times_hit_by r) (boost_timer r)
    (hit_timer r) (last_hit_by r) (last_hit_by_item r) (relationships r) t
    (hit_by_count r) (hit_others_count r) (next_item_box_pos r).
Definition with_hit_by_count (d : Dict.t Z) (r : Racer) : Racer :=
  mkRacer (name r) (is_player r) (position r) (speed r) (base_speed r)
    (current_item r) (item_uses r) (times_hit_by r) (boost_timer r)
    (hit_timer r) (last_hit_by r) (last_hit_by_item r) (relationships r)
    (traits r) d (hit_others_count r) (next_item_box_pos r).
Definition with_hit_others_count (d : Dict.t Z) (r : Racer) : Racer :=
  mkRacer (name r) (is_player r) (position r) (speed r) (base_speed r)
    (current_item r) (item_uses r) (times_hit_by r) (boost_timer r)
    (hit_timer r) (last_hit_by r) (last_hit_by_item r) (relationships r)
    (traits r) (hit_by_count r) d (next_item_box_pos r).
Definition with_next_item_box_pos (p : Z) (r : Racer) : Racer :=
  mkRacer (name r) (is_player r) (position r) (speed r) (base_speed r)
    (current_item r) (item_uses r) (times_hit_by r) (boost_timer r)
    (hit_timer r) (last_hit_by r) (last_hit_by_item r) (relationships r)
    (traits r) (hit_by_count r) (hit_others_count r) p.

(** ** World objects and the per-step game state *)

Inductive EventType : Type := Hit.

Record Event : Type := mkEvent {
  ev_type : EventType;
  ev_attacker : string;
  ev_target : string;
  ev_item : Item
}.

Record Obstacle : Type := mkObstacle {
  obs_type : Item;
  obs_position : Q;
  obs_owner : string
}.

(** The dict returned by [Game.get_state].  ["racers"] and ["obstacles"]
    alias the engine's own dict and list, so they are the live store; the
    ["positions"] list is built once and is the frozen snapshot. *)
Record GameState : Type := mkGameState {
  gs_racers : Dict.t Racer;
  gs_positions : list (string * Q);
  gs_obstacles : list Obstacle;
  gs_pending_events : list Event;
  gs_track_length : Z;
  gs_step : Z
}.

Definition gs_with_racers (rs : Dict.t Racer) (gs : GameState) : GameState :=
  mkGameState rs (gs_positions gs) (gs_obstacles gs) (gs_pending_events gs)
    (gs_track_length gs) (gs_step gs).
Definition gs_with_obstacles (os : list Obstacle) (gs : GameState) : GameState :=
  mkGameState (gs_racers gs) (gs_positions gs) os (gs_pending_events gs)
    (gs_track_length gs) (gs_step gs).
Definition gs_with_pending_events (es : list Event) (gs : GameState) : GameState :=
  mkGameState (gs_racers gs) (gs_positions gs) (gs_obstacles gs) es
    (gs_track_length gs) (gs_step gs).

(** The values the random generator returns at the call sites one racer
    can reach in one step. *)
Record Rand : Type := mkRand {
  rnd_choice : nat;        (* random.choice: index drawn, taken modulo len *)
  rnd_banana_close : Q;    (* random.random() < 0.7 *)
  rnd_banana_aggr : Q;     (* random.random() < 0.3 *)
  rnd_item : Q             (* rand_val of get_item *)
}.

(** ** Racer: construction and the nemesis data *)

(** [random.uniform(a, b)] is [a + (b - a) * random.random()]. *)
Definition uniform (a b u : Q) : Q := (a + (b - a) * u)%Q.

(** [Racer.__init__]; [u] is the value [random.random()] returns inside
    [random.uniform].  [last_hit_by_item] is not assigned here. *)
Definition Racer_init (cfg : Config) (nm : string) (player : bool) (u : Q)
  : Racer :=
  let s := uniform (ZtoQ (base_speed_min cfg)) (ZtoQ (base_speed_max cfg)) u in
  {| name := nm;
     is_player := player;
     position := 0%Q;
     speed := s;
     base_speed := s;
     current_item := None;
     item_uses := mkItemUses 0 0 0 0;
     times_hit_by := mkTimesHitBy 0 0 0;
     boost_timer := 0;
     hit_timer := 0;
     last_hit_by := None;
     last_hit_by_item := AttrMissing;
     relationships := [];
     traits := [];
     hit_by_count := [];
     hit_others_count := [];
     next_item_box_pos := item_box_spacing cfg |}.

Definition initialize_relationships (self : Racer) (all_racers : list Racer)
  : Racer :=
  fold_left
    (fun s r =>
       if negb (String.eqb (name r) (name s)) then
         with_hit_others_count (Dict.set (name r) 0 (hit_others_count s))
           (with_hit_by_count (Dict.set (name r) 0 (hit_by_count s))
              (with_relationships (Dict.set (name r) 0 (relationships s)) s))
       else s)
    all_racers self.

Definition update_relationship (self : Racer) (other_racer_name : string)
  (change : Z) : Racer :=
  match Dict.get other_racer_name (relationships self) with
  | Some v =>
      with_relationships
        (Dict.set other_racer_name (clamp_rel (v + change))
           (relationships self)) self
  | None => self
  end.

Definition has_trait (t : Trait) (ts : list Trait) : bool :=
  existsb (Trait_eqb t) ts.

Definition add_trait (self : Racer) (t : Trait) : Racer :=
  if has_trait t (traits self) then self
  else with_traits (traits self ++ [t]) self.

Definition remove_trait (self : Racer) (t : Trait) : Racer :=
  with_traits (filter (fun t' => negb (Trait_eqb t t')) (traits self)) self.

Definition check_trait_conditions (cfg : Config) (self : Racer) : Racer :=
  let offensive_uses :=
    uses_green_shell (item_uses self) + uses_red_shell (item_uses self) in
  let self :=
    if (nemesis_trait_threshold cfg <=? offensive_uses)
       && negb (has_trait Aggressive (traits self))
    then add_trait self Aggressive else self in
  let shell_hits :=
    hits_green_shell (times_hit_by self) + hits_red_shell (times_hit_by self) in
  let self :=
    if (nemesis_trait_threshold cfg <=? shell_hits)
       && negb (has_trait ShellShocked (traits self))
    then add_trait self ShellShocked else self in
  let has_strong_negative :=
    existsb (fun rel => rel <=? nemesis_targeting_threshold cfg)
      (Dict.values (relationships self)) in
  if has_strong_negative && negb (has_trait TargetFixated (traits self)) then
    add_trait self TargetFixated
  else if negb has_strong_negative && has_trait TargetFixated (traits self) then
    remove_trait self TargetFixated
  else self.

(** ** Racer: the AI decision *)

Inductive Action : Type := Drive | UseItem.

(** [positions.index((name, position))]: first entry equal to the pair. *)
Fixpoint index_of (nm : string) (p : Q) (l : list (string * Q)) : Result nat :=
  match l with
  | [] => Raise ValueError
  | (n, q) :: l' =>
      if String.eqb nm n && Qeq_bool p q then Ok O
      else i <- index_of nm p l' ;; Ok (S i)
  end.

(** [[r for r_name, r_pos in l if cond(r_pos)]].  The element expression
    [r] is bound neither by the comprehension, nor in [decide_action], nor
    at module level: building an element raises [NameError], and a list
    results only when no entry passes the filter. *)
Definition comprehension_of_unbound_r (l : list (string * Q)) (cond : Q -> bool)
  : Result (list Racer) :=
  if existsb (fun e => cond (snd e)) l then Raise NameError else Ok [].

Fixpoint mapM {A B : Type} (f : A -> Result B) (l : list A) : Result (list B) :=
  match l with
  | [] => Ok []
  | x :: l' => y <- f x ;; ys <- mapM f l' ;; Ok (y :: ys)
  end.

(** [min(l, key=...)] once the keys are computed: the first element whose
    key is minimal. *)
Fixpoint min_from {A K : Type} (ltb : K -> K -> bool) (best : A) (bk : K)
  (l : list (A * K)) : A :=
  match l with
  | [] => best
  | (x, k) :: l' =>
      if ltb k bk then min_from ltb x k l' else min_from ltb best bk l'
  end.

Definition min_by {A K : Type} (ltb : K -> K -> bool) (l : list (A * K))
  : option A :=
  match l with
  | [] => None
  | (x, k) :: l' => Some (min_from ltb x k l')
  end.

(** [x in l] for a list of racer objects (identity; names are unique). *)
Definition racer_in (x : Racer) (l : list Racer) : bool :=
  existsb (fun r => String.eqb (name r) (name x)) l.

Definition opt_racer_in (x : option Racer) (l : list Racer) : bool :=
  match x with
  | Some r => racer_in r l
  | None => false
  end.

(** [self.relationships[name]] *)
Definition relationship_of (self : Racer) (nm : string) : Result Z :=
  match Dict.get nm (relationships self) with
  | Some v => Ok v
  | None => Raise KeyError
  end.

(** The nemesis target: [None], or the racer of the first most hated name
    among those at or below the targeting threshold. *)
Definition find_nemesis_target (cfg : Config) (self : Racer) (gs : GameState)
  : Result (option Racer) :=
  let strong_negative_targets :=
    filter (fun kv => get0 (fst kv) (relationships self)
                      <=? nemesis_targeting_threshold cfg)
      (gs_racers gs) in
  match strong_negative_targets with
  | [] => Ok None
  | _ =>
      keyed <- mapM (fun kv => k <- relationship_of self (fst kv) ;;
                              Ok (fst kv, k)) strong_negative_targets ;;
      match min_by Z.ltb keyed with
      | None => Ok None
      | Some most_hated_name =>
          match Dict.get most_hated_name (gs_racers gs) with
          | Some r => Ok (Some r)
          | None => Raise KeyError
          end
      end
  end.

Definition drive : Result (option Action * option string) :=
  Ok (Some Drive, None).

Definition use_on (target : option Racer)
  : Result (option Action * option string) :=
  match target with
  | Some t => Ok (Some UseItem, Some (name t))
  | None => drive
  end.

Definition decide_action (cfg : Config) (self : Racer) (gs : GameState)
  (rnd : Rand) : Result (option Action * option string) :=
  if is_player self then Ok (None, None)
  else
    match current_item self with
    | None => drive
    | Some item =>
        my_pos_index <- index_of (name self) (position self) (gs_positions gs) ;;
        racers_ahead <-
          comprehension_of_unbound_r
            (skipn (S my_pos_index) (gs_positions gs))
            (fun r_pos => Qltb (position self) r_pos) ;;
        racers_behind <-
          comprehension_of_unbound_r
            (firstn my_pos_index (gs_positions gs))
            (fun r_pos => Qltb r_pos (position self)) ;;
        nemesis_target <- find_nemesis_target cfg self gs ;;
        match item with
        | Boost =>
            if boost_timer self <=? 0 then Ok (Some UseItem, None) else drive
        | GreenShell =>
            let target :=
              if opt_racer_in nemesis_target racers_ahead then nemesis_target
              else
                match racers_ahead with
                | [] => None
                | _ => nth_error racers_ahead
                         (Nat.modulo (rnd_choice rnd) (List.length racers_ahead))
                end in
            use_on target
        | RedShell =>
            let target :=
              if opt_racer_in nemesis_target racers_ahead then nemesis_target
              else min_by Qltb (map (fun r => (r, position r)) racers_ahead) in
            use_on target
        | Banana =>
            let racers_close_behind :=
              filter (fun r => Qltb (position self - position r) 50)
                racers_behind in
            if opt_racer_in nemesis_target racers_close_behind then
              Ok (Some UseItem, None)
            else if negb (Nat.eqb (List.length racers_close_behind) 0)
                    && Qltb (rnd_banana_close rnd) (7 # 10) then
              Ok (Some UseItem, None)
            else if has_trait Aggressive (traits self)
                    && Qltb (rnd_banana_aggr rnd) (3 # 10) then
              Ok (Some UseItem, None)
            else drive
        end
    end.

(** ** Racer: item draw, movement, item use, hits *)

(** [game_state['positions'][-1][1] if game_state['positions'] else
    self.position] *)
Definition leader_pos (self : Racer) (gs : GameState) : Q :=
  match gs_positions gs with
  | [] => position self
  | e :: l => snd (last l e)
  end.

(** The value of [boost_chance] when [rand_val] is compared with it. *)
Definition boost_chance (cfg : Config) (self : Racer) (gs : GameState) : Q :=
  if Qltb (ZtoQ (catch_up_assist_threshold cfg))
          (leader_pos self gs - position self)
  then (item_chance_boost cfg * catch_up_item_boost_mult cfg)%Q
  else item_chance_boost cfg.

Definition get_item (cfg : Config) (self : Racer) (gs : GameState)
  (rand_val : Q) : Racer :=
  let boost_chance := boost_chance cfg self gs in
  let shell_chance := item_chance_green_shell cfg in
  let red_shell_chance := item_chance_red_shell cfg in
  if Qltb rand_val boost_chance then
    with_current_item (Some Boost) self
  else if Qltb rand_val (boost_chance + shell_chance) then
    with_current_item (Some GreenShell) self
  else if Qltb rand_val (boost_chance + shell_chance + red_shell_chance) then
    with_current_item (Some RedShell) self
  else with_current_item (Some Banana) self.

(** [update_step], first part: the status effects.  Returns the racer with
    its timers resolved and [current_speed].  [base_speed] is a float (it
    comes from [random.uniform]); the penalties and the bonus are ints of
    the configuration, converted when they meet a float: the penalty by
    [penalty *= 1.5] or else by [current_speed += penalty], the bonus by
    [current_speed += ...]. *)
Definition resolve_status_effects (cfg : Config) (self : Racer)
  : Result (Racer * Q) :=
  let current_speed := base_speed self in
  if 0 <? hit_timer self then
    let self := with_hit_timer (hit_timer self - 1) self in
    by_item <- getattr (last_hit_by_item self) ;;
    let penalty :=
      match by_item with
      | Some GreenShell | Some RedShell => IntNum (shell_hit_speed_penalty cfg)
      | Some Banana => IntNum (banana_hit_speed_penalty cfg)
      | _ => IntNum 0
      end in
    penalty <-
      (if has_trait ShellShocked (traits self) then
         p <- to_float penalty ;; Ok (FloatNum (p * (3 # 2))%Q)
       else Ok penalty) ;;
    p <- to_float penalty ;;
    let current_speed := (current_speed + p)%Q in
    let self :=
      if hit_timer self =? 0 then
        with_last_hit_by_item (AttrVal None) (with_last_hit_by None self)
      else self in
    Ok (self, current_speed)
  else if 0 <? boost_timer self then
    bonus <- float_of_int (boost_speed_bonus cfg) ;;
    let current_speed := (current_speed + bonus)%Q in
    Ok (with_boost_timer (boost_timer self - 1) self, current_speed)
  else Ok (self, current_speed).

(** [update_step], second part: the speed floor, the move and the item
    box. *)
Definition move_and_collect (cfg : Config) (self : Racer) (current_speed : Q)
  (gs : GameState) (rnd : Rand) : Racer :=
  let current_speed := max1 current_speed in
  let self := with_position (position self + current_speed)%Q self in
  if Qle_bool (ZtoQ (next_item_box_pos self)) (position self) then
    let self :=
      match current_item self with
      | None => get_item cfg self gs (rnd_item rnd)
      | Some _ => self
      end in
    with_next_item_box_pos (next_item_box_pos self + item_box_spacing cfg) self
  else self.

Definition update_step (cfg : Config) (self : Racer) (gs : GameState)
  (rnd : Rand) : Result Racer :=
  '(self, current_speed) <- resolve_status_effects cfg self ;;
  Ok (move_and_collect cfg self current_speed gs rnd).

(** [use_item] reads, of the racers other than [self], only the target's
    name and position, and does not assign [self.position]: passing [self]
    next to the store it lives in loses nothing when the target is the
    user itself. *)
Definition use_item (cfg : Config) (self : Racer) (target_name : option string)
  (gs : GameState) : bool * Racer * GameState :=
  match current_item self with
  | None => (false, self, gs)
  | Some item_used =>
      let self := with_current_item None self in
      let self := with_item_uses (item_uses_incr (item_uses self) item_used)
                    self in
      let hit_event (target_racer : Racer) :=
        (with_hit_others_count
           (Dict.set (name target_racer)
              (get0 (name target_racer) (hit_others_count self) + 1)
              (hit_others_count self)) self,
         gs_with_pending_events
           (gs_pending_events gs
            ++ [mkEvent Hit (name self) (name target_racer) item_used]) gs) in
      let '(self, gs) :=
        match item_used with
        | Boost => (with_boost_timer (boost_duration cfg) self, gs)
        | GreenShell =>
            match Dict.get_opt target_name (gs_racers gs) with
            | Some target_racer => hit_event target_racer
            | None => (self, gs)
            end
        | RedShell =>
            match Dict.get_opt target_name (gs_racers gs) with
            | Some target_racer =>
                if Qltb (position self) (position target_racer)
                then hit_event target_racer
                else (self, gs)
            | None => (self, gs)
            end
        | Banana =>
            let banana_pos := (position self - base_speed self / 2)%Q in
            (self,
             gs_with_obstacles
               (gs_obstacles gs ++ [mkObstacle Banana banana_pos (name self)])
               gs)
        end in
      (true, self, gs)
  end.

(** [if attacker_name:] holds for a non-empty string. *)
Definition truthy (s : option string) : bool :=
  match s with
  | Some s => negb (String.eqb s "")
  | None => false
  end.

Definition apply_hit (cfg : Config) (self : Racer) (attacker_name : option string)
  (item_type : Item) (gs : GameState) : Result Racer :=
  if 0 <? hit_timer self then Ok self
  else
    let self := with_boost_timer 0 self in
    let self := with_last_hit_by attacker_name self in
    let self := with_last_hit_by_item (AttrVal (Some item_type)) self in
    hits <- times_hit_by_incr (times_hit_by self) item_type ;;
    let self := with_times_hit_by hits self in
    let self :=
      match attacker_name with
      | Some a =>
          if truthy attacker_name then
            with_hit_by_count
              (Dict.set a (get0 a (hit_by_count self) + 1) (hit_by_count self))
              self
          else self
      | None => self
      end in
    let self :=
      match item_type with
      | GreenShell | RedShell => with_hit_timer (shell_hit_duration cfg) self
      | Banana => with_hit_timer (banana_hit_duration cfg) self
      | Boost => self
      end in
    let self :=
      match attacker_name with
      | Some a =>
          if truthy attacker_name then
            update_relationship self a (nemesis_hit_relationship_penalty cfg)
          else self
      | None => self
      end in
    Ok (check_trait_conditions cfg self).

(** ** Game *)

Record Game : Type := mkGame {
  config : Config;
  racers : Dict.t Racer;
  player_name : string;
  winner : option string;
  step_count : Z;
  game_over : bool;
  last_positions : Dict.t Q;
  obstacles : list Obstacle
}.

(** [str(n)] for a natural number. *)
Definition str_of_nat (n : nat) : string :=
  NilEmpty.string_of_uint (Nat.to_uint n).

(** [Game.__init__]; [u nm] is the random draw behind the speed of the
    racer named [nm]. *)
Definition Game_init (cfg : Config) (u : string -> Q) : Game :=
  let player_name := "Player" in
  let racer_names :=
    map (fun i => "CPU_" ++ str_of_nat (i + 1))
      (seq 0 (Z.to_nat (num_racers cfg - 1))) in
  let racers :=
    Dict.set player_name
      (Racer_init cfg player_name (player_controlled cfg) (u player_name)) [] in
  let racers :=
    fold_left (fun d nm => Dict.set nm (Racer_init cfg nm false (u nm)) d)
      racer_names racers in
  let all_racer_list := Dict.values racers in
  let racers :=
    map (fun kv => (fst kv, initialize_relationships (snd kv) all_racer_list))
      racers in
  {| config := cfg;
     racers := racers;
     player_name := player_name;
     winner := None;
     step_count := 0;
     game_over := false;
     last_positions := [];
     obstacles := [] |}.

Definition get_state (g : Game) : GameState :=
  let sorted_racers := sorted_desc position (Dict.values (racers g)) in
  let positions := map (fun r => (name r, position r)) sorted_racers in
  {| gs_racers := racers g;
     gs_positions := positions;
     gs_obstacles := obstacles g;
     gs_pending_events := [];
     gs_track_length := track_length (config g);
     gs_step := step_count g |}.

(** A method call on the racer stored under [nm] that only assigns
    attributes of that racer. *)
Definition update_racer (nm : string) (f : Racer -> Racer) (rs : Dict.t Racer)
  : Dict.t Racer :=
  match Dict.get nm rs with
  | Some r => Dict.set nm (f r) rs
  | None => rs
  end.

(** Monadic left fold: a [for] loop whose body may raise. *)
Fixpoint foldM {A S : Type} (f : S -> A -> Result S) (l : list A) (s : S)
  : Result S :=
  match l with
  | [] => Ok s
  | x :: l' => s' <- f s x ;; foldM f l' s'
  end.

(** *** Step 1: decide actions *)

Definition decide_actions (cfg : Config) (gs : GameState)
  (player_action : option Action) (player_target : option string)
  (rnd : string -> Rand) : Result (Dict.t (option Action * option string)) :=
  mapM (fun kv =>
          let '(nm, racer) := kv in
          if is_player racer then
            match player_action with
            | Some a => Ok (nm, (Some a, player_target))
            | None => Ok (nm, (Some Drive, None))
            end
          else
            a <- decide_action cfg racer gs (rnd nm) ;; Ok (nm, a))
       (gs_racers gs).

(** *** Step 2: execute actions and update positions

    The loop runs over the racers of the dict; each body reads the live
    racer, and what it assigned is stored back under the same key. *)

Definition execute_action (cfg : Config)
  (actions : Dict.t (option Action * option string)) (rnd : string -> Rand)
  (gs : GameState) (nm : string) : Result GameState :=
  match Dict.get nm (gs_racers gs) with
  | None => Ok gs
  | Some racer =>
      match Dict.get nm actions with
      | None => Raise KeyError
      | Some (action, target) =>
          let '(_, racer, gs) :=
            match action with
            | Some UseItem => use_item cfg racer target gs
            | _ => (false, racer, gs)
            end in
          racer <- update_step cfg racer gs (rnd nm) ;;
          Ok (gs_with_racers (Dict.set nm racer (gs_racers gs)) gs)
      end
  end.

Definition execute_actions (cfg : Config)
  (actions : Dict.t (option Action * option string)) (rnd : string -> Rand)
  (gs : GameState) : Result GameState :=
  foldM (execute_action cfg actions rnd) (Dict.keys (gs_racers gs)) gs.

(** *** Step 3: process pending events *)

Definition process_event (cfg : Config) (gs : GameState) (event : Event)
  : Result GameState :=
  match ev_type event with
  | Hit =>
      match Dict.get (ev_target event) (gs_racers gs) with
      | Some target_racer =>
          r <- apply_hit cfg target_racer (Some (ev_attacker event))
                 (ev_item event) gs ;;
          Ok (gs_with_racers (Dict.set (ev_target event) r (gs_racers gs)) gs)
      | None => Ok gs
      end
  end.

Definition process_pending_events (cfg : Config) (gs : GameState)
  : Result GameState :=
  foldM (process_event cfg) (gs_pending_events gs) gs.

(** *** Step 4: obstacle collisions *)

Definition Qmin2 (a b : Q) : Q := if Qltb b a then b else a.
Definition Qmax2 (a b : Q) : Q := if Qltb a b then b else a.

(** The inner loop over [racers_to_check]: [Some gs'] when a racer was
    hit (the [break]), [None] when the loop ran to its end. *)
Fixpoint scan_racers (cfg : Config) (last_positions : Dict.t Q)
  (obs : Obstacle) (names : list string) (gs : GameState)
  : Result (option GameState) :=
  match names with
  | [] => Ok None
  | nm :: names' =>
      match Dict.get nm (gs_racers gs) with
      | None => scan_racers cfg last_positions obs names' gs
      | Some racer =>
          let last_pos :=
            match Dict.get (name racer) last_positions with
            | Some p => p
            | None => position racer
            end in
          let current_pos := position racer in
          if Qltb (Qmin2 last_pos current_pos) (obs_position obs)
             && Qle_bool (obs_position obs) (Qmax2 last_pos current_pos)
             && (hit_timer racer <=? 0)
          then
            r <- apply_hit cfg racer (Some (obs_owner obs)) (obs_type obs) gs ;;
            Ok (Some (gs_with_racers (Dict.set nm r (gs_racers gs)) gs))
          else scan_racers cfg last_positions obs names' gs
      end
  end.

(** The outer loop; the state carries [new_obstacles]. *)
Definition check_obstacle (cfg : Config) (last_positions : Dict.t Q)
  (st : GameState * list Obstacle) (obs : Obstacle)
  : Result (GameState * list Obstacle) :=
  let '(gs, new_obstacles) := st in
  hit <- scan_racers cfg last_positions obs (Dict.keys (gs_racers gs)) gs ;;
  match hit with
  | Some gs' => Ok (gs', new_obstacles)
  | None => Ok (gs, (new_obstacles ++ [obs])%list)
  end.

Definition check_obstacle_collisions (cfg : Config) (last_positions : Dict.t Q)
  (gs : GameState) : Result (GameState * list Obstacle) :=
  foldM (check_obstacle cfg last_positions) (gs_obstacles gs) (gs, []).

(** *** Step 5: overtakes *)

(** [names.index(nm)]; [None] is the [ValueError] the loop swallows. *)
Fixpoint index_of_name (nm : string) (names : list string) : option nat :=
  match names with
  | [] => None
  | n :: names' =>
      if String.eqb nm n then Some O
      else match index_of_name nm names' with
           | Some i => Some (S i)
           | None => None
           end
  end.

Definition overtake_updates (cfg : Config) (last_sorted_racers_names : list string)
  (rs : Dict.t Racer) (entry : nat * string) : Dict.t Racer :=
  let '(i, current_name) := entry in
  match index_of_name current_name last_sorted_racers_names with
  | None => rs
  | Some last_rank_index =>
      if Nat.ltb i last_rank_index then
        fold_left
          (fun rs j =>
             match nth_error last_sorted_racers_names j with
             | Some overtaken_racer_name =>
                 update_racer overtaken_racer_name
                   (fun overtaken_racer =>
                      update_relationship overtaken_racer current_name
                        (nemesis_overtake_relationship_penalty cfg))
                   rs
             | None => rs
             end)
          (seq (S i) (last_rank_index - i)) rs
      else rs
  end.

(** [enumerate(l)] *)
Definition enumerate {A : Type} (l : list A) : list (nat * A) :=
  combine (seq 0 (List.length l)) l.

Definition check_overtakes (cfg : Config) (last_positions : Dict.t Q)
  (rs : Dict.t Racer) : Dict.t Racer :=
  let current_sorted_racers := sorted_desc position (Dict.values rs) in
  let last_sorted_racers_names :=
    map fst (sorted_desc snd last_positions) in
  fold_left (overtake_updates cfg last_sorted_racers_names)
    (enumerate (map name current_sorted_racers)) rs.

(** *** Step 6: win condition *)

Definition finish_updates (cfg : Config) (winner_name : string)
  (rs : Dict.t Racer) : Dict.t Racer :=
  let sorted_racers := map name (sorted_desc position (Dict.values rs)) in
  fold_left
    (fun rs entry =>
       let '(i, r_name) := entry in
       if negb (String.eqb r_name winner_name) then
         fold_left
           (fun rs finisher_ahead =>
              update_racer r_name
                (fun r => update_relationship r finisher_ahead
                            (nemesis_finish_ahead_penalty cfg)) rs)
           (firstn i sorted_racers) rs
       else rs)
    (enumerate sorted_racers) rs.

(** The first racer, in dict order, at or past the finish line. *)
Definition first_finisher (track : Z) (rs : Dict.t Racer) : option string :=
  match find (fun kv => Qle_bool (ZtoQ track) (position (snd kv))) rs with
  | Some (nm, _) => Some nm
  | None => None
  end.

(** *** Step 7: traits *)

Definition update_traits (cfg : Config) (rs : Dict.t Racer) : Dict.t Racer :=
  map (fun kv => (fst kv, check_trait_conditions cfg (snd kv))) rs.

(** *** The step *)

Definition run_step (g : Game) (player_action : option Action)
  (player_target : option string) (rnd : string -> Rand)
  : Result (Game * bool) :=
  if game_over g then Ok (g, true)
  else
    let cfg := config g in
    let step_count := step_count g + 1 in
    let current_game_state :=
      get_state (mkGame cfg (racers g) (player_name g) (winner g) step_count
                   (game_over g) (last_positions g) (obstacles g)) in
    actions <- decide_actions cfg current_game_state player_action
                 player_target rnd ;;
    let last_positions :=
      map (fun kv => (fst kv, position (snd kv))) (racers g) in
    gs <- execute_actions cfg actions rnd current_game_state ;;
    gs <- process_pending_events cfg gs ;;
    '(gs, new_obstacles) <- check_obstacle_collisions cfg last_positions gs ;;
    let rs := check_overtakes cfg last_positions (gs_racers gs) in
    let '(rs, winner, game_over) :=
      match first_finisher (track_length cfg) rs with
      | Some nm => (finish_updates cfg nm rs, Some nm, true)
      | None => (rs, winner g, game_over g)
      end in
    let rs := update_traits cfg rs in
    Ok (mkGame cfg rs (player_name g) winner step_count game_over
          last_positions new_obstacles, game_over).

(** ** Queries and the console's debug hooks *)

(** What [get_racer_details] reads, in the order it reads it; the
    rendering of the values into text lines is left out.  [d_traits] is
    the trait set as the model keeps it, in insertion order: the order in
    which Python joins a set of strings is not modelled. *)
Record Details : Type := mkDetails {
  d_name : string;
  d_position : Q;
  d_base_speed : Q;
  d_current_item : option Item;
  d_boost_timer : Z;
  d_hit_timer : Z;
  d_last_hit_by : option string;
  d_last_hit_by_item : option Item;
  d_traits : list Trait;
  d_item_uses : list (Item * Z);
  d_times_hit_by : list (Item * Z);
  d_relationships : list (string * Z);
  d_hit_by_count : list (string * Z);
  d_hit_others_count : list (string * Z)
}.

Inductive DetailsResult : Type :=
| NotFound (nm : string)
| Found (d : Details).

Definition get_racer_details (g : Game) (nm : string) : Result DetailsResult :=
  match Dict.get nm (racers g) with
  | None => Ok (NotFound nm)
  | Some racer =>
      by_item <- getattr (last_hit_by_item racer) ;;
      Ok (Found
            {| d_name := nm;
               d_position := position racer;
               d_base_speed := base_speed racer;
               d_current_item := current_item racer;
               d_boost_timer := boost_timer racer;
               d_hit_timer := hit_timer racer;
               d_last_hit_by := last_hit_by racer;
               d_last_hit_by_item := by_item;
               d_traits := traits racer;
               d_item_uses :=
                 map (fun i => (i, item_uses_get (item_uses racer) i))
                   [Boost; GreenShell; RedShell; Banana];
               d_times_hit_by :=
                 [(GreenShell, hits_green_shell (times_hit_by racer));
                  (RedShell, hits_red_shell (times_hit_by racer));
                  (Banana, hits_banana (times_hit_by racer))];
               d_relationships := sorted_asc snd (relationships racer);
               d_hit_by_count :=
                 filter (fun kv => 0 <? snd kv) (hit_by_count racer);
               d_hit_others_count :=
                 filter (fun kv => 0 <? snd kv) (hit_others_count racer) |})
  end.

Definition with_racers (rs : Dict.t Racer) (g : Game) : Game :=
  mkGame (config g) rs (player_name g) (winner g) (step_count g)
    (game_over g) (last_positions g) (obstacles g).

Definition with_config (cfg : Config) (g : Game) : Game :=
  mkGame cfg (racers g) (player_name g) (winner g) (step_count g)
    (game_over g) (last_positions g) (obstacles g).

(** The absolute set of a relationship score, as the [rel] command does it
    on a racer: a relative update by [value - relationships.get(r2, 0)]. *)
Definition set_relationship (r1 : Racer) (r2_name : string) (value : Z) : Racer :=
  update_relationship r1 r2_name (value - get0 r2_name (relationships r1)).

(** [rel r1 r2 val] with an integer [val]. *)
Definition rel_command (g : Game) (r1_name r2_name : string) (value : Z) : Game :=
  match Dict.get r1_name (racers g), Dict.get r2_name (racers g) with
  | Some r1, Some r2 =>
      if negb (String.eqb (name r1) (name r2)) then
        with_racers (Dict.set r1_name (set_relationship r1 r2_name value)
                       (racers g)) g
      else g
  | _, _ => g
  end.

(** [give racer item] with a recognised item name. *)
Definition give_command (g : Game) (racer_name : string) (item : Item) : Game :=
  with_racers
    (update_racer racer_name (with_current_item (Some item)) (racers g)) g.

(** * Vocabulary of the properties, and the races they are tried on *)

(** Every value of a dict satisfies [P]. *)
Definition all_values {V : Type} (P : V -> Prop) (d : Dict.t V) : Prop :=
  Forall (fun kv => P (snd kv)) d.

(** The target of a Red Shell is valid when the identity resolves to a
    racer of the store that is strictly ahead of the user. *)
Definition red_shell_target (self : Racer) (target_name : option string)
  (gs : GameState) (t : Racer) : Prop :=
  Dict.get_opt target_name (gs_racers gs) = Some t /\
  (position self < position t)%Q.

(** Descending by position: every entry is at or above all later ones. *)
Definition Desc (l : list (string * Q)) : Prop :=
  StronglySorted (fun a b => (snd b <= snd a)%Q) l.

(** A race in which the leader is 300 units ahead of [CPU_1], twice the
    catch-up threshold, at the moment [CPU_1] reaches its item box. *)
Definition far_behind_game : Game :=
  {| config := CONFIG;
     racers :=
       [("Player", with_position 500 (Racer_init CONFIG "Player" true (1 # 2)));
        ("CPU_1", with_position 190 (Racer_init CONFIG "CPU_1" false (1 # 2)))];
     player_name := "Player";
     winner := None;
     step_count := 19;
     game_over := false;
     last_positions := [];
     obstacles := [] |}.

Definition far_behind_racer : Racer :=
  with_position 200 (Racer_init CONFIG "CPU_1" false (1 # 2)).

(** [CPU_1] holds a Green Shell 10 units behind the player. *)
Definition green_shell_game : Game :=
  {| config := CONFIG;
     racers :=
       [("Player", with_position 10 (Racer_init CONFIG "Player" true (1 # 2)));
        ("CPU_1", with_current_item (Some GreenShell)
                    (Racer_init CONFIG "CPU_1" false (1 # 2)))];
     player_name := "Player";
     winner := None;
     step_count := 1;
     game_over := false;
     last_positions := [];
     obstacles := [] |}.

Definition green_shell_racer : Racer :=
  with_current_item (Some GreenShell) (Racer_init CONFIG "CPU_1" false (1 # 2)).

(** The races the program can be in: the constructed one, and what a step
    that returns, or one of the console's hooks ([rel], [give], [config]),
    makes of a reachable one. *)
Inductive reachable : Game -> Prop :=
| reach_init (cfg : Config) (u : string -> Q) : reachable (Game_init cfg u)
| reach_step (g g' : Game) (a : option Action) (t : option string)
    (rnd : string -> Rand) (b : bool) :
    reachable g -> run_step g a t rnd = Ok (g', b) -> reachable g'
| reach_rel (g : Game) (r1 r2 : string) (v : Z) :
    reachable g -> reachable (rel_command g r1 r2 v)
| reach_give (g : Game) (r : string) (i : Item) :
    reachable g -> reachable (give_command g r i)
| reach_config (g : Game) (cfg : Config) :
    reachable g -> reachable (with_config cfg g).

(** Any number of steps, each with its own player input and random draws. *)
Fixpoint run_steps (g : Game)
  (inputs : list (option Action * option string * (string -> Rand)))
  : Result Game :=
  match inputs with
  | [] => Ok g
  | (a, t, rnd) :: inputs' =>
      '(g', _) <- run_step g a t rnd ;; run_steps g' inputs'
  end.

(** A track of 5 units: every racer is past the line after one step. *)
Definition short_track : Config :=
  mkConfig 5 2 true 8 12 15 3 (-20) 2 (-15) 3 200
    (item_chance_boost CONFIG) (item_chance_green_shell CONFIG)
    (item_chance_red_shell CONFIG) (item_chance_banana CONFIG)
    150 (3 # 2) (-3) (-1) (-2) (-5) 3.

Definition no_draws : string -> Rand := fun _ => mkRand 0 0 0 0.

Definition short_race_start : Game := Game_init short_track (fun _ => 0%Q).

Definition short_race_end : Game :=
  match run_step short_race_start None None no_draws with
  | Ok (g, _) => g
  | Raise _ => short_race_start
  end.

(** The racers a sequence of item uses, hit applications and step updates
    leads to from construction; [allowed] restricts the states in which an
    item may be used.  Configuration and game state are arbitrary at every
    operation. *)
Inductive racer_reach (allowed : Racer -> Prop) : Racer -> Prop :=
| rr_init (cfg : Config) (nm : string) (player : bool) (u : Q) :
    racer_reach allowed (Racer_init cfg nm player u)
| rr_use_item (cfg : Config) (r r' : Racer) (t : option string)
    (gs gs' : GameState) (used : bool) :
    racer_reach allowed r -> allowed r ->
    use_item cfg r t gs = (used, r', gs') -> racer_reach allowed r'
| rr_apply_hit (cfg : Config) (r r' : Racer) (a : option string) (i : Item)
    (gs : GameState) :
    racer_reach allowed r ->
    apply_hit cfg r a i gs = Ok r' -> racer_reach allowed r'
| rr_update_step (cfg : Config) (r r' : Racer) (gs : GameState) (rnd : Rand) :
    racer_reach allowed r ->
    update_step cfg r gs rnd = Ok r' -> racer_reach allowed r'.

Definition any_use (r : Racer) : Prop := True.

(** No Boost is used while the hit timer is positive. *)
Definition no_boost_while_hit (r : Racer) : Prop :=
  current_item r = Some Boost -> hit_timer r <= 0.

Definition timers_exclusive (r : Racer) : Prop :=
  ~ (0 < boost_timer r /\ 0 < hit_timer r).

(** [n] step updates in a row. *)
Fixpoint update_steps (cfg : Config) (gs : GameState) (rnd : Rand) (n : nat)
  (r : Racer) : Result Racer :=
  match n with
  | O => Ok r
  | S n' => r' <- update_step cfg r gs rnd ;; update_steps cfg gs rnd n' r'
  end.

(** A racer alone on the track: 20 steps at speed 10 bring it to its first
    item box, where it draws a Boost; it is then hit by a Green Shell, and
    uses the Boost while stunned. *)
Definition lone_state : GameState :=
  mkGameState [] [("CPU_1", 0%Q)] [] [] 1000 0.

Definition boost_draw : Rand := mkRand 0 0 0 0.

Definition at_item_box : Racer :=
  match update_steps CONFIG lone_state boost_draw 20
          (Racer_init CONFIG "CPU_1" false (1 # 2)) with
  | Ok r => r
  | Raise _ => Racer_init CONFIG "CPU_1" false (1 # 2)
  end.

Definition stunned : Racer :=
  match apply_hit CONFIG at_item_box (Some "Player") GreenShell lone_state with
  | Ok r => r
  | Raise _ => at_item_box
  end.

Definition boosting_while_stunned : Racer :=
  snd (fst (use_item CONFIG stunned None lone_state)).

(** The other order: the racer uses its Boost unharmed, and is hit by the
    Green Shell while the boost runs. *)
Definition boosting : Racer :=
  snd (fst (use_item CONFIG at_item_box None lone_state)).

Definition hit_while_boosting : Racer :=
  match apply_hit CONFIG boosting (Some "Player") GreenShell lone_state with
  | Ok r => r
  | Raise _ => boosting
  end.

(** The racer that boosted while stunned, one and two step updates on. *)
Definition stunned_step_1 : Racer :=
  match update_steps CONFIG lone_state boost_draw 1 boosting_while_stunned with
  | Ok r => r
  | Raise _ => boosting_while_stunned
  end.

Definition stunned_step_2 : Racer :=
  match update_steps CONFIG lone_state boost_draw 2 boosting_while_stunned with
  | Ok r => r
  | Raise _ => boosting_while_stunned
  end.

(** The configuration after [config boost_speed_bonus b]. *)
Definition with_boost_speed_bonus (b : Z) (c : Config) : Config :=
  mkConfig (track_length c) (num_racers c) (player_controlled c)
    (base_speed_min c) (base_speed_max c) b (boost_duration c)
    (shell_hit_speed_penalty c) (shell_hit_duration c)
    (banana_hit_speed_penalty c) (banana_hit_duration c) (item_box_spacing c)
    (item_chance_boost c) (item_chance_green_shell c)
    (item_chance_red_shell c) (item_chance_banana c)
    (catch_up_assist_threshold c) (catch_up_item_boost_mult c)
    (nemesis_hit_relationship_penalty c)
    (nemesis_overtake_relationship_penalty c)
    (nemesis_finish_ahead_penalty c) (nemesis_targeting_threshold c)
    (nemesis_trait_threshold c).

Definition rel_bounded (r : Racer) : Prop :=
  all_values (fun s => -10 <= s <= 10) (relationships r).

Definition store_bounded (rs : Dict.t Racer) : Prop :=
  all_values rel_bounded rs.

(** The player's score towards [CPU_1], set to -50 on a fresh race. *)
Definition grudge_game : Game :=
  rel_command (Game_init CONFIG (fun _ => 1 # 2)) "Player" "CPU_1" (-50).

Definition grudge_player : Racer :=
  match Dict.get "Player" (racers grudge_game) with
  | Some r => r
  | None => Racer_init CONFIG "Player" true (1 # 2)
  end.

Definition red_shell_racer : Racer :=
  with_current_item (Some RedShell) (Racer_init CONFIG "CPU_1" false (1 # 2)).

(** A race of two, the player at speed 12 and [CPU_1] at speed 8.  The
    player draws a Green Shell at its first item box and keeps it; at step
    25 [CPU_1] reaches its own box and draws a Boost, and the player fires
    at it; one more step follows. *)
Definition duel : Config :=
  mkConfig 1000 2 true 8 12 15 3 (-20) 2 (-15) 3 200
    (item_chance_boost CONFIG) (item_chance_green_shell CONFIG)
    (item_chance_red_shell CONFIG) (item_chance_banana CONFIG)
    150 (3 # 2) (-3) (-1) (-2) (-5) 3.

Definition duel_speeds (nm : string) : Q :=
  if String.eqb nm "Player" then 1%Q else 0%Q.

Definition duel_draws (nm : string) : Rand :=
  if String.eqb nm "Player" then mkRand 0 0 0 (1 # 2) else mkRand 0 0 0 0.

Definition duel_inputs
  : list (option Action * option string * (string -> Rand)) :=
  (repeat (None, None, duel_draws) 24
   ++ [(Some UseItem, Some "CPU_1", duel_draws); (None, None, duel_draws)])%list.

Definition duel_after_26 : Game :=
  match run_steps (Game_init duel duel_speeds) duel_inputs with
  | Ok g => g
  | Raise _ => Game_init duel duel_speeds
  end.

(** * Further races and racers the properties are tried on *)

(** [CPU_1] holds a Red Shell 10 units behind the player. *)
Definition red_shell_game : Game :=
  {| config := CONFIG;
     racers :=
       [("Player", with_position 10 (Racer_init CONFIG "Player" true (1 # 2)));
        ("CPU_1", red_shell_racer)];
     player_name := "Player";
     winner := None;
     step_count := 1;
     game_over := false;
     last_positions := [];
     obstacles := [] |}.

(** [CPU_1] is Aggressive and holds a Banana, the player 10 units behind
    it. *)
Definition banana_racer : Racer :=
  with_position 30
    (with_traits [Aggressive]
       (with_current_item (Some Banana)
          (Racer_init CONFIG "CPU_1" false (1 # 2)))).

Definition banana_game : Game :=
  {| config := CONFIG;
     racers :=
       [("Player", with_position 20 (Racer_init CONFIG "Player" true (1 # 2)));
        ("CPU_1", banana_racer)];
     player_name := "Player";
     winner := None;
     step_count := 3;
     game_over := false;
     last_positions := [];
     obstacles := [] |}.

(** The configuration after [config nemesis_targeting_threshold 0]. *)
Definition zero_threshold : Config :=
  mkConfig 1000 8 true 8 12 15 3 (-20) 2 (-15) 3 200
    (item_chance_boost CONFIG) (item_chance_green_shell CONFIG)
    (item_chance_red_shell CONFIG) (item_chance_banana CONFIG)
    150 (3 # 2) (-3) (-1) (-2) 0 3.

(** The hit timer is positive only on a racer for which [apply_hit] has
    assigned [last_hit_by_item]. *)
Definition stun_recorded (r : Racer) : Prop :=
  0 < hit_timer r -> last_hit_by_item r <> AttrMissing.

(** A racer at speed 10 with no item and no status effect. *)
Definition fresh_racer : Racer := Racer_init CONFIG "CPU_1" false (1 # 2).

(** The stunned racer one step update on. *)
Definition stunned_once : Racer :=
  match update_step CONFIG stunned lone_state boost_draw with
  | Ok r => r
  | Raise _ => stunned
  end.

(** The configured speed changes are ints that the step update adds to a
    float: the hit penalties while the hit timer runs, the boost bonus
    while the boost timer runs.  They are in range when they convert. *)
Definition penalties_in_range (cfg : Config) : Prop :=
  Z.abs (shell_hit_speed_penalty cfg) < float_int_bound /\
  Z.abs (banana_hit_speed_penalty cfg) < float_int_bound.

Definition speeds_in_range (cfg : Config) : Prop :=
  Z.abs (boost_speed_bonus cfg) < float_int_bound /\ penalties_in_range cfg.

(** The hit timer a landed hit sets: the configured duration of the item
    kind ([Boost] has none and leaves the timer alone). *)
Definition hit_duration (cfg : Config) (r : Racer) (i : Item) : Z :=
  match i with
  | GreenShell | RedShell => shell_hit_duration cfg
  | Banana => banana_hit_duration cfg
  | Boost => hit_timer r
  end.

(** Two stores with the same keys, in the same order, whose racers under
    each name are related by [R]. *)
Definition store_ext (R : string -> Racer -> Racer -> Prop)
  (rs rs' : Dict.t Racer) : Prop :=
  Dict.keys rs' = Dict.keys rs /\
  forall nm r, Dict.get nm rs = Some r ->
               exists r', Dict.get nm rs' = Some r' /\ R nm r r'.

Definition same_position (nm : string) (r r' : Racer) : Prop :=
  position r' = position r.

(** No further back than before. *)
Definition not_behind (nm : string) (r r' : Racer) : Prop :=
  (position r <= position r')%Q.

(** What holds of the game state all along a step: stuns on record,
    banana obstacles only, shell hit events only. *)
Definition step_inv (gs : GameState) : Prop :=
  all_values stun_recorded (gs_racers gs) /\
  Forall (fun o => obs_type o = Banana) (gs_obstacles gs) /\
  Forall (fun e => ev_item e <> Boost) (gs_pending_events gs).

Definition game_inv (g : Game) : Prop :=
  all_values stun_recorded (racers g) /\
  Forall (fun o => obs_type o = Banana) (obstacles g).

(** [CPU_1] at the start of the short race, and in the duel after 26
    steps. *)
Definition short_race_cpu : Racer :=
  match Dict.get "CPU_1" (racers short_race_start) with
  | Some r => r
  | None => fresh_racer
  end.

Definition duel_cpu : Racer :=
  match Dict.get "CPU_1" (racers duel_after_26) with
  | Some r => r
  | None => fresh_racer
  end.

(** The player of a freshly constructed race of eight. *)
Definition fresh_game : Game := Game_init CONFIG (fun _ => 1 # 2).

Definition fresh_game_player : Racer :=
  match Dict.get "Player" (racers fresh_game) with
  | Some r => r
  | None => fresh_racer
  end.

(** * Properties *)

(** ** Dictionaries *)

Section DictFacts.
Context {V : Type}.
Implicit Types (d : Dict.t V) (k : string) (v : V).

Lemma get_set_same k v d : Dict.get k (Dict.set k v d) = Some v.
  Proof.
    induction d as [|[k' v'] d IH]; simpl.
    - now rewrite String.eqb_refl.
    - destruct (String.eqb k k') eqn:E; simpl; rewrite E; auto.
  Qed.

Lemma get_set_other k k' v d :
    k <> k' -> Dict.get k (Dict.set k' v d) = Dict.get k d.
  Proof.
    intros Hne. induction d as [|[k2 v2] d IH]; simpl.
    - apply String.eqb_neq in Hne. now rewrite Hne.
    - destruct (String.eqb k' k2) eqn:E; simpl.
      + apply String.eqb_eq in E. subst k2.
        apply String.eqb_neq in Hne. now rewrite Hne.
      + now rewrite IH.
  Qed.

Lemma get_In k v d : Dict.get k d = Some v -> In (k, v) d.
  Proof.
    induction d as [|[k' v'] d IH]; simpl; [discriminate|].
    destruct (String.eqb k k') eqn:E.
    - apply String.eqb_eq in E. intros [= ->]. subst. now left.
    - auto.
  Qed.

Lemma In_get k v d : In (k, v) d -> exists v', Dict.get k d = Some v'.
  Proof.
    induction d as [|[k' v'] d IH]; simpl; [tauto|].
    intros [[= -> ->]|H].
    - rewrite String.eqb_refl. eauto.
    - destruct (String.eqb k k'); eauto.
  Qed.

Variable P : V -> Prop.

Lemma all_values_get k v d : all_values P d -> Dict.get k d = Some v -> P v.
  Proof.
    intros H Hg. apply get_In in Hg.
    unfold all_values in H. rewrite Forall_forall in H. exact (H _ Hg).
  Qed.

Lemma all_values_set k v d :
  all_values P d -> P v -> all_values P (Dict.set k v d).
  Proof.
    intros H Hv. induction d as [|[k' v'] d IH]; simpl.
    - constructor; auto.
    - inversion H as [|? ? Hv' Hd]; subst.
      destruct (String.eqb k k'); constructor; simpl in *; auto.
      apply IH. exact Hd.
  Qed.
End DictFacts.

Lemma get0_set_same k v (d : Dict.t Z) : get0 k (Dict.set k v d) = v.
Proof. unfold get0. now rewrite get_set_same. Qed.

Lemma clamp_rel_bounds x : -10 <= clamp_rel x <= 10.
Proof. unfold clamp_rel. lia. Qed.

Lemma Qltb_lt x y : Qltb x y = true <-> (x < y)%Q.
Proof.
  unfold Qltb. rewrite negb_true_iff. split; intros H.
  - apply Qnot_le_lt. intros Hle. apply Qle_bool_iff in Hle. congruence.
  - destruct (Qle_bool y x) eqn:E; auto.
    apply Qle_bool_iff in E. exfalso. exact (Qlt_not_le _ _ H E).
Qed.

Lemma Qltb_ge x y : Qltb x y = false <-> (y <= x)%Q.
Proof.
  unfold Qltb. rewrite negb_false_iff. apply Qle_bool_iff.
Qed.

(** ** Relationship scores: the absolute set (C10) *)

(** C10.  Round trip of the absolute set: for a racer whose relationship
    map has the name [other] (with any current score [s], in particular
    one in [-10, 10]) and for every integer [v], setting the score to [v]
    (an [update_relationship] by [v - s]) and reading it back gives [v]
    clamped to [-10, 10]. *)
Theorem set_relationship_roundtrip (r : Racer) (other : string) (s v : Z) :
  Dict.get other (relationships r) = Some s ->
  set_relationship r other v = update_relationship r other (v - s) /\
  Dict.get other (relationships (set_relationship r other v))
  = Some (clamp_rel v).
Proof.
  intros Hs. unfold set_relationship, get0. rewrite Hs. split; [reflexivity|].
  unfold update_relationship. rewrite Hs. simpl.
  rewrite get_set_same. f_equal. f_equal. lia.
Qed.

(** ** Hit immunity (C6) *)

(** C6.  [apply_hit] on a racer whose hit timer is strictly positive, with
    any attacker and any item, returns normally and leaves the racer as it
    was: counters, both timers, [last_hit_by], [last_hit_by_item],
    relationships and traits (the method assigns nothing else either). *)
Theorem apply_hit_immune (cfg : Config) (self : Racer)
  (attacker_name : option string) (item_type : Item) (gs : GameState) :
  0 < hit_timer self ->
  apply_hit cfg self attacker_name item_type gs = Ok self.
Proof.
  intros H. unfold apply_hit.
  apply Z.ltb_lt in H. now rewrite H.
Qed.

(** ** Item use (C7, C8) *)

Lemma item_uses_incr_get (u : ItemUses) (i j : Item) :
  item_uses_get (item_uses_incr u i) j
  = item_uses_get u j + (if Item_eqb i j then 1 else 0).
Proof. destruct i, j; simpl; lia. Qed.

Lemma use_item_held (cfg : Config) (self : Racer) (target_name : option string)
  (gs : GameState) (item_used : Item) :
  current_item self = Some item_used ->
  exists self' gs',
    use_item cfg self target_name gs = (true, self', gs') /\
    current_item self' = None /\
    item_uses self' = item_uses_incr (item_uses self) item_used.
Proof.
  intros E. unfold use_item. rewrite E.
  destruct item_used.
  - eexists _, _. repeat split.
  - destruct (Dict.get_opt target_name (gs_racers gs));
      eexists _, _; repeat split.
  - destruct (Dict.get_opt target_name (gs_racers gs)) as [t|];
      [destruct (Qltb (position (with_item_uses
                         (item_uses_incr (item_uses (with_current_item None self))
                            RedShell) (with_current_item None self)))
                      (position t))|];
      eexists _, _; repeat split.
  - eexists _, _. repeat split.
Qed.

(** C7.  [use_item] returns whether an item was consumed.  With an empty
    slot it returns [False] and changes nothing (racer, pending events and
    obstacles are as before).  With an item held it returns [True], the
    slot is empty afterwards, and the usage counter of the used kind is one
    higher while those of the other kinds are unchanged. *)
Theorem use_item_consumes (cfg : Config) (self : Racer)
  (target_name : option string) (gs : GameState) :
  match current_item self with
  | None => use_item cfg self target_name gs = (false, self, gs)
  | Some item_used =>
      let '(used, self', _) := use_item cfg self target_name gs in
      used = true /\
      current_item self' = None /\
      forall j, item_uses_get (item_uses self') j
                = item_uses_get (item_uses self) j
                  + (if Item_eqb item_used j then 1 else 0)
  end.
Proof.
  destruct (current_item self) as [item_used|] eqn:E.
  - destruct (use_item_held cfg self target_name gs item_used E)
      as (self' & gs' & -> & Hslot & Huses).
    repeat split; auto.
    intros j. rewrite Huses. apply item_uses_incr_get.
  - unfold use_item. now rewrite E.
Qed.

(** C8.  A racer holding a Red Shell uses it on a target identity.  The
    item is consumed in every case ([True] is returned and the slot is
    empty).  If the identity resolves to a racer whose position is strictly
    greater than the user's, one hit event (user, target, Red Shell) is
    appended to the pending events and the user's hit-attempt counter for
    that target goes up by one.  Otherwise (unknown identity, no target, or
    target not strictly ahead) the pending events, the obstacles, the store
    and the hit-attempt counters are unchanged. *)
Theorem red_shell_use (cfg : Config) (self : Racer)
  (target_name : option string) (gs : GameState) :
  current_item self = Some RedShell ->
  let '(used, self', gs') := use_item cfg self target_name gs in
  used = true /\
  current_item self' = None /\
  (forall t, red_shell_target self target_name gs t ->
     gs_pending_events gs'
     = (gs_pending_events gs ++ [mkEvent Hit (name self) (name t) RedShell])%list
     /\ get0 (name t) (hit_others_count self')
        = get0 (name t) (hit_others_count self) + 1) /\
  ((forall t, ~ red_shell_target self target_name gs t) ->
     gs' = gs /\ hit_others_count self' = hit_others_count self).
Proof.
  intros Hitem. unfold use_item, red_shell_target. rewrite Hitem. simpl.
  destruct (Dict.get_opt target_name (gs_racers gs)) as [t|] eqn:Ht.
  - destruct (Qltb (position self) (position t)) eqn:Hpos; simpl.
    + repeat split.
      * destruct H as [[= <-] _]. reflexivity.
      * destruct H as [[= <-] _]. apply get0_set_same.
      * exfalso. apply (H t). split; auto. now apply Qltb_lt.
      * exfalso. apply (H t). split; auto. now apply Qltb_lt.
    + repeat split.
      * destruct H as [[= <-] Hlt]. apply Qltb_lt in Hlt. congruence.
      * destruct H as [[= <-] Hlt]. apply Qltb_lt in Hlt. congruence.
  - repeat split; destruct H as [H _]; discriminate.
Qed.

(** ** Sorting *)

Section SortingFacts.
Context {A : Type} (le : A -> A -> bool).
Hypothesis le_total : forall x y, le x y = true \/ le y x = true.
Hypothesis le_trans : forall x y z, le x y = true -> le y z = true -> le x z = true.

Lemma insert_by_In (x y : A) (l : list A) :
  In y (insert_by le x l) <-> y = x \/ In y l.
Proof.
  induction l as [|z l IH]; simpl.
  - intuition.
  - destruct (le x z); simpl; [intuition|].
    rewrite IH. intuition.
Qed.

Lemma sorted_by_In (y : A) (l : list A) : In y (sorted_by le l) <-> In y l.
Proof.
  induction l as [|x l IH]; simpl; [tauto|].
  rewrite insert_by_In, IH. intuition.
Qed.

Lemma insert_by_sorted (x : A) (l : list A) :
  StronglySorted (fun a b => le a b = true) l ->
  StronglySorted (fun a b => le a b = true) (insert_by le x l).
Proof.
  induction 1 as [|z l Hs IH Hz]; simpl.
  - repeat constructor.
  - destruct (le x z) eqn:E.
    + constructor; [constructor; auto|].
      constructor; auto.
      rewrite Forall_forall in *. intros w Hw. eauto.
    + constructor; auto.
      rewrite Forall_forall in *. intros w Hw.
      apply insert_by_In in Hw. destruct Hw as [->|Hw]; auto.
      destruct (le_total x z); congruence.
Qed.

Lemma sorted_by_sorted (l : list A) :
  StronglySorted (fun a b => le a b = true) (sorted_by le l).
Proof.
  induction l; simpl; [constructor|]. now apply insert_by_sorted.
Qed.
End SortingFacts.

Lemma StronglySorted_map {A B : Type} (f : A -> B) (R : B -> B -> Prop)
  (l : list A) :
  StronglySorted (fun a b => R (f a) (f b)) l -> StronglySorted R (map f l).
Proof.
  induction 1; simpl; constructor; auto.
  rewrite Forall_forall in *. intros y Hy.
  apply in_map_iff in Hy. destruct Hy as (x & <- & Hx). auto.
Qed.

Lemma StronglySorted_impl {A : Type} (R S : A -> A -> Prop) (l : list A) :
  (forall a b, R a b -> S a b) -> StronglySorted R l -> StronglySorted S l.
Proof.
  intros HRS. induction 1; constructor; auto.
  eapply Forall_impl; [|eassumption]. auto.
Qed.

Lemma sorted_desc_sorted {A : Type} (key : A -> Q) (l : list A) :
  StronglySorted (fun a b => (key b <= key a)%Q) (sorted_desc key l).
Proof.
  unfold sorted_desc.
  eapply StronglySorted_impl;
    [|apply sorted_by_sorted with (le := fun x y => Qle_bool (key y) (key x))].
  - intros a b H. now apply Qle_bool_iff.
  - intros x y. rewrite !Qle_bool_iff.
    destruct (Qlt_le_dec (key x) (key y)); [right|left]; auto.
    now apply Qlt_le_weak.
  - intros x y z. rewrite !Qle_bool_iff. intros. eapply Qle_trans; eauto.
Qed.

Lemma sorted_desc_In {A : Type} (key : A -> Q) (l : list A) (x : A) :
  In x (sorted_desc key l) <-> In x l.
Proof. apply sorted_by_In. Qed.

Lemma get_state_positions_desc (g : Game) : Desc (gs_positions (get_state g)).
Proof.
  unfold get_state, Desc. simpl.
  apply StronglySorted_map with (f := fun r => (name r, position r)). simpl.
  apply sorted_desc_sorted.
Qed.

Lemma get_state_positions_In (g : Game) (nm : string) (r : Racer) :
  In (nm, r) (racers g) ->
  In (name r, position r) (gs_positions (get_state g)).
Proof.
  intros H. unfold get_state. simpl.
  apply in_map_iff. exists r. split; auto.
  apply sorted_desc_In. unfold Dict.values.
  apply in_map_iff. exists (nm, r). auto.
Qed.

Lemma last_cons {A : Type} (a d : A) (l : list A) : last (a :: l) d = last l a.
Proof.
  revert a d. induction l as [|b l IH]; intros a d; [reflexivity|].
  change (last (a :: b :: l) d) with (last (b :: l) d).
  now rewrite !IH.
Qed.

(** In a descending list the last entry is at or below every entry. *)
Lemma Desc_last (e : string * Q) (l : list (string * Q)) (x : string * Q) :
  Desc (e :: l) -> In x (e :: l) -> (snd (last l e) <= snd x)%Q.
Proof.
  revert e x. induction l as [|e' l IH]; intros e x Hd Hx.
  - destruct Hx as [<-|[]]. apply Qle_refl.
  - rewrite last_cons. inversion Hd as [|? ? Hd' He]; subst.
    destruct Hx as [<-|Hx].
    + apply Qle_trans with (snd e').
      * apply (IH e' e'); auto. now left.
      * inversion He; subst; auto.
    + apply (IH e' x); auto.
Qed.

(** ** The item draw (C2) *)

(** What [get_item] calls [leader_pos] is the position of the last entry of
    the snapshot, which is at or below every position listed in it. *)
Lemma leader_pos_is_minimum (g : Game) (self : Racer) (e : string * Q) :
  In e (gs_positions (get_state g)) ->
  (leader_pos self (get_state g) <= snd e)%Q.
Proof.
  intros Hin. unfold leader_pos.
  pose proof (get_state_positions_desc g) as Hd.
  destruct (gs_positions (get_state g)) as [|e0 l]; [contradiction|].
  now apply Desc_last.
Qed.

(** C2 (the code falls short of it).  In [get_item], the position compared
    with the drawing racer's is that of the last entry of the snapshot,
    the racer in last place, not the leader's.  Hence for a racer that the
    snapshot lists at a position it has not fallen behind of, and a
    non-negative catch-up threshold, the Boost chance used for the draw is
    always the base chance, however far ahead the leader is. *)
Theorem catch_up_never_applies (cfg : Config) (g : Game) (self : Racer) (p0 : Q) :
  0 <= catch_up_assist_threshold cfg ->
  In (name self, p0) (gs_positions (get_state g)) ->
  (p0 <= position self)%Q ->
  boost_chance cfg self (get_state g) = item_chance_boost cfg.
Proof.
  intros Hthr Hin Hpos. unfold boost_chance.
  pose proof (leader_pos_is_minimum g self _ Hin) as Hmin. simpl in Hmin.
  replace (Qltb _ _) with false; [reflexivity|].
  symmetry. apply Qltb_ge.
  assert (0 <= ZtoQ (catch_up_assist_threshold cfg))%Q as H0.
  { unfold ZtoQ. change 0%Q with (inject_Z 0). now rewrite <- Zle_Qle. }
  lra.
Qed.

Lemma catch_up_never_applies_witness :
  (ZtoQ (catch_up_assist_threshold CONFIG) < 500 - position far_behind_racer)%Q
  /\ boost_chance CONFIG far_behind_racer (get_state far_behind_game)
     = item_chance_boost CONFIG.
Proof.
  split.
  - reflexivity.
  - apply (catch_up_never_applies CONFIG far_behind_game far_behind_racer 190).
    + discriminate.
    + right. left. reflexivity.
    + discriminate.
Defined.

(** With [rand_val = 0.5] the multiplied chance (0.6) would give a Boost;
    the draw gives a Green Shell. *)
Example get_item_far_behind :
  current_item (get_item CONFIG far_behind_racer (get_state far_behind_game)
                  (1 # 2))
  = Some GreenShell.
Proof. reflexivity. Qed.

(** ** The AI decision with a Green Shell (C1) *)

Lemma index_of_found (nm : string) (p : Q) (l : list (string * Q)) (i : nat) :
  index_of nm p l = Ok i ->
  exists e, In e (skipn i l) /\ In e l /\ (snd e == p)%Q
            /\ skipn (S i) l = tl (skipn i l).
Proof.
  revert i. induction l as [|[n q] l IH]; intros i; simpl; [discriminate|].
  destruct (String.eqb nm n && Qeq_bool p q) eqn:E.
  - intros [= <-]. exists (n, q). simpl. repeat split; auto.
    apply andb_true_iff in E. destruct E as [_ E].
    apply Qeq_bool_iff in E. now symmetry.
  - destruct (index_of nm p l) as [i'|] eqn:Ei; simpl; [|discriminate].
    intros [= <-]. destruct (IH i' eq_refl) as (e & H1 & H2 & H3 & H4).
    exists e. simpl. repeat split; auto.
Qed.

Lemma index_of_In (nm : string) (p : Q) (l : list (string * Q)) :
  In (nm, p) l -> exists i, index_of nm p l = Ok i.
Proof.
  induction l as [|[n q] l IH]; simpl; [tauto|].
  intros [[= -> ->]|H].
  - rewrite String.eqb_refl, Qeq_bool_refl. simpl. eauto.
  - destruct (String.eqb nm n && Qeq_bool p q); [eauto|].
    destruct (IH H) as [i ->]. simpl. eauto.
Qed.

(** Around the index of an entry of a descending list: the entries before
    it are at or above its position, those after it at or below. *)
Lemma index_of_Desc (nm : string) (p : Q) (l : list (string * Q)) (i : nat) :
  Desc l -> index_of nm p l = Ok i ->
  Forall (fun e => (p <= snd e)%Q) (firstn i l) /\
  Forall (fun e => (snd e <= p)%Q) (skipn (S i) l).
Proof.
  intros Hd. revert i. induction Hd as [|[n q] l Hs IH Hq]; intros i; simpl;
    [discriminate|].
  destruct (String.eqb nm n && Qeq_bool p q) eqn:E.
  - intros [= <-]. simpl. split; [constructor|].
    apply andb_true_iff in E. destruct E as [_ E].
    apply Qeq_bool_iff in E.
    eapply Forall_impl; [|exact Hq]. simpl. intros e He. now rewrite E.
  - destruct (index_of nm p l) as [i'|] eqn:Ei; simpl; [|discriminate].
    intros [= <-]. destruct (IH i' eq_refl) as [H1 H2].
    split; [|exact H2]. simpl. constructor; [|exact H1].
    destruct (index_of_found _ _ _ _ Ei) as (e & _ & He & Hp & _).
    rewrite Forall_forall in Hq. specialize (Hq e He). simpl in *.
    now rewrite <- Hp.
Qed.

Lemma existsb_false_Forall {A : Type} (f : A -> bool) (l : list A) :
  Forall (fun x => f x = false) l -> existsb f l = false.
Proof.
  induction 1; simpl; auto. rewrite H. auto.
Qed.

(** On a snapshot in descending order no entry after the racer's own is
    strictly ahead and none before it strictly behind: both comprehensions
    of [decide_action] yield the empty list. *)
Lemma racers_ahead_behind_empty (self : Racer) (l : list (string * Q)) (i : nat) :
  Desc l -> index_of (name self) (position self) l = Ok i ->
  comprehension_of_unbound_r (skipn (S i) l)
    (fun r_pos => Qltb (position self) r_pos) = Ok [] /\
  comprehension_of_unbound_r (firstn i l)
    (fun r_pos => Qltb r_pos (position self)) = Ok [].
Proof.
  intros Hd Hi. destruct (index_of_Desc _ _ _ _ Hd Hi) as [Hb Ha].
  unfold comprehension_of_unbound_r. split.
  - rewrite existsb_false_Forall; [reflexivity|].
    eapply Forall_impl; [|exact Ha]. intros e He. now apply Qltb_ge.
  - rewrite existsb_false_Forall; [reflexivity|].
    eapply Forall_impl; [|exact Hb]. intros e He. now apply Qltb_ge.
Qed.

Lemma mapM_ok {A B : Type} (f : A -> Result B) (l : list A) :
  (forall x, In x l -> exists y, f x = Ok y) ->
  exists ys, mapM f l = Ok ys /\
             forall y, In y ys -> exists x, In x l /\ f x = Ok y.
Proof.
  induction l as [|x l IH]; intros H; simpl.
  - exists []. split; auto. intros y [].
  - destruct (H x (or_introl eq_refl)) as [y Hy].
    destruct IH as (ys & Hys & Hin); [intros; apply H; now right|].
    rewrite Hy, Hys. simpl. exists (y :: ys). split; auto.
    intros y' [<-|Hy']; [eauto|].
    destruct (Hin y' Hy') as (x' & ? & ?). eauto.
Qed.

Lemma min_from_In {A K : Type} (ltb : K -> K -> bool) (best : A) (bk : K)
  (l : list (A * K)) :
  min_from ltb best bk l = best \/ In (min_from ltb best bk l) (map fst l).
Proof.
  revert best bk. induction l as [|[x k] l IH]; intros best bk; simpl; auto.
  destruct (ltb k bk).
  - destruct (IH x k); auto.
  - destruct (IH best bk); auto.
Qed.

Lemma min_by_In {A K : Type} (ltb : K -> K -> bool) (l : list (A * K)) (x : A) :
  min_by ltb l = Some x -> In x (map fst l).
Proof.
  destruct l as [|[y k] l]; simpl; [discriminate|].
  intros [= <-]. destruct (min_from_In ltb y k l); auto.
Qed.

(** With a negative targeting threshold the nemesis lookup cannot raise:
    a name at or below the threshold has an entry in the relationship map,
    and it is a key of the store. *)
Lemma find_nemesis_target_ok (cfg : Config) (self : Racer) (gs : GameState) :
  nemesis_targeting_threshold cfg < 0 ->
  exists nt, find_nemesis_target cfg self gs = Ok nt.
Proof.
  intros Hthr. unfold find_nemesis_target.
  set (snt := filter _ (gs_racers gs)).
  assert (Hsnt : forall kv, In kv snt ->
            In kv (gs_racers gs) /\
            get0 (fst kv) (relationships self)
            <= nemesis_targeting_threshold cfg).
  { intros kv Hkv. apply filter_In in Hkv. destruct Hkv as [? Hle].
    split; auto. now apply Z.leb_le. }
  destruct snt as [|kv0 snt'] eqn:Esnt; [eauto|]. rewrite <- Esnt in *.
  clear Esnt.
  destruct (mapM_ok
              (fun kv => k <- relationship_of self (fst kv) ;; Ok (fst kv, k))
              snt) as (keyed & -> & Hkeyed).
  { intros kv Hkv. destruct (Hsnt kv Hkv) as [_ Hle].
    unfold relationship_of, get0 in *.
    destruct (Dict.get (fst kv) (relationships self)); simpl; [eauto|lia]. }
  simpl. destruct (min_by Z.ltb keyed) as [nm|] eqn:Emin; [|eauto].
  apply min_by_In in Emin. apply in_map_iff in Emin.
  destruct Emin as ([nm' k] & Hnm & Hin). simpl in Hnm. subst nm'.
  destruct (Hkeyed _ Hin) as ([nm2 r2] & Hin2 & Heq).
  unfold relationship_of in Heq. simpl in Heq.
  destruct (Dict.get nm2 (relationships self)); simpl in Heq; [|discriminate].
  injection Heq as -> _.
  destruct (Hsnt _ Hin2) as [Hgs _].
  destruct (In_get _ _ _ Hgs) as [r' ->]. eauto.
Qed.

(** C1 (the code falls short of it).  [racers_ahead] is taken from the
    part of the snapshot after the racer's own entry, which in a list
    sorted by descending position holds no racer strictly ahead; the list
    is always empty.  Hence an AI racer of the game that holds a Green
    Shell never uses it, whoever is ahead: the decision on the step's
    snapshot is always "drive" (the targeting threshold being negative, so
    that the nemesis lookup does not fail). *)
Theorem green_shell_never_used (cfg : Config) (g : Game) (self : Racer)
  (rnd : Rand) :
  nemesis_targeting_threshold cfg < 0 ->
  Dict.get (name self) (racers g) = Some self ->
  is_player self = false ->
  current_item self = Some GreenShell ->
  decide_action cfg self (get_state g) rnd = Ok (Some Drive, None).
Proof.
  intros Hthr Hself Hai Hitem. unfold decide_action. rewrite Hai, Hitem.
  apply get_In in Hself. apply get_state_positions_In in Hself.
  destruct (index_of_In _ _ _ Hself) as [i Hi]. rewrite Hi. cbn [bind].
  destruct (racers_ahead_behind_empty self _ i (get_state_positions_desc g) Hi)
    as [-> ->]. cbn [bind].
  destruct (find_nemesis_target_ok cfg self (get_state g) Hthr) as [nt ->].
  cbn [bind]. destruct nt; reflexivity.
Qed.

Lemma green_shell_never_used_witness :
  (exists ahead, Dict.get "Player" (racers green_shell_game) = Some ahead
                 /\ (position green_shell_racer < position ahead)%Q)
  /\ decide_action CONFIG green_shell_racer (get_state green_shell_game)
       (mkRand 0 0 0 0)
     = Ok (Some Drive, None).
Proof.
  split.
  - eexists. split; reflexivity.
  - apply (green_shell_never_used CONFIG green_shell_game green_shell_racer);
      reflexivity.
Defined.

(** ** The details query on a racer that was never hit (C4) *)

Lemma all_values_map {V W : Type} (P : V -> Prop) (Q' : W -> Prop) (f : V -> W)
  (d : Dict.t V) :
  (forall v, P v -> Q' (f v)) ->
  all_values P d -> all_values Q' (map (fun kv => (fst kv, f (snd kv))) d).
Proof.
  intros Hf H. unfold all_values in *.
  induction H as [|kv d Hkv Hd IH]; simpl; constructor; simpl; auto.
Qed.

Lemma all_values_fold_set {V A : Type} (P : V -> Prop) (key : A -> string)
  (val : A -> V) (l : list A) (d : Dict.t V) :
  (forall a, P (val a)) -> all_values P d ->
  all_values P (fold_left (fun d a => Dict.set (key a) (val a) d) l d).
Proof.
  intros Hval. revert d. induction l as [|a l IH]; intros d Hd; simpl; auto.
  apply IH. now apply all_values_set.
Qed.

Lemma initialize_relationships_last_hit_by_item (self : Racer)
  (all_racers : list Racer) :
  last_hit_by_item (initialize_relationships self all_racers)
  = last_hit_by_item self.
Proof.
  unfold initialize_relationships. revert self.
  induction all_racers as [|r l IH]; intros self; simpl; [reflexivity|].
  rewrite IH. now destruct (negb (String.eqb (name r) (name self))).
Qed.

(** No racer of a freshly constructed game has [last_hit_by_item]. *)
Lemma Game_init_last_hit_by_item (cfg : Config) (u : string -> Q) :
  all_values (fun r => last_hit_by_item r = AttrMissing)
    (racers (Game_init cfg u)).
Proof.
  unfold Game_init. cbv zeta. cbn [racers].
  apply all_values_map with (P := fun r => last_hit_by_item r = AttrMissing).
  - intros r Hr. rewrite <- Hr.
    apply initialize_relationships_last_hit_by_item.
  - apply all_values_fold_set with (key := fun nm => nm)
      (val := fun nm => Racer_init cfg nm false (u nm)).
    + reflexivity.
    + repeat constructor.
Qed.

(** C4 (the code falls short of it).  [__init__] assigns [last_hit_by]
    but not [last_hit_by_item], which only [apply_hit] and the recovery
    branch of [update_step] assign.  On a freshly constructed game the
    details query therefore fails with an [AttributeError] for every racer
    name present in the race. *)
Theorem get_racer_details_fresh_game (cfg : Config) (u : string -> Q)
  (nm : string) :
  Dict.mem nm (racers (Game_init cfg u)) = true ->
  get_racer_details (Game_init cfg u) nm = Raise AttributeError.
Proof.
  unfold Dict.mem, get_racer_details.
  destruct (Dict.get nm (racers (Game_init cfg u))) as [r|] eqn:E;
    [intros _|discriminate].
  pose proof (all_values_get _ _ _ _ (Game_init_last_hit_by_item cfg u) E) as H.
  simpl in H. now rewrite H.
Qed.

Lemma get_racer_details_fresh_game_witness :
  Dict.mem "Player" (racers (Game_init CONFIG (fun _ => 1 # 2))) = true /\
  get_racer_details (Game_init CONFIG (fun _ => 1 # 2)) "Player"
  = Raise AttributeError.
Proof.
  split.
  - reflexivity.
  - apply (get_racer_details_fresh_game CONFIG (fun _ => 1 # 2) "Player").
    reflexivity.
Defined.

(** ** Reachable races *)

(** What a step that returns on a running race is made of. *)
Lemma run_step_running (g g' : Game) (a : option Action) (t : option string)
  (rnd : string -> Rand) (b : bool) :
  game_over g = false ->
  run_step g a t rnd = Ok (g', b) ->
  let cfg := config g in
  let lp := map (fun kv => (fst kv, position (snd kv))) (racers g) in
  exists actions gs0 gs1 gs2 gs3 new_obstacles,
    gs_racers gs0 = racers g /\
    decide_actions cfg gs0 a t rnd = Ok actions /\
    execute_actions cfg actions rnd gs0 = Ok gs1 /\
    process_pending_events cfg gs1 = Ok gs2 /\
    check_obstacle_collisions cfg lp gs2 = Ok (gs3, new_obstacles) /\
    let rs := check_overtakes cfg lp (gs_racers gs3) in
    match first_finisher (track_length cfg) rs with
    | Some nm =>
        racers g' = update_traits cfg (finish_updates cfg nm rs) /\
        winner g' = Some nm /\ game_over g' = true
    | None =>
        racers g' = update_traits cfg rs /\
        winner g' = winner g /\ game_over g' = false
    end.
Proof.
  intros Hrun. unfold run_step. rewrite Hrun.
  set (gs0 := get_state _).
  destruct (decide_actions (config g) gs0 a t rnd) as [actions|] eqn:E1;
    cbn [bind]; [|discriminate].
  destruct (execute_actions (config g) actions rnd gs0) as [gs1|] eqn:E2;
    cbn [bind]; [|discriminate].
  destruct (process_pending_events (config g) gs1) as [gs2|] eqn:E3;
    cbn [bind]; [|discriminate].
  destruct (check_obstacle_collisions (config g) _ gs2) as [[gs3 obs]|] eqn:E4;
    cbn [bind]; [|discriminate].
  intros H. exists actions, gs0, gs1, gs2, gs3, obs.
  repeat (split; [first [reflexivity | assumption]|]).
  cbv zeta.
  destruct (first_finisher _ _); injection H as <- <-; repeat split; auto.
Qed.

(** A recorded winner means the race is over. *)
Lemma winner_game_over (g : Game) :
  reachable g -> winner g <> None -> game_over g = true.
Proof.
  induction 1 as [cfg u|g g' a t rnd b Hg IH Hstep|g r1 r2 v Hg IH
                 |g r i Hg IH|g cfg Hg IH]; intros Hw.
  - now contradiction Hw.
  - destruct (game_over g) eqn:Hover.
    + unfold run_step in Hstep. rewrite Hover in Hstep.
      injection Hstep as <- _. exact Hover.
    + destruct (run_step_running _ _ _ _ _ _ Hover Hstep)
        as (? & ? & ? & ? & ? & ? & _ & _ & _ & _ & _ & H).
      cbv zeta in H. destruct (first_finisher _ _).
      * tauto.
      * destruct H as (_ & Hw' & _). rewrite Hw' in Hw.
        specialize (IH Hw). congruence.
  - unfold rel_command in *.
    destruct (Dict.get r1 (racers g)), (Dict.get r2 (racers g)); auto.
    destruct (negb _); auto.
  - auto.
  - auto.
Qed.

(** ** The terminal race (C9) *)

(** C9.  A step on a terminal race returns [True] and the race it was
    given, with every racer field, the obstacles, the step counter and the
    winner as they were.  And once a winner is recorded in a reachable
    race, any further sequence of steps returns that same race: the
    winner is never reassigned. *)
Theorem terminal_race_is_final (g : Game) :
  (game_over g = true ->
   forall a t rnd, run_step g a t rnd = Ok (g, true)) /\
  (reachable g -> forall w, winner g = Some w ->
   forall inputs, run_steps g inputs = Ok g).
Proof.
  assert (Hstep : game_over g = true ->
                  forall a t rnd, run_step g a t rnd = Ok (g, true)).
  { intros Hover a t rnd. unfold run_step. now rewrite Hover. }
  split; [exact Hstep|].
  intros Hreach w Hw inputs.
  assert (Hover : game_over g = true).
  { apply winner_game_over; [assumption|congruence]. }
  induction inputs as [|[[a t] rnd] inputs IH]; simpl; [reflexivity|].
  rewrite (Hstep Hover). exact IH.
Qed.

Lemma short_race_end_reachable : reachable short_race_end.
Proof.
  apply (reach_step short_race_start short_race_end None None no_draws true).
  - apply reach_init.
  - vm_compute. reflexivity.
Qed.

Lemma terminal_race_is_final_witness :
  game_over short_race_end = true /\
  winner short_race_end = Some "Player" /\
  run_step short_race_end (Some UseItem) (Some "CPU_1") no_draws
  = Ok (short_race_end, true) /\
  run_steps short_race_end
    [(None, None, no_draws); (Some UseItem, None, no_draws)]
  = Ok short_race_end.
Proof.
  destruct (terminal_race_is_final short_race_end) as [Hstep Hsteps].
  split; [reflexivity|]. split; [reflexivity|]. split.
  - apply Hstep. reflexivity.
  - apply (Hsteps short_race_end_reachable "Player"). reflexivity.
Defined.

(** ** The status timers (C3) *)

Ltac break_matches :=
  repeat match goal with
         | |- context [match ?x with _ => _ end] => destruct x
         end.

(** Trait evaluation assigns [traits] only. *)
Lemma check_trait_conditions_frame (cfg : Config) (r : Racer) :
  boost_timer (check_trait_conditions cfg r) = boost_timer r /\
  hit_timer (check_trait_conditions cfg r) = hit_timer r /\
  relationships (check_trait_conditions cfg r) = relationships r.
Proof.
  unfold check_trait_conditions, add_trait, remove_trait.
  break_matches; auto.
Qed.

Lemma update_relationship_timers (r : Racer) (other : string) (change : Z) :
  boost_timer (update_relationship r other change) = boost_timer r /\
  hit_timer (update_relationship r other change) = hit_timer r.
Proof.
  unfold update_relationship. break_matches; auto.
Qed.

(** The move and the item box leave timers and relationships alone. *)
Lemma move_and_collect_frame (cfg : Config) (r : Racer) (s : Q)
  (gs : GameState) (rnd : Rand) :
  boost_timer (move_and_collect cfg r s gs rnd) = boost_timer r /\
  hit_timer (move_and_collect cfg r s gs rnd) = hit_timer r /\
  relationships (move_and_collect cfg r s gs rnd) = relationships r.
Proof.
  unfold move_and_collect, get_item. cbv zeta.
  break_matches; auto.
Qed.

Lemma racer_reach_update_steps (allowed : Racer -> Prop) (cfg : Config)
  (gs : GameState) (rnd : Rand) (n : nat) (r r' : Racer) :
  racer_reach allowed r -> update_steps cfg gs rnd n r = Ok r' ->
  racer_reach allowed r'.
Proof.
  revert r. induction n as [|n IH]; intros r Hr; simpl.
  - intros [= <-]. exact Hr.
  - destruct (update_step cfg r gs rnd) as [r1|] eqn:E; simpl; [|discriminate].
    apply IH. eapply rr_update_step; eauto.
Qed.

Lemma boosting_while_stunned_reach : racer_reach any_use boosting_while_stunned.
Proof.
  apply (rr_use_item any_use CONFIG stunned boosting_while_stunned None
           lone_state lone_state true).
  - apply (rr_apply_hit any_use CONFIG at_item_box stunned (Some "Player")
             GreenShell lone_state).
    + apply (racer_reach_update_steps any_use CONFIG lone_state boost_draw 20
               (Racer_init CONFIG "CPU_1" false (1 # 2))).
      * apply rr_init.
      * vm_compute. reflexivity.
    + vm_compute. reflexivity.
  - exact I.
  - vm_compute. reflexivity.
Qed.

(** C3, as stated, fails: after construction, 20 step updates (the last
    one draws a Boost), a Green Shell hit and the use of the Boost, the
    boost timer is 3 and the hit timer is 2. *)
Lemma timers_not_exclusive :
  ~ (forall r, racer_reach any_use r -> timers_exclusive r).
Proof.
  intros H. apply (H boosting_while_stunned boosting_while_stunned_reach).
  split; reflexivity.
Qed.

Example boosting_while_stunned_timers :
  boost_timer boosting_while_stunned = 3 /\ hit_timer boosting_while_stunned = 2.
Proof. split; reflexivity. Qed.

Lemma reachable_run_steps (g g' : Game)
  (inputs : list (option Action * option string * (string -> Rand))) :
  reachable g -> run_steps g inputs = Ok g' -> reachable g'.
Proof.
  revert g. induction inputs as [|[[a t] rnd] inputs IH]; intros g Hg; simpl.
  - intros [= <-]. exact Hg.
  - destruct (run_step g a t rnd) as [[g1 b]|] eqn:E; cbn [bind];
      [|discriminate].
    apply IH. eapply reach_step; eauto.
Qed.

(** The same in a race run by [run_step] alone: after 26 steps of the duel
    [CPU_1], hit at step 25 while picking up a Boost and using it at step
    26, has boost timer 3 and hit timer 1. *)
Example duel_both_timers_positive :
  reachable duel_after_26 /\
  exists r, Dict.get "CPU_1" (racers duel_after_26) = Some r
            /\ boost_timer r = 3 /\ hit_timer r = 1.
Proof.
  split.
  - apply (reachable_run_steps (Game_init duel duel_speeds) duel_after_26
             duel_inputs).
    + apply reach_init.
    + vm_compute. reflexivity.
  - eexists. split; [vm_compute; reflexivity|]. split; reflexivity.
Qed.

Lemma use_item_timers (cfg : Config) (r r' : Racer) (t : option string)
  (gs gs' : GameState) (used : bool) :
  use_item cfg r t gs = (used, r', gs') ->
  hit_timer r' = hit_timer r /\
  (boost_timer r' = boost_timer r \/
   current_item r = Some Boost /\ boost_timer r' = boost_duration cfg).
Proof.
  unfold use_item. destruct (current_item r) as [[| | |]|].
  - intros [= _ <- _]. simpl. auto.
  - destruct (Dict.get_opt t (gs_racers gs)); intros [= _ <- _]; simpl; auto.
  - destruct (Dict.get_opt t (gs_racers gs)) as [tr|];
      [destruct (Qltb _ (position tr))|]; intros [= _ <- _]; simpl; auto.
  - intros [= _ <- _]. simpl. auto.
  - intros [= _ <- _]. auto.
Qed.

(** A hit that lands stops the boost. *)
Lemma apply_hit_timers (cfg : Config) (r r' : Racer) (a : option string)
  (i : Item) (gs : GameState) :
  apply_hit cfg r a i gs = Ok r' ->
  (0 < hit_timer r /\ r' = r) \/ (hit_timer r <= 0 /\ boost_timer r' = 0).
Proof.
  unfold apply_hit. destruct (0 <? hit_timer r) eqn:E.
  - intros [= <-]. left. split; auto. now apply Z.ltb_lt.
  - right. split; [apply Z.ltb_ge in E; lia|].
    destruct (times_hit_by_incr _ i) as [hits|]; cbn [bind] in H;
      [|discriminate].
    injection H as <-.
    rewrite (proj1 (check_trait_conditions_frame _ _)).
    destruct a as [a0|]; [destruct (truthy (Some a0))|];
      try rewrite (proj1 (update_relationship_timers _ _ _));
      destruct i; reflexivity.
Qed.

(** The racer the status effects return, by the branch taken. *)
Lemma resolve_status_effects_inv (cfg : Config) (r r1 : Racer) (s : Q) :
  resolve_status_effects cfg r = Ok (r1, s) ->
  (0 < hit_timer r /\
   (exists by_item, last_hit_by_item r = AttrVal by_item) /\
   r1 = (if hit_timer r - 1 =? 0
         then with_last_hit_by_item (AttrVal None)
                (with_last_hit_by None (with_hit_timer (hit_timer r - 1) r))
         else with_hit_timer (hit_timer r - 1) r)) \/
  (hit_timer r <= 0 /\ 0 < boost_timer r /\
   r1 = with_boost_timer (boost_timer r - 1) r) \/
  (hit_timer r <= 0 /\ boost_timer r <= 0 /\ r1 = r /\ s = base_speed r).
Proof.
  unfold resolve_status_effects.
  destruct (0 <? hit_timer r) eqn:Eh.
  - apply Z.ltb_lt in Eh.
    cbn [last_hit_by_item with_hit_timer hit_timer traits].
    destruct (last_hit_by_item r) as [|by_item]; cbn [getattr bind];
      [discriminate|].
    destruct (has_trait ShellShocked (traits r)); cbn [bind].
    + destruct (to_float _) as [p|]; cbn [bind to_float]; [|discriminate].
      intros [= <- _]. left. eauto.
    + destruct (to_float _) as [p|]; cbn [bind]; [|discriminate].
      intros [= <- _]. left. eauto.
  - apply Z.ltb_ge in Eh.
    destruct (0 <? boost_timer r) eqn:Ebt.
    + apply Z.ltb_lt in Ebt.
      destruct (float_of_int _) as [b|]; cbn [bind]; [|discriminate].
      intros [= <- _]. right. left. auto.
    + apply Z.ltb_ge in Ebt. intros [= <- <-]. right. right. auto.
Qed.

Lemma update_step_timers (cfg : Config) (r r' : Racer) (gs : GameState)
  (rnd : Rand) :
  update_step cfg r gs rnd = Ok r' ->
  (0 < hit_timer r /\ hit_timer r' = hit_timer r - 1
   /\ boost_timer r' = boost_timer r) \/
  (hit_timer r <= 0 /\ hit_timer r' = hit_timer r
   /\ boost_timer r' <= Z.max 0 (boost_timer r)).
Proof.
  unfold update_step.
  destruct (resolve_status_effects cfg r) as [[r1 s]|] eqn:E; cbn [bind];
    [|discriminate].
  intros [= <-].
  rewrite (proj1 (move_and_collect_frame _ _ _ _ _)).
  rewrite (proj1 (proj2 (move_and_collect_frame _ _ _ _ _))).
  destruct (resolve_status_effects_inv _ _ _ _ E)
    as [(Hh & _ & ->)|[(Hh & Hb & ->)|(Hh & Hb & -> & _)]].
  - left. split; [assumption|]. destruct (_ =? 0); split; reflexivity.
  - right. simpl. lia.
  - right. lia.
Qed.

(** A Boost in hand is always used, whatever the hit timer. *)
Lemma use_item_boost (cfg : Config) (r r' : Racer) (t : option string)
  (gs gs' : GameState) (used : bool) :
  current_item r = Some Boost ->
  use_item cfg r t gs = (used, r', gs') ->
  used = true /\ boost_timer r' = boost_duration cfg /\
  hit_timer r' = hit_timer r.
Proof.
  intros Hitem. unfold use_item. rewrite Hitem.
  intros [= <- <- _]. repeat split.
Qed.

(** While the hit timer is positive, the step update does not read the
    boost bonus. *)
Lemma update_step_stunned_bonus (cfg : Config) (bonus : Z) (r : Racer)
  (gs : GameState) (rnd : Rand) :
  0 < hit_timer r ->
  update_step (with_boost_speed_bonus bonus cfg) r gs rnd
  = update_step cfg r gs rnd.
Proof.
  intros Hh. apply Z.ltb_lt in Hh.
  unfold update_step, resolve_status_effects. rewrite Hh. reflexivity.
Qed.

Lemma update_steps_stunned_timers (cfg : Config) (gs : GameState) (rnd : Rand)
  (n : nat) (r r' : Racer) :
  Z.of_nat n <= hit_timer r ->
  update_steps cfg gs rnd n r = Ok r' ->
  hit_timer r' = hit_timer r - Z.of_nat n /\ boost_timer r' = boost_timer r.
Proof.
  revert r. induction n as [|n IH]; intros r Hn.
  - intros [= <-]. split; [simpl; lia|reflexivity].
  - cbn [update_steps].
    destruct (update_step cfg r gs rnd) as [r1|] eqn:E; cbn [bind];
      [|discriminate].
    intros Hrun.
    destruct (update_step_timers _ _ _ _ _ E) as [(Hh & Hh1 & Hb1)|(Hh & _)];
      [|lia].
    destruct (IH r1) as [Hh' Hb']; [lia|exact Hrun|].
    split; [lia|congruence].
Qed.

(** C3, amended.  In every state reached from construction by item uses,
    hit applications and step updates in which no Boost is used while the
    hit timer is positive, at most one of [boost_timer > 0] and
    [hit_timer > 0] holds; and a hit that lands (hit timer not positive
    when [apply_hit] is entered) sets the boost timer to 0.  A Boost in
    hand is used whatever the hit timer: [use_item] sets the boost timer
    to the configured duration and leaves the hit timer as it is, so that
    both can be positive.  While the hit timer is positive, a step update
    that returns applies the hit effect only: the hit timer goes down by
    one, the boost timer is untouched, and the outcome does not depend on
    the boost bonus; so over [n] step updates that return, started with a
    hit timer of at least [n], the boost timer does not move. *)
Theorem timers_exclusive_unless_boost_while_hit :
  (forall r, racer_reach no_boost_while_hit r -> timers_exclusive r) /\
  (forall cfg r r' a i gs,
     hit_timer r <= 0 -> apply_hit cfg r a i gs = Ok r' -> boost_timer r' = 0) /\
  (forall cfg r r' t gs gs' used,
     current_item r = Some Boost ->
     use_item cfg r t gs = (used, r', gs') ->
     used = true /\ boost_timer r' = boost_duration cfg /\
     hit_timer r' = hit_timer r) /\
  (forall cfg r r' gs rnd,
     0 < hit_timer r -> update_step cfg r gs rnd = Ok r' ->
     hit_timer r' = hit_timer r - 1 /\ boost_timer r' = boost_timer r /\
     forall bonus,
       update_step (with_boost_speed_bonus bonus cfg) r gs rnd = Ok r') /\
  (forall cfg gs rnd n r r',
     Z.of_nat n <= hit_timer r -> update_steps cfg gs rnd n r = Ok r' ->
     hit_timer r' = hit_timer r - Z.of_nat n /\
     boost_timer r' = boost_timer r).
Proof.
  split; [|split; [|split; [|split]]].
  - intros r Hr. unfold timers_exclusive.
    induction Hr as [cfg nm player u|cfg r r' t gs gs' used Hr IH Hallowed Huse
                    |cfg r r' a i gs Hr IH Hhit|cfg r r' gs rnd Hr IH Hstep].
    + simpl. lia.
    + destruct (use_item_timers _ _ _ _ _ _ _ Huse) as [Hh [Hb|[Hitem Hb]]].
      * rewrite Hh, Hb. exact IH.
      * specialize (Hallowed Hitem). lia.
    + destruct (apply_hit_timers _ _ _ _ _ _ Hhit) as [[_ ->]|[_ Hb]].
      * exact IH.
      * lia.
    + destruct (update_step_timers _ _ _ _ _ Hstep) as [(Hh & Hh' & Hb)|(Hh & Hh' & Hb)];
        lia.
  - intros cfg r r' a i gs Hh Hhit.
    destruct (apply_hit_timers _ _ _ _ _ _ Hhit) as [[Hh' _]|[_ Hb]]; [lia|exact Hb].
  - intros cfg r r' t gs gs' used. apply use_item_boost.
  - intros cfg r r' gs rnd Hh Hstep.
    destruct (update_step_timers _ _ _ _ _ Hstep) as [(_ & Hh' & Hb)|(Hh' & _)];
      [|lia].
    repeat split; auto.
    intros bonus. now rewrite update_step_stunned_bonus.
  - intros cfg gs rnd n r r'. apply update_steps_stunned_timers.
Qed.

Lemma at_item_box_reach : racer_reach no_boost_while_hit at_item_box.
Proof.
  apply (racer_reach_update_steps no_boost_while_hit CONFIG lone_state
           boost_draw 20 (Racer_init CONFIG "CPU_1" false (1 # 2))).
  - apply rr_init.
  - vm_compute. reflexivity.
Qed.

Lemma timers_exclusive_unless_boost_while_hit_witness :
  timers_exclusive hit_while_boosting /\
  (boost_timer boosting = 3 /\ boost_timer hit_while_boosting = 0
   /\ hit_timer hit_while_boosting = 2) /\
  (boost_timer boosting_while_stunned = 3
   /\ hit_timer boosting_while_stunned = 2) /\
  (boost_timer stunned_step_1 = 3 /\ hit_timer stunned_step_1 = 1
   /\ update_step (with_boost_speed_bonus 1000 CONFIG) boosting_while_stunned
        lone_state boost_draw = Ok stunned_step_1) /\
  (boost_timer stunned_step_2 = 3 /\ hit_timer stunned_step_2 = 0).
Proof.
  destruct timers_exclusive_unless_boost_while_hit
    as (Hexcl & Hcancel & Huse & Hstep & Hsteps).
  split; [|split; [|split; [|split]]].
  - apply Hexcl.
    apply (rr_apply_hit no_boost_while_hit CONFIG boosting hit_while_boosting
             (Some "Player") GreenShell lone_state).
    + apply (rr_use_item no_boost_while_hit CONFIG at_item_box boosting None
               lone_state lone_state true).
      * exact at_item_box_reach.
      * intros _. vm_compute. discriminate.
      * vm_compute. reflexivity.
    + vm_compute. reflexivity.
  - split; [reflexivity|]. split; [|reflexivity].
    apply (Hcancel CONFIG boosting hit_while_boosting (Some "Player")
             GreenShell lone_state).
    + vm_compute. discriminate.
    + vm_compute. reflexivity.
  - destruct (Huse CONFIG stunned boosting_while_stunned None lone_state
                lone_state true) as (_ & Hb & Hh).
    + reflexivity.
    + vm_compute. reflexivity.
    + split; [exact Hb|]. rewrite Hh. reflexivity.
  - destruct (Hstep CONFIG boosting_while_stunned stunned_step_1 lone_state
                boost_draw) as (Hh & Hb & Hbonus).
    + vm_compute. reflexivity.
    + vm_compute. reflexivity.
    + split; [rewrite Hb; reflexivity|].
      split; [rewrite Hh; reflexivity|apply Hbonus].
  - destruct (Hsteps CONFIG lone_state boost_draw 2%nat boosting_while_stunned
                stunned_step_2) as (Hh & Hb).
    + vm_compute. discriminate.
    + vm_compute. reflexivity.
    + split; [rewrite Hb; reflexivity|rewrite Hh; reflexivity].
Defined.

(** ** Relationship scores stay within [-10, 10] (C5) *)

Lemma foldM_inv {A S : Type} (I : S -> Prop) (f : S -> A -> Result S)
  (l : list A) (s s' : S) :
  (forall s x s', I s -> f s x = Ok s' -> I s') ->
  I s -> foldM f l s = Ok s' -> I s'.
Proof.
  intros Hf. revert s. induction l as [|x l IH]; intros s Hs; simpl.
  - now intros [= <-].
  - destruct (f s x) as [s1|] eqn:E; cbn [bind]; [|discriminate].
    apply IH. eauto.
Qed.

Lemma fold_left_inv {A S : Type} (I : S -> Prop) (f : S -> A -> S)
  (l : list A) (s : S) :
  (forall s x, I s -> I (f s x)) -> I s -> I (fold_left f l s).
Proof.
  intros Hf. revert s. induction l as [|x l IH]; intros s Hs; simpl; auto.
Qed.

Lemma update_relationship_bounded (r : Racer) (other : string) (change : Z) :
  rel_bounded r -> rel_bounded (update_relationship r other change).
Proof.
  unfold update_relationship, rel_bounded.
  destruct (Dict.get other (relationships r)); auto.
  intros H. simpl. apply all_values_set; auto. apply clamp_rel_bounds.
Qed.

Lemma rel_bounded_same (r r' : Racer) :
  relationships r' = relationships r -> rel_bounded r -> rel_bounded r'.
Proof. unfold rel_bounded. now intros ->. Qed.

Lemma initialize_relationships_bounded (self : Racer) (all_racers : list Racer) :
  rel_bounded self -> rel_bounded (initialize_relationships self all_racers).
Proof.
  unfold initialize_relationships. apply fold_left_inv.
  intros s r Hs. destruct (negb _); auto.
  unfold rel_bounded. simpl. apply all_values_set; auto. lia.
Qed.

Lemma use_item_relationships (cfg : Config) (r r' : Racer) (t : option string)
  (gs gs' : GameState) (used : bool) :
  use_item cfg r t gs = (used, r', gs') ->
  relationships r' = relationships r /\ gs_racers gs' = gs_racers gs.
Proof.
  unfold use_item. destruct (current_item r) as [[| | |]|].
  - intros [= _ <- <-]. auto.
  - destruct (Dict.get_opt t (gs_racers gs)); intros [= _ <- <-]; auto.
  - destruct (Dict.get_opt t (gs_racers gs)) as [tr|];
      [destruct (Qltb _ (position tr))|]; intros [= _ <- <-]; auto.
  - intros [= _ <- <-]. auto.
  - intros [= _ <- <-]. auto.
Qed.

Lemma update_step_relationships (cfg : Config) (r r' : Racer) (gs : GameState)
  (rnd : Rand) :
  update_step cfg r gs rnd = Ok r' -> relationships r' = relationships r.
Proof.
  unfold update_step.
  destruct (resolve_status_effects cfg r) as [[r1 s]|] eqn:E; cbn [bind];
    [|discriminate].
  intros [= <-].
  rewrite (proj2 (proj2 (move_and_collect_frame _ _ _ _ _))).
  destruct (resolve_status_effects_inv _ _ _ _ E)
    as [(_ & _ & ->)|[(_ & _ & ->)|(_ & _ & -> & _)]];
    [destruct (_ =? 0)| |]; reflexivity.
Qed.

Lemma apply_hit_bounded (cfg : Config) (r r' : Racer) (a : option string)
  (i : Item) (gs : GameState) :
  apply_hit cfg r a i gs = Ok r' -> rel_bounded r -> rel_bounded r'.
Proof.
  unfold apply_hit. destruct (0 <? hit_timer r).
  - now intros [= <-].
  - destruct (times_hit_by_incr _ i) as [hits|]; cbn [bind]; [|discriminate].
    intros [= <-] Hr.
    apply (rel_bounded_same _ _
             (proj2 (proj2 (check_trait_conditions_frame _ _)))).
    destruct a as [a0|]; [destruct (truthy (Some a0))|];
      try apply update_relationship_bounded;
      destruct i; exact Hr.
Qed.

Lemma update_racer_bounded (nm : string) (f : Racer -> Racer) (rs : Dict.t Racer) :
  (forall r, rel_bounded r -> rel_bounded (f r)) ->
  store_bounded rs -> store_bounded (update_racer nm f rs).
Proof.
  intros Hf Hrs. unfold update_racer.
  destruct (Dict.get nm rs) as [r|] eqn:E; auto.
  apply all_values_set; auto. apply Hf.
  exact (all_values_get _ _ _ _ Hrs E).
Qed.

Lemma execute_action_bounded (cfg : Config)
  (actions : Dict.t (option Action * option string)) (rnd : string -> Rand)
  (gs gs' : GameState) (nm : string) :
  store_bounded (gs_racers gs) ->
  execute_action cfg actions rnd gs nm = Ok gs' ->
  store_bounded (gs_racers gs').
Proof.
  intros Hgs. unfold execute_action.
  destruct (Dict.get nm (gs_racers gs)) as [racer|] eqn:Er;
    [|now intros [= <-]].
  pose proof (all_values_get _ _ _ _ Hgs Er) as Hracer.
  destruct (Dict.get nm actions) as [[action target]|]; [|discriminate].
  assert (Huse : exists used r1 gs1,
            match action with
            | Some UseItem => use_item cfg racer target gs
            | _ => (false, racer, gs)
            end = (used, r1, gs1)
            /\ relationships r1 = relationships racer
            /\ gs_racers gs1 = gs_racers gs).
  { destruct action as [[|]|]; try (now exists false, racer, gs).
    destruct (use_item cfg racer target gs) as [[used r1] gs1] eqn:Eu.
    exists used, r1, gs1. split; auto.
    exact (use_item_relationships _ _ _ _ _ _ _ Eu). }
  destruct Huse as (used & r1 & gs1 & -> & Hr1 & Hgs1).
  destruct (update_step cfg r1 gs1 (rnd nm)) as [r2|] eqn:Es; cbn [bind];
    [|discriminate].
  intros [= <-]. simpl. rewrite Hgs1.
  apply all_values_set; auto.
  apply update_step_relationships in Es.
  apply (rel_bounded_same racer); [congruence|exact Hracer].
Qed.

Lemma process_event_bounded (cfg : Config) (gs gs' : GameState) (event : Event) :
  store_bounded (gs_racers gs) ->
  process_event cfg gs event = Ok gs' ->
  store_bounded (gs_racers gs').
Proof.
  intros Hgs. unfold process_event. destruct (ev_type event).
  destruct (Dict.get (ev_target event) (gs_racers gs)) as [tr|] eqn:Et;
    [|now intros [= <-]].
  destruct (apply_hit cfg tr _ _ gs) as [r|] eqn:Eh; cbn [bind]; [|discriminate].
  intros [= <-]. simpl. apply all_values_set; auto.
  apply (apply_hit_bounded _ _ _ _ _ _ Eh).
  exact (all_values_get _ _ _ _ Hgs Et).
Qed.

Lemma scan_racers_bounded (cfg : Config) (lp : Dict.t Q) (obs : Obstacle)
  (names : list string) (gs gs' : GameState) :
  store_bounded (gs_racers gs) ->
  scan_racers cfg lp obs names gs = Ok (Some gs') ->
  store_bounded (gs_racers gs').
Proof.
  intros Hgs. induction names as [|nm names IH]; simpl; [discriminate|].
  destruct (Dict.get nm (gs_racers gs)) as [racer|] eqn:Er; [|exact IH].
  destruct (_ && _); [|exact IH].
  destruct (apply_hit cfg racer _ _ gs) as [r|] eqn:Eh; cbn [bind];
    [|discriminate].
  intros [= <-]. simpl. apply all_values_set; auto.
  apply (apply_hit_bounded _ _ _ _ _ _ Eh).
  exact (all_values_get _ _ _ _ Hgs Er).
Qed.

Lemma check_obstacle_bounded (cfg : Config) (lp : Dict.t Q)
  (st st' : GameState * list Obstacle) (obs : Obstacle) :
  store_bounded (gs_racers (fst st)) ->
  check_obstacle cfg lp st obs = Ok st' ->
  store_bounded (gs_racers (fst st')).
Proof.
  destruct st as [gs new_obstacles]. simpl. intros Hgs.
  destruct (scan_racers cfg lp obs _ gs) as [[gs1|]|] eqn:Es; cbn [bind];
    try discriminate; intros [= <-]; simpl; auto.
  exact (scan_racers_bounded _ _ _ _ _ _ Hgs Es).
Qed.

Lemma check_overtakes_bounded (cfg : Config) (lp : Dict.t Q) (rs : Dict.t Racer) :
  store_bounded rs -> store_bounded (check_overtakes cfg lp rs).
Proof.
  unfold check_overtakes. apply fold_left_inv.
  intros s [i current_name] Hs. unfold overtake_updates.
  destruct (index_of_name _ _) as [last_rank_index|]; auto.
  destruct (Nat.ltb i last_rank_index); auto.
  apply fold_left_inv; auto.
  intros s' j Hs'. destruct (nth_error _ j); auto.
  apply update_racer_bounded; auto.
  intros r. apply update_relationship_bounded.
Qed.

Lemma finish_updates_bounded (cfg : Config) (winner_name : string)
  (rs : Dict.t Racer) :
  store_bounded rs -> store_bounded (finish_updates cfg winner_name rs).
Proof.
  unfold finish_updates. apply fold_left_inv.
  intros s [i r_name] Hs. destruct (negb _); auto.
  apply fold_left_inv; auto.
  intros s' finisher_ahead Hs'.
  apply update_racer_bounded; auto.
  intros r. apply update_relationship_bounded.
Qed.

Lemma update_traits_bounded (cfg : Config) (rs : Dict.t Racer) :
  store_bounded rs -> store_bounded (update_traits cfg rs).
Proof.
  unfold update_traits, store_bounded.
  apply all_values_map. intros r.
  apply rel_bounded_same.
  exact (proj2 (proj2 (check_trait_conditions_frame cfg r))).
Qed.

Lemma run_step_bounded (g g' : Game) (a : option Action) (t : option string)
  (rnd : string -> Rand) (b : bool) :
  store_bounded (racers g) ->
  run_step g a t rnd = Ok (g', b) ->
  store_bounded (racers g').
Proof.
  intros Hg Hstep. destruct (game_over g) eqn:Hover.
  - unfold run_step in Hstep. rewrite Hover in Hstep.
    now injection Hstep as <- _.
  - destruct (run_step_running _ _ _ _ _ _ Hover Hstep)
      as (actions & gs0 & gs1 & gs2 & gs3 & obs
          & H0 & _ & H1 & H2 & H3 & H4).
    cbv zeta in H4.
    assert (Hgs1 : store_bounded (gs_racers gs1)).
    { unfold execute_actions in H1.
      refine (foldM_inv (fun gs => store_bounded (gs_racers gs)) _ _ _ _ _ _ H1).
      - intros s x s' Hs. now apply execute_action_bounded.
      - now rewrite H0. }
    assert (Hgs2 : store_bounded (gs_racers gs2)).
    { unfold process_pending_events in H2.
      refine (foldM_inv (fun gs => store_bounded (gs_racers gs)) _ _ _ _ _ _ H2).
      - intros s x s' Hs. now apply process_event_bounded.
      - exact Hgs1. }
    assert (Hgs3 : store_bounded (gs_racers gs3)).
    { unfold check_obstacle_collisions in H3.
      refine (foldM_inv (fun st => store_bounded (gs_racers (fst st)))
                _ _ _ _ _ _ H3).
      - intros s x s' Hs. now apply check_obstacle_bounded.
      - exact Hgs2. }
    pose proof (check_overtakes_bounded (config g)
                  (map (fun kv => (fst kv, position (snd kv))) (racers g))
                  _ Hgs3) as Hrs.
    destruct (first_finisher _ _) as [nm|]; destruct H4 as (-> & _ & _).
    + apply update_traits_bounded. now apply finish_updates_bounded.
    + now apply update_traits_bounded.
Qed.

Lemma Game_init_bounded (cfg : Config) (u : string -> Q) :
  store_bounded (racers (Game_init cfg u)).
Proof.
  unfold Game_init. cbv zeta. cbn [racers]. unfold store_bounded.
  apply all_values_map with (P := rel_bounded).
  - intros r. apply initialize_relationships_bounded.
  - apply all_values_fold_set with (key := fun nm => nm)
      (val := fun nm => Racer_init cfg nm false (u nm)).
    + intros nm. constructor.
    + repeat constructor.
Qed.

(** C5.  In every reachable race (constructed, then advanced by steps and
    changed by the [rel], [give] and [config] hooks in any order, with any
    configuration values), every relationship score of every racer lies
    in [-10, 10]: it is 0 at construction, and the hit penalty, the
    overtake penalty, the finish-ahead penalty and the absolute set all go
    through the clamping [update_relationship]. *)
Theorem relationships_bounded (g : Game) (nm other : string) (r : Racer)
  (s : Z) :
  reachable g ->
  Dict.get nm (racers g) = Some r ->
  Dict.get other (relationships r) = Some s ->
  -10 <= s <= 10.
Proof.
  intros Hreach Hr Hs.
  assert (Hg : store_bounded (racers g)).
  { clear Hr. induction Hreach as [cfg u|g g' a t rnd b Hg IH Hstep
                                  |g r1 r2 v Hg IH|g r0 i Hg IH|g cfg Hg IH].
    - apply Game_init_bounded.
    - exact (run_step_bounded _ _ _ _ _ _ IH Hstep).
    - unfold rel_command.
      destruct (Dict.get r1 (racers g)) as [x1|] eqn:E1; auto.
      destruct (Dict.get r2 (racers g)) as [x2|]; auto.
      destruct (negb _); auto. simpl.
      apply all_values_set; auto.
      apply update_relationship_bounded.
      exact (all_values_get _ _ _ _ IH E1).
    - simpl. apply update_racer_bounded; auto.
    - exact IH. }
  pose proof (all_values_get _ _ _ _ Hg Hr) as Hrb.
  exact (all_values_get _ _ _ _ Hrb Hs).
Qed.

Lemma relationships_bounded_witness :
  Dict.get "CPU_1" (relationships grudge_player) = Some (-10) /\
  -10 <= -10 <= 10.
Proof.
  split.
  - vm_compute. reflexivity.
  - apply (relationships_bounded grudge_game "Player" "CPU_1" grudge_player
             (-10)).
    + apply reach_rel. apply reach_init.
    + vm_compute. reflexivity.
    + vm_compute. reflexivity.
Defined.

(** ** Concrete instances *)

Lemma set_relationship_roundtrip_witness :
  Dict.get "CPU_1" (relationships grudge_player) = Some (-10) /\
  set_relationship grudge_player "CPU_1" 37
  = update_relationship grudge_player "CPU_1" (37 - -10) /\
  Dict.get "CPU_1" (relationships (set_relationship grudge_player "CPU_1" 37))
  = Some 10.
Proof.
  split.
  - vm_compute. reflexivity.
  - apply (set_relationship_roundtrip grudge_player "CPU_1" (-10) 37).
    vm_compute. reflexivity.
Defined.

Lemma apply_hit_immune_witness :
  0 < hit_timer stunned /\
  apply_hit CONFIG stunned (Some "Player") Banana lone_state = Ok stunned.
Proof.
  split.
  - reflexivity.
  - apply (apply_hit_immune CONFIG stunned (Some "Player") Banana lone_state).
    reflexivity.
Defined.

Lemma red_shell_use_witness :
  current_item red_shell_racer = Some RedShell /\
  let '(used, self', gs') :=
    use_item CONFIG red_shell_racer (Some "Player")
      (get_state green_shell_game) in
  used = true /\
  current_item self' = None /\
  (forall t, red_shell_target red_shell_racer (Some "Player")
               (get_state green_shell_game) t ->
     gs_pending_events gs'
     = (gs_pending_events (get_state green_shell_game)
        ++ [mkEvent Hit (name red_shell_racer) (name t) RedShell])%list
     /\ get0 (name t) (hit_others_count self')
        = get0 (name t) (hit_others_count red_shell_racer) + 1) /\
  ((forall t, ~ red_shell_target red_shell_racer (Some "Player")
                  (get_state green_shell_game) t) ->
     gs' = get_state green_shell_game
     /\ hit_others_count self' = hit_others_count red_shell_racer).
Proof.
  split.
  - reflexivity.
  - apply (red_shell_use CONFIG red_shell_racer (Some "Player")
             (get_state green_shell_game)).
    reflexivity.
Defined.

(** The Red Shell of [CPU_1] on the player 10 units ahead connects; on a
    name that is no racer's, it fizzles with the shell gone. *)
Example red_shell_connects :
  gs_pending_events
    (snd (use_item CONFIG red_shell_racer (Some "Player")
            (get_state green_shell_game)))
  = [mkEvent Hit "CPU_1" "Player" RedShell].
Proof. reflexivity. Qed.

Example red_shell_fizzles :
  use_item CONFIG red_shell_racer (Some "Nobody") (get_state green_shell_game)
  = (true,
     with_item_uses (mkItemUses 0 0 1 0) (with_current_item None red_shell_racer),
     get_state green_shell_game).
Proof. reflexivity. Qed.

(** * Further properties of the engine *)

(** ** The AI decision on the step's snapshot *)

(** On the snapshot of its own game, and with a negative targeting
    threshold, the decision of an AI racer holding an item comes down to
    this: the two lists of racers ahead and behind are empty. *)
Lemma decide_action_snapshot (cfg : Config) (g : Game) (nm : string)
  (self : Racer) (rnd : Rand) (item : Item) :
  nemesis_targeting_threshold cfg < 0 ->
  In (nm, self) (racers g) ->
  is_player self = false ->
  current_item self = Some item ->
  decide_action cfg self (get_state g) rnd =
  match item with
  | Boost =>
      if boost_timer self <=? 0 then Ok (Some UseItem, None)
      else Ok (Some Drive, None)
  | GreenShell | RedShell => Ok (Some Drive, None)
  | Banana =>
      if has_trait Aggressive (traits self)
         && Qltb (rnd_banana_aggr rnd) (3 # 10)
      then Ok (Some UseItem, None)
      else Ok (Some Drive, None)
  end.
Proof.
  intros Hthr Hself Hai Hitem. unfold decide_action. rewrite Hai, Hitem.
  apply get_state_positions_In in Hself.
  destruct (index_of_In _ _ _ Hself) as [i Hi]. rewrite Hi. cbn [bind].
  destruct (racers_ahead_behind_empty self _ i (get_state_positions_desc g) Hi)
    as [-> ->]. cbn [bind].
  destruct (find_nemesis_target_ok cfg self (get_state g) Hthr) as [nt ->].
  cbn [bind]. destruct item, nt; reflexivity.
Qed.

Lemma decide_action_returns (cfg : Config) (g : Game) (nm : string)
  (self : Racer) (rnd : Rand) :
  nemesis_targeting_threshold cfg < 0 ->
  In (nm, self) (racers g) ->
  exists a, decide_action cfg self (get_state g) rnd = Ok (a, None).
Proof.
  intros Hthr Hself.
  destruct (is_player self) eqn:Hai.
  - unfold decide_action. rewrite Hai. eauto.
  - destruct (current_item self) as [item|] eqn:Hitem.
    + rewrite (decide_action_snapshot cfg g nm self rnd item Hthr Hself Hai
                 Hitem).
      destruct item; [destruct (_ <=? _)| | |destruct (_ && _)]; eauto.
    + unfold decide_action. rewrite Hai, Hitem. unfold drive. eauto.
Qed.

(** X1.  An AI racer of the game that holds a Red Shell never uses it
    either: the list of racers ahead it would pick the nemesis or the
    closest racer from is empty on every snapshot, so the decision is
    "drive" (negative targeting threshold). *)
Theorem red_shell_never_used (cfg : Config) (g : Game) (nm : string)
  (self : Racer) (rnd : Rand) :
  nemesis_targeting_threshold cfg < 0 ->
  Dict.get nm (racers g) = Some self ->
  is_player self = false ->
  current_item self = Some RedShell ->
  decide_action cfg self (get_state g) rnd = Ok (Some Drive, None).
Proof.
  intros Hthr Hself Hai Hitem.
  exact (decide_action_snapshot cfg g nm self rnd RedShell Hthr
           (get_In _ _ _ Hself) Hai Hitem).
Qed.

Lemma red_shell_never_used_witness :
  (exists ahead, Dict.get "Player" (racers red_shell_game) = Some ahead
                 /\ (position red_shell_racer < position ahead)%Q)
  /\ decide_action CONFIG red_shell_racer (get_state red_shell_game)
       (mkRand 0 0 0 0)
     = Ok (Some Drive, None).
Proof.
  split.
  - eexists. split; reflexivity.
  - apply (red_shell_never_used CONFIG red_shell_game "CPU_1" red_shell_racer);
      reflexivity.
Defined.

(** X2.  An AI racer of the game that holds a Banana drops it exactly when
    it has the Aggressive trait and the draw of that branch is below 0.3:
    the list of racers close behind is always empty, so neither the
    nemesis branch nor the 0.7 branch is ever taken (negative targeting
    threshold). *)
Theorem banana_dropped_only_when_aggressive (cfg : Config) (g : Game)
  (nm : string) (self : Racer) (rnd : Rand) :
  nemesis_targeting_threshold cfg < 0 ->
  Dict.get nm (racers g) = Some self ->
  is_player self = false ->
  current_item self = Some Banana ->
  (has_trait Aggressive (traits self) = true /\
   (rnd_banana_aggr rnd < 3 # 10)%Q ->
   decide_action cfg self (get_state g) rnd = Ok (Some UseItem, None)) /\
  (~ (has_trait Aggressive (traits self) = true /\
      (rnd_banana_aggr rnd < 3 # 10)%Q) ->
   decide_action cfg self (get_state g) rnd = Ok (Some Drive, None)).
Proof.
  intros Hthr Hself Hai Hitem.
  rewrite (decide_action_snapshot cfg g nm self rnd Banana Hthr
             (get_In _ _ _ Hself) Hai Hitem).
  split.
  - intros [-> Hlt]. apply Qltb_lt in Hlt. now rewrite Hlt.
  - intros Hn. destruct (has_trait Aggressive (traits self)); simpl; auto.
    destruct (Qltb (rnd_banana_aggr rnd) (3 # 10)) eqn:E; auto.
    exfalso. apply Hn. split; auto. now apply Qltb_lt.
Qed.

Lemma banana_dropped_only_when_aggressive_witness :
  (exists behind, Dict.get "Player" (racers banana_game) = Some behind
                  /\ (position banana_racer - position behind < 50)%Q)
  /\ decide_action CONFIG banana_racer (get_state banana_game)
       (mkRand 0 0 (1 # 10) 0) = Ok (Some UseItem, None)
  /\ decide_action CONFIG (with_traits [] banana_racer)
       (get_state
          (with_racers
             [("Player", with_position 20
                           (Racer_init CONFIG "Player" true (1 # 2)));
              ("CPU_1", with_traits [] banana_racer)] banana_game))
       (mkRand 0 0 (1 # 10) 0) = Ok (Some Drive, None).
Proof.
  split; [|split].
  - eexists. split; reflexivity.
  - apply (banana_dropped_only_when_aggressive CONFIG banana_game "CPU_1"
             banana_racer (mkRand 0 0 (1 # 10) 0)); try reflexivity.
    split; reflexivity.
  - apply (banana_dropped_only_when_aggressive CONFIG
             (with_racers
                [("Player", with_position 20
                              (Racer_init CONFIG "Player" true (1 # 2)));
                 ("CPU_1", with_traits [] banana_racer)] banana_game)
             "CPU_1" (with_traits [] banana_racer)
             (mkRand 0 0 (1 # 10) 0)); try reflexivity.
    intros [H _]. discriminate H.
Defined.

(** X3.  On the snapshot of its own game no decision fails and none names
    a target: for every racer of the game, player or AI, with or without
    an item, [decide_action] returns an action with target [None]
    (negative targeting threshold). *)
Theorem decide_action_never_targets (cfg : Config) (g : Game) (nm : string)
  (self : Racer) (rnd : Rand) :
  nemesis_targeting_threshold cfg < 0 ->
  Dict.get nm (racers g) = Some self ->
  exists a, decide_action cfg self (get_state g) rnd = Ok (a, None).
Proof.
  intros Hthr Hself.
  exact (decide_action_returns cfg g nm self rnd Hthr (get_In _ _ _ Hself)).
Qed.

Lemma decide_action_never_targets_witness :
  exists a, decide_action CONFIG green_shell_racer (get_state green_shell_game)
              (mkRand 3 0 0 0) = Ok (a, None).
Proof.
  apply (decide_action_never_targets CONFIG green_shell_game "CPU_1"
           green_shell_racer (mkRand 3 0 0 0)); reflexivity.
Defined.

Lemma mapM_raises {A B : Type} (f : A -> Result B) (l : list A) (e : PyError) :
  (forall x e', In x l -> f x = Raise e' -> e' = e) ->
  (exists x, In x l /\ f x = Raise e) ->
  mapM f l = Raise e.
Proof.
  induction l as [|x l IH]; intros Hall (y & Hy & Hf); [contradiction|].
  simpl. destruct (f x) as [b|e'] eqn:E; cbn [bind].
  - destruct Hy as [->|Hy]; [congruence|].
    rewrite IH; [reflexivity| |eauto].
    intros x' e' Hx'. apply Hall. now right.
  - f_equal. apply (Hall x e'); auto. now left.
Qed.

(** X4.  With a targeting threshold of 0 or more, the decision of an AI
    racer that holds an item fails with a [KeyError]: the racer's own
    name, for which it keeps no score, counts as a strong negative target
    (its default score 0 is at or below the threshold), and looking up
    its score in [relationships] fails. *)
Theorem decide_action_nonnegative_threshold (cfg : Config) (g : Game)
  (nm : string) (self : Racer) (rnd : Rand) (item : Item) :
  0 <= nemesis_targeting_threshold cfg ->
  Dict.get nm (racers g) = Some self ->
  Dict.get nm (relationships self) = None ->
  is_player self = false ->
  current_item self = Some item ->
  decide_action cfg self (get_state g) rnd = Raise KeyError.
Proof.
  intros Hthr Hself Hnone Hai Hitem. unfold decide_action.
  rewrite Hai, Hitem.
  apply get_In in Hself.
  pose proof (get_state_positions_In _ _ _ Hself) as Hpos.
  destruct (index_of_In _ _ _ Hpos) as [i Hi]. rewrite Hi. cbn [bind].
  destruct (racers_ahead_behind_empty self _ i (get_state_positions_desc g) Hi)
    as [-> ->]. cbn [bind].
  replace (find_nemesis_target cfg self (get_state g))
    with (@Raise (option Racer) KeyError); [reflexivity|].
  symmetry. unfold find_nemesis_target.
  set (snt := filter _ (gs_racers (get_state g))).
  assert (Hin : In (nm, self) snt).
  { apply filter_In. split; [exact Hself|].
    simpl. unfold get0. rewrite Hnone. now apply Z.leb_le. }
  rewrite (mapM_raises _ snt KeyError).
  - destruct snt; [contradiction|reflexivity].
  - intros [k r] e' _. unfold relationship_of. simpl.
    destruct (Dict.get k (relationships self)); simpl; congruence.
  - exists (nm, self). split; auto.
    unfold relationship_of. simpl. now rewrite Hnone.
Qed.

Lemma decide_action_nonnegative_threshold_witness :
  decide_action zero_threshold green_shell_racer (get_state green_shell_game)
    (mkRand 0 0 0 0) = Raise KeyError.
Proof.
  apply (decide_action_nonnegative_threshold zero_threshold green_shell_game
           "CPU_1" green_shell_racer (mkRand 0 0 0 0) GreenShell);
    first [reflexivity | discriminate].
Defined.

(** ** The step update of a racer *)

Lemma max1_ge_1 (x : Q) : (1 <= max1 x)%Q.
Proof.
  unfold max1. destruct (Qltb 1 x) eqn:E.
  - apply Qltb_lt in E. now apply Qlt_le_weak.
  - apply Qle_refl.
Qed.

Lemma float_of_int_in_range (z : Z) :
  Z.abs z < float_int_bound -> float_of_int z = Ok (ZtoQ z).
Proof.
  intros H. unfold float_of_int. apply Z.ltb_lt in H. now rewrite H.
Qed.

Lemma float_of_int_0 : float_of_int 0 = Ok (ZtoQ 0).
Proof. vm_compute. reflexivity. Qed.

Lemma resolve_status_effects_frame (cfg : Config) (r r1 : Racer) (s : Q) :
  resolve_status_effects cfg r = Ok (r1, s) ->
  name r1 = name r /\ position r1 = position r /\
  base_speed r1 = base_speed r /\ current_item r1 = current_item r /\
  next_item_box_pos r1 = next_item_box_pos r.
Proof.
  intros H.
  destruct (resolve_status_effects_inv _ _ _ _ H)
    as [(_ & _ & ->)|[(_ & _ & ->)|(_ & _ & -> & _)]];
    [destruct (_ =? 0)| |]; repeat split.
Qed.

(** The status effects of a stunned racer whose hit item is on record:
    they return when the penalties convert. *)
Lemma resolve_status_effects_stunned (cfg : Config) (r : Racer)
  (by_item : option Item) :
  penalties_in_range cfg ->
  0 < hit_timer r -> last_hit_by_item r = AttrVal by_item ->
  exists s,
    resolve_status_effects cfg r
    = Ok (if hit_timer r - 1 =? 0
          then with_last_hit_by_item (AttrVal None)
                 (with_last_hit_by None (with_hit_timer (hit_timer r - 1) r))
          else with_hit_timer (hit_timer r - 1) r, s).
Proof.
  intros [Hs Hb] Hh Hattr. unfold resolve_status_effects.
  apply Z.ltb_lt in Hh. rewrite Hh.
  cbn [last_hit_by_item with_hit_timer hit_timer traits]. rewrite Hattr.
  cbn [getattr bind].
  destruct by_item as [[| | |]|]; destruct (has_trait ShellShocked (traits r));
    cbn [bind to_float];
    rewrite ?(float_of_int_in_range _ Hs), ?(float_of_int_in_range _ Hb),
      ?float_of_int_0;
    cbn [bind to_float];
    rewrite ?(float_of_int_in_range _ Hs), ?(float_of_int_in_range _ Hb),
      ?float_of_int_0;
    cbn [bind]; eauto.
Qed.

Lemma resolve_status_effects_boosting (cfg : Config) (r : Racer) :
  Z.abs (boost_speed_bonus cfg) < float_int_bound ->
  hit_timer r <= 0 -> 0 < boost_timer r ->
  exists s,
    resolve_status_effects cfg r
    = Ok (with_boost_timer (boost_timer r - 1) r, s).
Proof.
  intros Hbonus Hh Hb. unfold resolve_status_effects.
  apply Z.ltb_ge in Hh. apply Z.ltb_lt in Hb. rewrite Hh, Hb.
  rewrite (float_of_int_in_range _ Hbonus). cbn [bind]. eauto.
Qed.

Lemma resolve_status_effects_free (cfg : Config) (r : Racer) :
  hit_timer r <= 0 -> boost_timer r <= 0 ->
  resolve_status_effects cfg r = Ok (r, base_speed r).
Proof.
  intros Hh Hb. unfold resolve_status_effects.
  apply Z.ltb_ge in Hh. apply Z.ltb_ge in Hb. now rewrite Hh, Hb.
Qed.

Lemma move_and_collect_position (cfg : Config) (r : Racer) (s : Q)
  (gs : GameState) (rnd : Rand) :
  position (move_and_collect cfg r s gs rnd) = (position r + max1 s)%Q /\
  name (move_and_collect cfg r s gs rnd) = name r /\
  base_speed (move_and_collect cfg r s gs rnd) = base_speed r.
Proof.
  unfold move_and_collect, get_item. cbv zeta. break_matches; auto.
Qed.

Lemma move_and_collect_forward (cfg : Config) (r : Racer) (s : Q)
  (gs : GameState) (rnd : Rand) :
  (position r <= position (move_and_collect cfg r s gs rnd))%Q.
Proof.
  rewrite (proj1 (move_and_collect_position cfg r s gs rnd)).
  pose proof (max1_ge_1 s). lra.
Qed.

Lemma update_step_moves (cfg : Config) (r r' : Racer) (gs : GameState)
  (rnd : Rand) :
  update_step cfg r gs rnd = Ok r' ->
  (position r <= position r')%Q /\ name r' = name r /\
  base_speed r' = base_speed r.
Proof.
  unfold update_step.
  destruct (resolve_status_effects cfg r) as [[r1 s]|] eqn:E; cbn [bind];
    [|discriminate].
  intros [= <-].
  destruct (resolve_status_effects_frame _ _ _ _ E) as (Hn & Hp & Hs & _).
  rewrite (proj1 (proj2 (move_and_collect_position _ _ _ _ _))), Hn.
  rewrite (proj2 (proj2 (move_and_collect_position _ _ _ _ _))), Hs.
  split; [|split; reflexivity].
  rewrite <- Hp. apply move_and_collect_forward.
Qed.

(** X5.  A step update that returns never moves the racer backwards,
    whatever its status effects and the configured penalties (the speed
    of the step is floored at 1), and it leaves name and base speed as
    they were. *)
Theorem update_step_advances (cfg : Config) (r r' : Racer) (gs : GameState)
  (rnd : Rand) :
  update_step cfg r gs rnd = Ok r' ->
  (position r <= position r')%Q /\ name r' = name r /\
  base_speed r' = base_speed r.
Proof.
  apply update_step_moves.
Qed.

Lemma update_step_advances_witness :
  (position stunned <= position stunned_once)%Q /\
  name stunned_once = name stunned /\
  base_speed stunned_once = base_speed stunned.
Proof.
  apply (update_step_advances CONFIG stunned stunned_once lone_state
           boost_draw).
  vm_compute. reflexivity.
Defined.

Lemma move_and_collect_item_box (cfg : Config) (r : Racer) (s : Q)
  (gs : GameState) (rnd : Rand) :
  let r' := move_and_collect cfg r s gs rnd in
  (forall i, current_item r = Some i -> current_item r' = Some i) /\
  ((ZtoQ (next_item_box_pos r) <= position r')%Q ->
   next_item_box_pos r' = next_item_box_pos r + item_box_spacing cfg /\
   current_item r' <> None) /\
  (~ (ZtoQ (next_item_box_pos r) <= position r')%Q ->
   next_item_box_pos r' = next_item_box_pos r /\
   current_item r' = current_item r).
Proof.
  cbv zeta.
  rewrite (proj1 (move_and_collect_position cfg r s gs rnd)).
  unfold move_and_collect. cbv zeta. cbn [position next_item_box_pos with_position].
  destruct (Qle_bool (ZtoQ (next_item_box_pos r)) (position r + max1 s)) eqn:E.
  - apply Qle_bool_iff in E.
    cbn [current_item with_position].
    destruct (current_item r) as [i|] eqn:Ei.
    + cbn. rewrite Ei. repeat split; try congruence; tauto.
    + unfold get_item. repeat split; try congruence; try tauto;
        break_matches; cbn; congruence.
  - assert (~ (ZtoQ (next_item_box_pos r) <= position r + max1 s)%Q) as Hn.
    { intros H. apply Qle_bool_iff in H. congruence. }
    cbn. repeat split; try tauto.
Qed.

(** X6.  The item box in a step update.  A held item is never replaced.
    If the new position has reached the racer's next item box, the box
    moves on by exactly one spacing (however far past it the racer is)
    and the slot is not empty afterwards; otherwise box and slot are as
    they were. *)
Theorem update_step_item_box (cfg : Config) (r r' : Racer) (gs : GameState)
  (rnd : Rand) :
  update_step cfg r gs rnd = Ok r' ->
  (forall i, current_item r = Some i -> current_item r' = Some i) /\
  ((ZtoQ (next_item_box_pos r) <= position r')%Q ->
   next_item_box_pos r' = next_item_box_pos r + item_box_spacing cfg /\
   current_item r' <> None) /\
  (~ (ZtoQ (next_item_box_pos r) <= position r')%Q ->
   next_item_box_pos r' = next_item_box_pos r /\
   current_item r' = current_item r).
Proof.
  unfold update_step.
  destruct (resolve_status_effects cfg r) as [[r1 s]|] eqn:E; cbn [bind];
    [|discriminate].
  intros [= <-].
  destruct (resolve_status_effects_frame _ _ _ _ E) as (_ & _ & _ & Hi & Hb).
  pose proof (move_and_collect_item_box cfg r1 s gs rnd) as H.
  cbv zeta in H. rewrite Hi, Hb in H. exact H.
Qed.

Lemma update_step_item_box_witness :
  current_item at_item_box = Some Boost /\
  next_item_box_pos at_item_box = 400 /\
  (forall i, current_item at_item_box = Some i ->
             current_item
               (match update_step CONFIG at_item_box lone_state boost_draw with
                | Ok r => r
                | Raise _ => at_item_box
                end) = Some i).
Proof.
  split; [reflexivity|]. split; [reflexivity|].
  apply (update_step_item_box CONFIG at_item_box _ lone_state boost_draw).
  vm_compute. reflexivity.
Defined.

Lemma move_and_collect_free (cfg : Config) (r : Racer) (s : Q)
  (gs : GameState) (rnd : Rand) :
  last_hit_by (move_and_collect cfg r s gs rnd) = last_hit_by r /\
  last_hit_by_item (move_and_collect cfg r s gs rnd) = last_hit_by_item r.
Proof.
  unfold move_and_collect, get_item. cbv zeta. break_matches; auto.
Qed.

(** X7.  Absent status effects (neither timer positive), [n] step updates
    return under every configuration -- on this path no configured int
    meets a float -- and they leave both timers, the base speed and the
    record of the last hit untouched, the racer being no further back
    than it was. *)
Theorem update_steps_free_run (cfg : Config) (gs : GameState) (rnd : Rand)
  (n : nat) (r : Racer) :
  hit_timer r <= 0 -> boost_timer r <= 0 ->
  exists r',
    update_steps cfg gs rnd n r = Ok r' /\
    (position r <= position r')%Q /\
    hit_timer r' = hit_timer r /\ boost_timer r' = boost_timer r /\
    base_speed r' = base_speed r /\
    last_hit_by r' = last_hit_by r /\
    last_hit_by_item r' = last_hit_by_item r.
Proof.
  revert r. induction n as [|n IH]; intros r Hh Hb.
  - exists r. simpl. repeat split; auto. apply Qle_refl.
  - cbn [update_steps]. unfold update_step.
    rewrite (resolve_status_effects_free cfg r Hh Hb). cbn [bind].
    set (r1 := move_and_collect cfg r (base_speed r) gs rnd).
    destruct (move_and_collect_frame cfg r (base_speed r) gs rnd)
      as (Hb1 & Hh1 & _).
    destruct (move_and_collect_position cfg r (base_speed r) gs rnd)
      as (_ & _ & Hs1).
    destruct (move_and_collect_free cfg r (base_speed r) gs rnd)
      as (Hl1 & Hi1).
    pose proof (move_and_collect_forward cfg r (base_speed r) gs rnd) as Hp1.
    fold r1 in Hb1, Hh1, Hs1, Hl1, Hi1, Hp1.
    destruct (IH r1) as (r' & Hrun & Hp & Hh' & Hb' & Hs' & Hl' & Hi');
      [rewrite Hh1; exact Hh|rewrite Hb1; exact Hb|].
    exists r'. split; [exact Hrun|].
    rewrite Hh', Hb', Hs', Hl', Hi', Hh1, Hb1, Hs1, Hl1, Hi1.
    repeat split; auto. eapply Qle_trans; eauto.
Qed.

Lemma update_steps_free_run_witness :
  exists r',
    update_steps CONFIG lone_state (mkRand 0 0 0 1) 100 fresh_racer = Ok r' /\
    (position fresh_racer <= position r')%Q /\
    hit_timer r' = hit_timer fresh_racer /\
    boost_timer r' = boost_timer fresh_racer /\
    base_speed r' = base_speed fresh_racer /\
    last_hit_by r' = last_hit_by fresh_racer /\
    last_hit_by_item r' = last_hit_by_item fresh_racer.
Proof.
  apply (update_steps_free_run CONFIG lone_state (mkRand 0 0 0 1) 100
           fresh_racer); vm_compute; discriminate.
Defined.

Lemma update_step_stunned (cfg : Config) (gs : GameState) (rnd : Rand)
  (r : Racer) (by_item : option Item) :
  penalties_in_range cfg ->
  0 < hit_timer r ->
  last_hit_by_item r = AttrVal by_item ->
  exists r1,
    update_step cfg r gs rnd = Ok r1 /\
    hit_timer r1 = hit_timer r - 1 /\
    boost_timer r1 = boost_timer r /\
    (exists v, last_hit_by_item r1 = AttrVal v) /\
    (hit_timer r = 1 ->
     last_hit_by r1 = None /\ last_hit_by_item r1 = AttrVal None).
Proof.
  intros Hcfg Hh Hattr. unfold update_step.
  destruct (resolve_status_effects_stunned cfg r by_item Hcfg Hh Hattr)
    as [s ->].
  cbn [bind].
  eexists. split; [reflexivity|].
  rewrite (proj1 (move_and_collect_frame _ _ _ _ _)).
  rewrite (proj1 (proj2 (move_and_collect_frame _ _ _ _ _))).
  rewrite (proj1 (move_and_collect_free _ _ _ _ _)).
  rewrite (proj2 (move_and_collect_free _ _ _ _ _)).
  destruct (hit_timer r - 1 =? 0) eqn:E; cbn.
  - repeat split; eauto.
  - apply Z.eqb_neq in E. repeat split; eauto; lia.
Qed.

(** X8.  Recovery from a hit.  Under a configuration whose hit penalties
    convert to a float, a racer whose hit timer is [n > 0], with the
    hitting item on record, is through after exactly [n] step updates:
    they all return, the hit timer is 0, [last_hit_by] and
    [last_hit_by_item] are cleared to [None], and the boost timer has not
    moved (a boost does not run down while the racer is stunned). *)
Theorem update_steps_recovery (cfg : Config) (gs : GameState) (rnd : Rand)
  (n : nat) (r : Racer) (by_item : option Item) :
  penalties_in_range cfg ->
  hit_timer r = Z.of_nat (S n) ->
  last_hit_by_item r = AttrVal by_item ->
  exists r',
    update_steps cfg gs rnd (S n) r = Ok r' /\
    hit_timer r' = 0 /\ last_hit_by r' = None /\
    last_hit_by_item r' = AttrVal None /\
    boost_timer r' = boost_timer r.
Proof.
  intros Hcfg.
  revert r by_item. induction n as [|n IH]; intros r by_item Hh Hattr;
    destruct (update_step_stunned cfg gs rnd r by_item) as
      (r1 & E & Hh1 & Hb1 & [v Hv] & Hlast); try assumption; try lia;
    cbn [update_steps]; rewrite E; cbn [bind].
  - exists r1. split; [reflexivity|].
    destruct Hlast as [Hl Hli]; [rewrite Hh; reflexivity|].
    repeat split; auto. rewrite Hh1, Hh. reflexivity.
  - destruct (IH r1 v) as (r' & Hrun & H1 & H2 & H3 & H4);
      [rewrite Hh1, Hh; lia|exact Hv|].
    exists r'. split; [exact Hrun|]. repeat split; auto. congruence.
Qed.

Lemma update_steps_recovery_witness :
  hit_timer stunned = Z.of_nat 2 /\
  exists r',
    update_steps CONFIG lone_state boost_draw 2 stunned = Ok r' /\
    hit_timer r' = 0 /\ last_hit_by r' = None /\
    last_hit_by_item r' = AttrVal None /\
    boost_timer r' = boost_timer stunned.
Proof.
  split; [reflexivity|].
  apply (update_steps_recovery CONFIG lone_state boost_draw 1 stunned
           (Some GreenShell)).
  - split; vm_compute; reflexivity.
  - reflexivity.
  - reflexivity.
Defined.

(** ** Hits *)

(** Trait evaluation assigns [traits] and nothing else. *)
Lemma check_trait_conditions_only_traits (cfg : Config) (r : Racer) :
  check_trait_conditions cfg r
  = with_traits (traits (check_trait_conditions cfg r)) r.
Proof.
  destruct r. unfold check_trait_conditions, add_trait, remove_trait.
  cbv zeta. break_matches; reflexivity.
Qed.

Lemma use_item_stun (cfg : Config) (r r' : Racer) (t : option string)
  (gs gs' : GameState) (used : bool) :
  use_item cfg r t gs = (used, r', gs') ->
  last_hit_by_item r' = last_hit_by_item r /\ position r' = position r.
Proof.
  unfold use_item. destruct (current_item r) as [[| | |]|].
  - intros [= _ <- _]. auto.
  - destruct (Dict.get_opt t (gs_racers gs)); intros [= _ <- _]; auto.
  - destruct (Dict.get_opt t (gs_racers gs)) as [tr|];
      [destruct (Qltb _ (position tr))|]; intros [= _ <- _]; auto.
  - intros [= _ <- _]. auto.
  - intros [= _ <- _]. auto.
Qed.

Lemma update_relationship_only_relationships (r : Racer) (other : string)
  (change : Z) :
  update_relationship r other change
  = with_relationships (relationships (update_relationship r other change)) r.
Proof.
  destruct r. unfold update_relationship. cbn [relationships].
  break_matches; reflexivity.
Qed.

(** What a hit that is not dodged assigns, up to the trait evaluation. *)
Lemma apply_hit_landed (cfg : Config) (r : Racer) (a : option string)
  (i : Item) (gs : GameState) :
  hit_timer r <= 0 -> i <> Boost ->
  exists r',
    apply_hit cfg r a i gs = Ok r' /\
    hits_green_shell (times_hit_by r')
    = hits_green_shell (times_hit_by r)
      + (if Item_eqb i GreenShell then 1 else 0) /\
    hits_red_shell (times_hit_by r')
    = hits_red_shell (times_hit_by r)
      + (if Item_eqb i RedShell then 1 else 0) /\
    hits_banana (times_hit_by r')
    = hits_banana (times_hit_by r) + (if Item_eqb i Banana then 1 else 0) /\
    boost_timer r' = 0 /\
    hit_timer r' = hit_duration cfg r i /\
    last_hit_by r' = a /\
    last_hit_by_item r' = AttrVal (Some i) /\
    position r' = position r /\
    current_item r' = current_item r /\
    hit_by_count r'
    = (if truthy a
       then match a with
            | Some an => Dict.set an (get0 an (hit_by_count r) + 1)
                           (hit_by_count r)
            | None => hit_by_count r
            end
       else hit_by_count r) /\
    relationships r'
    = (if truthy a
       then match a with
            | Some an =>
                relationships
                  (update_relationship r an
                     (nemesis_hit_relationship_penalty cfg))
            | None => relationships r
            end
       else relationships r).
Proof.
  intros Hh Hi. unfold apply_hit.
  apply Z.ltb_ge in Hh. rewrite Hh.
  destruct r as [nm pl pos sp bs ci iu [hg hr hb] bt ht lh lhi rel tr hbc hoc nb].
  destruct i; [congruence| | |];
    cbn [times_hit_by_incr times_hit_by with_boost_timer with_last_hit_by
           with_last_hit_by_item bind hits_green_shell hits_red_shell
           hits_banana];
    eexists; (split; [reflexivity|]);
    rewrite check_trait_conditions_only_traits;
    (destruct a as [an|]; [destruct (truthy (Some an))|];
     unfold update_relationship; cbn;
     try (destruct (Dict.get an rel); cbn);
     repeat split; lia).
Qed.

(** X9.  The effects of a hit that lands.  When the hit timer is not
    positive and the item is a shell or a banana, [apply_hit] returns;
    afterwards the boost timer is 0, the hit timer is the configured
    duration of the item kind, attacker and item are on record, the
    counter of hits by that item kind is one higher and the counters of
    the other two kinds are as they were, and position and held item are
    untouched.  For a named attacker the count of hits received from it
    is one higher, and the score towards it, if the racer keeps one, is
    the old score plus the hit penalty, clamped to [-10, 10]. *)
Theorem apply_hit_effects (cfg : Config) (r : Racer) (attacker : string)
  (i : Item) (gs : GameState) :
  hit_timer r <= 0 -> i <> Boost -> attacker <> "" ->
  exists r',
    apply_hit cfg r (Some attacker) i gs = Ok r' /\
    boost_timer r' = 0 /\
    hit_timer r' = hit_duration cfg r i /\
    last_hit_by r' = Some attacker /\
    last_hit_by_item r' = AttrVal (Some i) /\
    hits_green_shell (times_hit_by r')
    = hits_green_shell (times_hit_by r)
      + (if Item_eqb i GreenShell then 1 else 0) /\
    hits_red_shell (times_hit_by r')
    = hits_red_shell (times_hit_by r)
      + (if Item_eqb i RedShell then 1 else 0) /\
    hits_banana (times_hit_by r')
    = hits_banana (times_hit_by r) + (if Item_eqb i Banana then 1 else 0) /\
    position r' = position r /\
    current_item r' = current_item r /\
    get0 attacker (hit_by_count r') = get0 attacker (hit_by_count r) + 1 /\
    (forall s, Dict.get attacker (relationships r) = Some s ->
       Dict.get attacker (relationships r')
       = Some (clamp_rel (s + nemesis_hit_relationship_penalty cfg))).
Proof.
  intros Hh Hi Ha.
  destruct (apply_hit_landed cfg r (Some attacker) i gs Hh Hi)
    as (r' & E & Hg & Hr & Hb & H3 & H4 & H5 & H6 & H7 & H8 & H9 & H10).
  assert (Ht : truthy (Some attacker) = true).
  { simpl. apply negb_true_iff. now apply String.eqb_neq. }
  rewrite Ht in H9, H10.
  exists r'. repeat split; auto.
  - rewrite H9. apply get0_set_same.
  - intros s Hs. rewrite H10. unfold update_relationship. rewrite Hs.
    cbn. apply get_set_same.
Qed.

Lemma apply_hit_effects_witness :
  exists r',
    apply_hit CONFIG grudge_player (Some "CPU_1") GreenShell lone_state = Ok r' /\
    boost_timer r' = 0 /\
    hit_timer r' = hit_duration CONFIG grudge_player GreenShell /\
    last_hit_by r' = Some "CPU_1" /\
    last_hit_by_item r' = AttrVal (Some GreenShell) /\
    hits_green_shell (times_hit_by r')
    = hits_green_shell (times_hit_by grudge_player)
      + (if Item_eqb GreenShell GreenShell then 1 else 0) /\
    hits_red_shell (times_hit_by r')
    = hits_red_shell (times_hit_by grudge_player)
      + (if Item_eqb GreenShell RedShell then 1 else 0) /\
    hits_banana (times_hit_by r')
    = hits_banana (times_hit_by grudge_player)
      + (if Item_eqb GreenShell Banana then 1 else 0) /\
    position r' = position grudge_player /\
    current_item r' = current_item grudge_player /\
    get0 "CPU_1" (hit_by_count r') = get0 "CPU_1" (hit_by_count grudge_player) + 1 /\
    (forall s, Dict.get "CPU_1" (relationships grudge_player) = Some s ->
       Dict.get "CPU_1" (relationships r')
       = Some (clamp_rel (s + nemesis_hit_relationship_penalty CONFIG))).
Proof.
  apply (apply_hit_effects CONFIG grudge_player "CPU_1" GreenShell lone_state).
  - vm_compute. discriminate.
  - discriminate.
  - discriminate.
Defined.

(** X10.  [apply_hit] fails in one case only: a hit by a [Boost] on a
    racer that is not immune is a [KeyError], there being no [Boost]
    entry in [times_hit_by]. *)
Theorem apply_hit_raises (cfg : Config) (r : Racer) (a : option string)
  (i : Item) (gs : GameState) (e : PyError) :
  apply_hit cfg r a i gs = Raise e <->
  hit_timer r <= 0 /\ i = Boost /\ e = KeyError.
Proof.
  split.
  - intros H. destruct (Z_lt_le_dec 0 (hit_timer r)) as [Hh|Hh].
    + unfold apply_hit in H. apply Z.ltb_lt in Hh. rewrite Hh in H.
      discriminate.
    + destruct i.
      * unfold apply_hit in H. apply Z.ltb_ge in Hh. rewrite Hh in H.
        cbn in H. injection H as <-. apply Z.ltb_ge in Hh. auto.
      * destruct (apply_hit_landed cfg r a GreenShell gs Hh)
          as (? & E & _); congruence.
      * destruct (apply_hit_landed cfg r a RedShell gs Hh)
          as (? & E & _); congruence.
      * destruct (apply_hit_landed cfg r a Banana gs Hh)
          as (? & E & _); congruence.
  - intros (Hh & -> & ->). unfold apply_hit.
    apply Z.ltb_ge in Hh. now rewrite Hh.
Qed.

(** A hit keeps the stun on record, whether it lands or not. *)
Lemma apply_hit_stun_recorded (cfg : Config) (r r' : Racer)
  (a : option string) (i : Item) (gs : GameState) :
  apply_hit cfg r a i gs = Ok r' -> stun_recorded r -> stun_recorded r'.
Proof.
  intros Hhit Hr. destruct (Z_lt_le_dec 0 (hit_timer r)) as [Hh|Hh].
  - unfold apply_hit in Hhit. apply Z.ltb_lt in Hh. rewrite Hh in Hhit.
    injection Hhit as <-. exact Hr.
  - destruct i.
    + unfold apply_hit in Hhit. apply Z.ltb_ge in Hh. rewrite Hh in Hhit.
      discriminate.
    + destruct (apply_hit_landed cfg r a GreenShell gs Hh)
        as (r1 & E & _ & _ & _ & _ & _ & _ & Hattr & _); [discriminate|].
      rewrite E in Hhit. injection Hhit as <-.
      intros _. rewrite Hattr. discriminate.
    + destruct (apply_hit_landed cfg r a RedShell gs Hh)
        as (r1 & E & _ & _ & _ & _ & _ & _ & Hattr & _); [discriminate|].
      rewrite E in Hhit. injection Hhit as <-.
      intros _. rewrite Hattr. discriminate.
    + destruct (apply_hit_landed cfg r a Banana gs Hh)
        as (r1 & E & _ & _ & _ & _ & _ & _ & Hattr & _); [discriminate|].
      rewrite E in Hhit. injection Hhit as <-.
      intros _. rewrite Hattr. discriminate.
Qed.

(** So does a step update that returns. *)
Lemma update_step_stun_recorded (cfg : Config) (r r' : Racer)
  (gs : GameState) (rnd : Rand) :
  update_step cfg r gs rnd = Ok r' -> stun_recorded r -> stun_recorded r'.
Proof.
  unfold update_step, stun_recorded.
  destruct (resolve_status_effects cfg r) as [[r1 s]|] eqn:E; cbn [bind];
    [|discriminate].
  intros [= <-] Hr.
  rewrite (proj1 (proj2 (move_and_collect_frame _ _ _ _ _))).
  rewrite (proj2 (move_and_collect_free _ _ _ _ _)).
  destruct (resolve_status_effects_inv _ _ _ _ E)
    as [(Hh & [v Hv] & ->)|[(Hh & Hb & ->)|(Hh & Hb & -> & _)]].
  - destruct (_ =? 0); cbn; intros _; [|rewrite Hv]; discriminate.
  - cbn. intros Hh'. lia.
  - intros Hh'. lia.
Qed.

(** The stun of a racer reached by item uses, hits and step updates is
    always on record. *)
Lemma racer_reach_stun_recorded (r : Racer) :
  racer_reach any_use r -> stun_recorded r.
Proof.
  induction 1 as [cfg nm player u|cfg r r' t gs gs' used Hr IH _ Huse
                 |cfg r r' a i gs Hr IH Hhit|cfg r r' gs rnd Hr IH Hstep].
  - unfold stun_recorded. simpl. lia.
  - destruct (use_item_timers _ _ _ _ _ _ _ Huse) as [Hh _].
    destruct (use_item_stun _ _ _ _ _ _ _ Huse) as [Ha _].
    unfold stun_recorded. rewrite Hh, Ha. exact IH.
  - exact (apply_hit_stun_recorded _ _ _ _ _ _ Hhit IH).
  - exact (update_step_stun_recorded _ _ _ _ _ Hstep IH).
Qed.

Lemma update_step_returns (cfg : Config) (gs : GameState) (rnd : Rand)
  (r : Racer) :
  speeds_in_range cfg -> stun_recorded r ->
  exists r', update_step cfg r gs rnd = Ok r'.
Proof.
  intros [Hbonus Hpen] Hr. unfold update_step.
  destruct (Z_lt_le_dec 0 (hit_timer r)) as [Hh|Hh].
  - destruct (last_hit_by_item r) as [|v] eqn:Ev; [now destruct (Hr Hh)|].
    destruct (resolve_status_effects_stunned cfg r v Hpen Hh Ev) as [s ->].
    cbn [bind]. eauto.
  - destruct (Z_lt_le_dec 0 (boost_timer r)) as [Hb|Hb].
    + destruct (resolve_status_effects_boosting cfg r Hbonus Hh Hb) as [s ->].
      cbn [bind]. eauto.
    + rewrite (resolve_status_effects_free cfg r Hh Hb). cbn [bind]. eauto.
Qed.

(** A boost bonus beyond the doubles stops the step update of a boosting
    racer with an [OverflowError]. *)
Lemma update_step_overflow (cfg : Config) (gs : GameState) (rnd : Rand)
  (r : Racer) :
  hit_timer r <= 0 -> 0 < boost_timer r ->
  float_int_bound <= Z.abs (boost_speed_bonus cfg) ->
  update_step cfg r gs rnd = Raise OverflowError.
Proof.
  intros Hh Hb Hbonus. unfold update_step, resolve_status_effects, float_of_int.
  apply Z.ltb_ge in Hh. apply Z.ltb_lt in Hb. apply Z.ltb_ge in Hbonus.
  now rewrite Hh, Hb, Hbonus.
Qed.

(** X11.  Under a configuration whose boost bonus and hit penalties
    convert to a float, the step update never fails on a racer that
    construction, item uses, hit applications and step updates lead to,
    whatever the game state and the draws: the one attribute it could
    miss, [last_hit_by_item], is read only while the hit timer is
    positive, and then a hit has assigned it. *)
Theorem update_step_never_raises (cfg : Config) (gs : GameState) (rnd : Rand)
  (r : Racer) :
  speeds_in_range cfg ->
  racer_reach any_use r -> exists r', update_step cfg r gs rnd = Ok r'.
Proof.
  intros Hcfg Hr. apply update_step_returns; [exact Hcfg|].
  now apply racer_reach_stun_recorded.
Qed.

Lemma update_step_never_raises_witness :
  exists r', update_step CONFIG boosting_while_stunned lone_state boost_draw
             = Ok r'.
Proof.
  apply (update_step_never_raises CONFIG lone_state boost_draw
           boosting_while_stunned).
  - repeat split; vm_compute; reflexivity.
  - apply (rr_use_item any_use CONFIG stunned boosting_while_stunned None
             lone_state lone_state true).
    + apply (rr_apply_hit any_use CONFIG at_item_box stunned (Some "Player")
               GreenShell lone_state).
      * apply (racer_reach_update_steps any_use CONFIG lone_state boost_draw 20
                 (Racer_init CONFIG "CPU_1" false (1 # 2))).
        -- apply rr_init.
        -- vm_compute. reflexivity.
      * vm_compute. reflexivity.
    + exact I.
    + vm_compute. reflexivity.
Defined.

(** ** The Green Shell *)

(** X12.  A racer holding a Green Shell uses it on a target identity.
    The shell is consumed in every case.  If the identity resolves to a
    racer of the store, wherever that racer is (ahead, behind, or the
    user itself), one hit event (user, target, Green Shell) is appended
    and the user's hit-attempt counter for the target goes up by one.
    If it resolves to none, game state and counters are unchanged. *)
Theorem green_shell_use (cfg : Config) (self : Racer)
  (target_name : option string) (gs : GameState) :
  current_item self = Some GreenShell ->
  let '(used, self', gs') := use_item cfg self target_name gs in
  used = true /\
  current_item self' = None /\
  (forall t, Dict.get_opt target_name (gs_racers gs) = Some t ->
     gs_pending_events gs'
     = (gs_pending_events gs ++ [mkEvent Hit (name self) (name t) GreenShell])%list
     /\ gs_obstacles gs' = gs_obstacles gs
     /\ get0 (name t) (hit_others_count self')
        = get0 (name t) (hit_others_count self) + 1) /\
  (Dict.get_opt target_name (gs_racers gs) = None ->
     gs' = gs /\ hit_others_count self' = hit_others_count self).
Proof.
  intros Hitem. unfold use_item. rewrite Hitem. simpl.
  destruct (Dict.get_opt target_name (gs_racers gs)) as [t|] eqn:Ht; simpl.
  - repeat split; try discriminate.
    + injection H as <-. reflexivity.
    + injection H as <-. apply get0_set_same.
  - repeat split; discriminate.
Qed.

Lemma green_shell_use_witness :
  current_item green_shell_racer = Some GreenShell /\
  let '(used, self', gs') :=
    use_item CONFIG green_shell_racer (Some "CPU_1")
      (get_state green_shell_game) in
  used = true /\
  current_item self' = None /\
  (forall t, Dict.get_opt (Some "CPU_1")
               (gs_racers (get_state green_shell_game)) = Some t ->
     gs_pending_events gs'
     = (gs_pending_events (get_state green_shell_game)
        ++ [mkEvent Hit (name green_shell_racer) (name t) GreenShell])%list
     /\ gs_obstacles gs' = gs_obstacles (get_state green_shell_game)
     /\ get0 (name t) (hit_others_count self')
        = get0 (name t) (hit_others_count green_shell_racer) + 1) /\
  (Dict.get_opt (Some "CPU_1") (gs_racers (get_state green_shell_game)) = None ->
     gs' = get_state green_shell_game
     /\ hit_others_count self' = hit_others_count green_shell_racer).
Proof.
  split.
  - reflexivity.
  - apply (green_shell_use CONFIG green_shell_racer (Some "CPU_1")
             (get_state green_shell_game)).
    reflexivity.
Defined.

(** A Green Shell fired at oneself is a hit event on oneself. *)
Example green_shell_on_self :
  gs_pending_events
    (snd (use_item CONFIG green_shell_racer (Some "CPU_1")
            (get_state green_shell_game)))
  = [mkEvent Hit "CPU_1" "CPU_1" GreenShell].
Proof. reflexivity. Qed.

(** ** Traits *)

Lemma Trait_eqb_eq (a b : Trait) : Trait_eqb a b = true <-> a = b.
Proof. destruct a, b; simpl; split; congruence. Qed.

Lemma has_trait_app (t t' : Trait) (l : list Trait) :
  has_trait t (l ++ [t']) = has_trait t l || Trait_eqb t t'.
Proof.
  unfold has_trait. rewrite existsb_app. simpl. now rewrite orb_false_r.
Qed.

Lemma has_trait_filter (t x : Trait) (l : list Trait) :
  has_trait t (filter (fun t' => negb (Trait_eqb x t')) l)
  = has_trait t l && negb (Trait_eqb x t).
Proof.
  unfold has_trait. induction l as [|y l IH]; simpl; [reflexivity|].
  destruct (Trait_eqb x y) eqn:Exy; simpl.
  - rewrite IH. apply Trait_eqb_eq in Exy. subst y.
    destruct t, x; simpl; try reflexivity;
      now rewrite ?andb_true_r, ?andb_false_r.
  - rewrite IH. destruct (Trait_eqb t y) eqn:Ety; simpl; [|reflexivity].
    apply Trait_eqb_eq in Ety. subst y.
    rewrite Exy. reflexivity.
Qed.

Lemma has_trait_add_trait (t t' : Trait) (r : Racer) :
  has_trait t (traits (add_trait r t'))
  = has_trait t (traits r) || Trait_eqb t t'.
Proof.
  unfold add_trait. destruct (has_trait t' (traits r)) eqn:E.
  - destruct (Trait_eqb t t') eqn:Et; [|now rewrite orb_false_r].
    apply Trait_eqb_eq in Et. subst t'. now rewrite E.
  - cbn [traits with_traits]. apply has_trait_app.
Qed.

(** The trait set after an evaluation, trait by trait. *)
Lemma check_trait_conditions_traits (cfg : Config) (r : Racer) (t : Trait) :
  has_trait t (traits (check_trait_conditions cfg r))
  = match t with
    | Aggressive =>
        has_trait Aggressive (traits r)
        || (nemesis_trait_threshold cfg
            <=? uses_green_shell (item_uses r) + uses_red_shell (item_uses r))
    | ShellShocked =>
        has_trait ShellShocked (traits r)
        || (nemesis_trait_threshold cfg
            <=? hits_green_shell (times_hit_by r)
                + hits_red_shell (times_hit_by r))
    | TargetFixated =>
        existsb (fun rel => rel <=? nemesis_targeting_threshold cfg)
          (Dict.values (relationships r))
    | Slippery => has_trait Slippery (traits r)
    end.
Proof.
  destruct r as [nm pl pos sp bs ci iu th bt ht lhb lhbi rels trs hbc hoc nib].
  unfold check_trait_conditions. cbv zeta.
  cbn [item_uses times_hit_by relationships traits].
  set (a := nemesis_trait_threshold cfg
            <=? uses_green_shell iu + uses_red_shell iu).
  set (b := nemesis_trait_threshold cfg
            <=? hits_green_shell th + hits_red_shell th).
  set (c := existsb _ (Dict.values rels)).
  set (r0 := mkRacer nm pl pos sp bs ci iu th bt ht lhb lhbi rels trs hbc hoc
               nib).
  assert (Hf : forall r1 t1,
             item_uses (add_trait r1 t1) = item_uses r1 /\
             times_hit_by (add_trait r1 t1) = times_hit_by r1 /\
             relationships (add_trait r1 t1) = relationships r1).
  { intros r1 t1. unfold add_trait. destruct (has_trait _ _); auto. }
  remember (if a && negb (has_trait Aggressive trs)
            then add_trait r0 Aggressive else r0) as r1 eqn:Er1.
  assert (H1 : forall t0, has_trait t0 (traits r1)
                          = has_trait t0 trs
                            || (Trait_eqb t0 Aggressive && a)).
  { intros t0. rewrite Er1. destruct a; simpl.
    - destruct (has_trait Aggressive trs) eqn:E; simpl.
      + destruct (Trait_eqb t0 Aggressive) eqn:E0;
          [|now rewrite orb_false_r].
        apply Trait_eqb_eq in E0. subst. cbn. now rewrite E.
      + rewrite has_trait_add_trait. cbn. now rewrite andb_true_r.
    - cbn. now rewrite andb_false_r, orb_false_r. }
  assert (F1 : times_hit_by r1 = th /\ relationships r1 = rels).
  { rewrite Er1. destruct (_ && _); [|auto].
    destruct (Hf r0 Aggressive) as (_ & -> & ->). auto. }
  destruct F1 as [F1 F1']. clear Er1.
  rewrite F1. fold b.
  remember (if b && negb (has_trait ShellShocked (traits r1))
            then add_trait r1 ShellShocked else r1) as r2 eqn:Er2.
  assert (H2 : forall t0, has_trait t0 (traits r2)
                          = has_trait t0 (traits r1)
                            || (Trait_eqb t0 ShellShocked && b)).
  { intros t0. rewrite Er2. destruct b; simpl.
    - destruct (has_trait ShellShocked (traits r1)) eqn:E; simpl.
      + destruct (Trait_eqb t0 ShellShocked) eqn:E0;
          [|now rewrite orb_false_r].
        apply Trait_eqb_eq in E0. subst. now rewrite E.
      + rewrite has_trait_add_trait. now rewrite andb_true_r.
    - now rewrite andb_false_r, orb_false_r. }
  assert (F2 : relationships r2 = rels).
  { rewrite Er2. destruct (_ && _); [|auto].
    destruct (Hf r1 ShellShocked) as (_ & _ & ->). auto. }
  clear Er2. rewrite F2. fold c.
  assert (HTF : has_trait TargetFixated (traits r2)
                = has_trait TargetFixated trs).
  { rewrite H2, H1. cbn. now rewrite !orb_false_r. }
  rewrite HTF.
  destruct c; destruct (has_trait TargetFixated trs) eqn:E; cbn [andb negb];
    try (unfold remove_trait; cbn [traits with_traits]);
    rewrite ?has_trait_add_trait, ?has_trait_filter, H2, H1;
    destruct t; cbn; rewrite ?E;
    rewrite ?andb_false_r, ?orb_false_r, ?andb_true_r, ?orb_true_r;
    cbn; reflexivity.
Qed.

Lemma existsb_le_exists (thr : Z) (d : Dict.t Z) :
  existsb (fun rel => rel <=? thr) (Dict.values d) = true <->
  exists kv, In kv d /\ snd kv <= thr.
Proof.
  unfold Dict.values. rewrite existsb_exists. split.
  - intros (s & Hs & Hle). apply in_map_iff in Hs.
    destruct Hs as (kv & <- & Hkv). exists kv. split; auto.
    now apply Z.leb_le.
  - intros (kv & Hkv & Hle). exists (snd kv). split.
    + apply in_map_iff. eauto.
    + now apply Z.leb_le.
Qed.

(** X13.  The trait set after an evaluation.  Target Fixated is present
    exactly when some relationship score is at or below the targeting
    threshold, whatever the set was before (it is the one trait an
    evaluation can take away).  Aggressive is present exactly when it was
    before or the shell uses have reached the trait threshold, Shell
    Shocked exactly when it was before or the shell hits received have
    reached it; Slippery is as before. *)
Theorem trait_evaluation (cfg : Config) (r : Racer) :
  let r' := check_trait_conditions cfg r in
  (has_trait TargetFixated (traits r') = true <->
   exists kv, In kv (relationships r)
              /\ snd kv <= nemesis_targeting_threshold cfg) /\
  (has_trait Aggressive (traits r') = true <->
   has_trait Aggressive (traits r) = true \/
   nemesis_trait_threshold cfg
   <= uses_green_shell (item_uses r) + uses_red_shell (item_uses r)) /\
  (has_trait ShellShocked (traits r') = true <->
   has_trait ShellShocked (traits r) = true \/
   nemesis_trait_threshold cfg
   <= hits_green_shell (times_hit_by r) + hits_red_shell (times_hit_by r)) /\
  (has_trait Slippery (traits r') = has_trait Slippery (traits r)).
Proof.
  cbv zeta. rewrite !check_trait_conditions_traits.
  rewrite !orb_true_iff, !Z.leb_le. repeat split; try tauto.
  - apply existsb_le_exists.
  - apply existsb_le_exists.
Qed.

Lemma check_trait_conditions_frame_counters (cfg : Config) (r : Racer) :
  item_uses (check_trait_conditions cfg r) = item_uses r /\
  times_hit_by (check_trait_conditions cfg r) = times_hit_by r /\
  position (check_trait_conditions cfg r) = position r /\
  last_hit_by_item (check_trait_conditions cfg r) = last_hit_by_item r.
Proof.
  pose proof (check_trait_conditions_only_traits cfg r) as H.
  repeat split; rewrite H; reflexivity.
Qed.

(** An evaluation whose four conditions are all false changes nothing. *)
Lemma check_trait_conditions_noop (cfg : Config) (r : Racer) :
  (nemesis_trait_threshold cfg
   <=? uses_green_shell (item_uses r) + uses_red_shell (item_uses r))
  && negb (has_trait Aggressive (traits r)) = false ->
  (nemesis_trait_threshold cfg
   <=? hits_green_shell (times_hit_by r) + hits_red_shell (times_hit_by r))
  && negb (has_trait ShellShocked (traits r)) = false ->
  has_trait TargetFixated (traits r)
  = existsb (fun rel => rel <=? nemesis_targeting_threshold cfg)
      (Dict.values (relationships r)) ->
  check_trait_conditions cfg r = r.
Proof.
  intros H1 H2 H3. unfold check_trait_conditions. cbv zeta.
  rewrite H1, H2, H3.
  now destruct (existsb _ _).
Qed.

(** X14.  Trait evaluation is idempotent: a second evaluation right after
    one changes nothing, so evaluating after a hit and again at the end
    of the step gives the racer the traits of one evaluation. *)
Theorem check_trait_conditions_idempotent (cfg : Config) (r : Racer) :
  check_trait_conditions cfg (check_trait_conditions cfg r)
  = check_trait_conditions cfg r.
Proof.
  apply check_trait_conditions_noop.
  - rewrite (proj1 (check_trait_conditions_frame_counters cfg r)).
    rewrite check_trait_conditions_traits.
    destruct (_ <=? _), (has_trait Aggressive (traits r)); reflexivity.
  - rewrite (proj1 (proj2 (check_trait_conditions_frame_counters cfg r))).
    rewrite check_trait_conditions_traits.
    destruct (_ <=? _), (has_trait ShellShocked (traits r)); reflexivity.
  - rewrite (proj2 (proj2 (check_trait_conditions_frame cfg r))).
    apply check_trait_conditions_traits.
Qed.

(** ** Stores of racers along a step *)

Section DictMore.
Context {V : Type}.
Implicit Types (d : Dict.t V) (k : string) (v : V).

Lemma keys_set_existing k v v' d :
  Dict.get k d = Some v -> Dict.keys (Dict.set k v' d) = Dict.keys d.
Proof.
  unfold Dict.keys. induction d as [|[k' v0] d IH]; simpl; [discriminate|].
  destruct (String.eqb k k'); simpl; [reflexivity|].
  intros H. now rewrite IH.
Qed.

Lemma get_map k (f : V -> V) d :
  Dict.get k (map (fun kv => (fst kv, f (snd kv))) d)
  = option_map f (Dict.get k d).
Proof.
  induction d as [|[k' v0] d IH]; simpl; [reflexivity|].
  destruct (String.eqb k k'); auto.
Qed.

Lemma keys_map (f : V -> V) d :
  Dict.keys (map (fun kv => (fst kv, f (snd kv))) d) = Dict.keys d.
Proof.
  unfold Dict.keys. rewrite map_map. reflexivity.
Qed.

Lemma get_keys k v d : Dict.get k d = Some v -> In k (Dict.keys d).
Proof.
  intros H. apply get_In in H. unfold Dict.keys.
  apply in_map_iff. exists (k, v). auto.
Qed.

(** An entry survives [d[k] = v] unless it is the one [d[k]] reads. *)
Lemma In_set k k' v v' v1 d :
  In (k', v') d -> Dict.get k d = Some v1 ->
  In (k', v') (Dict.set k v d) \/ (k' = k /\ v' = v1).
Proof.
  induction d as [|[k2 v2] d IH]; simpl; [tauto|].
  destruct (String.eqb k k2) eqn:E.
  - apply String.eqb_eq in E. subst k2.
    intros [[= -> ->]|H] [= <-]; simpl; auto.
  - intros [[= -> ->]|H] Hg; simpl; auto.
    destruct (IH H Hg); auto.
Qed.

Lemma In_set_new k v v1 d :
  Dict.get k d = Some v1 -> In (k, v) (Dict.set k v d).
Proof.
  induction d as [|[k2 v2] d IH]; simpl; [discriminate|].
  destruct (String.eqb k k2) eqn:E.
  - apply String.eqb_eq in E. subst k2. intros _. now left.
  - intros H. right. auto.
Qed.
End DictMore.

Section StoreExt.
Variables R : string -> Racer -> Racer -> Prop.
Hypothesis R_refl : forall nm r, R nm r r.

Lemma store_ext_refl (rs : Dict.t Racer) : store_ext R rs rs.
Proof. split; eauto. Qed.

Lemma store_ext_set (k : string) (r r' : Racer) (rs : Dict.t Racer) :
  Dict.get k rs = Some r -> R k r r' -> store_ext R rs (Dict.set k r' rs).
Proof.
  intros Hk HR. split.
  - eapply keys_set_existing; eauto.
  - intros nm r0 H0. destruct (String.eqb nm k) eqn:E.
    + apply String.eqb_eq in E. subst nm.
      rewrite get_set_same. exists r'. split; auto. congruence.
    + apply String.eqb_neq in E. rewrite get_set_other; eauto.
Qed.

Lemma store_ext_update_racer (k : string) (f : Racer -> Racer)
  (rs : Dict.t Racer) :
  (forall r, R k r (f r)) -> store_ext R rs (update_racer k f rs).
Proof.
  intros Hf. unfold update_racer.
  destruct (Dict.get k rs) as [r|] eqn:E; [|apply store_ext_refl].
  eapply store_ext_set; eauto.
Qed.

Lemma store_ext_map (f : Racer -> Racer) (rs : Dict.t Racer) :
  (forall nm r, R nm r (f r)) ->
  store_ext R rs (map (fun kv => (fst kv, f (snd kv))) rs).
Proof.
  intros Hf. split.
  - apply keys_map.
  - intros nm r H. rewrite get_map, H. simpl. eauto.
Qed.
End StoreExt.

Lemma store_ext_trans (R1 R2 R3 : string -> Racer -> Racer -> Prop)
  (a b c : Dict.t Racer) :
  (forall nm x y z, R1 nm x y -> R2 nm y z -> R3 nm x z) ->
  store_ext R1 a b -> store_ext R2 b c -> store_ext R3 a c.
Proof.
  intros H [K1 E1] [K2 E2]. split; [congruence|].
  intros nm r Hr. destruct (E1 nm r Hr) as (r1 & H1 & HR1).
  destruct (E2 nm r1 H1) as (r2 & H2 & HR2). eauto.
Qed.

Lemma same_position_refl (nm : string) (r : Racer) : same_position nm r r.
Proof. reflexivity. Qed.

Lemma same_position_trans (nm : string) (x y z : Racer) :
  same_position nm x y -> same_position nm y z -> same_position nm x z.
Proof. unfold same_position. congruence. Qed.

Lemma apply_hit_position (cfg : Config) (r r' : Racer) (a : option string)
  (i : Item) (gs : GameState) :
  apply_hit cfg r a i gs = Ok r' -> position r' = position r.
Proof.
  intros H. destruct (Z_lt_le_dec 0 (hit_timer r)) as [Hh|Hh].
  - unfold apply_hit in H. apply Z.ltb_lt in Hh. rewrite Hh in H.
    now injection H as <-.
  - destruct i.
    + unfold apply_hit in H. apply Z.ltb_ge in Hh. rewrite Hh in H.
      discriminate.
    + destruct (apply_hit_landed cfg r a GreenShell gs Hh)
        as (r1 & ? & E & _ & _ & _ & _ & _ & _ & Hp & _); [discriminate|].
      congruence.
    + destruct (apply_hit_landed cfg r a RedShell gs Hh)
        as (r1 & ? & E & _ & _ & _ & _ & _ & _ & Hp & _); [discriminate|].
      congruence.
    + destruct (apply_hit_landed cfg r a Banana gs Hh)
        as (r1 & ? & E & _ & _ & _ & _ & _ & _ & Hp & _); [discriminate|].
      congruence.
Qed.

Lemma update_relationship_position (r : Racer) (other : string) (change : Z) :
  position (update_relationship r other change) = position r.
Proof. rewrite update_relationship_only_relationships. reflexivity. Qed.

(** Steps 3 to 7 move no racer and keep the keys of the store. *)
Lemma process_event_same (cfg : Config) (gs gs' : GameState) (event : Event) :
  process_event cfg gs event = Ok gs' ->
  store_ext same_position (gs_racers gs) (gs_racers gs').
Proof.
  unfold process_event. destruct (ev_type event).
  destruct (Dict.get (ev_target event) (gs_racers gs)) as [tr|] eqn:Et.
  - destruct (apply_hit cfg tr _ _ gs) as [r|] eqn:Eh; cbn [bind];
      [|discriminate].
    intros [= <-]. simpl.
    eapply store_ext_set; eauto using same_position_refl.
    exact (apply_hit_position _ _ _ _ _ _ Eh).
  - intros [= <-]. apply store_ext_refl, same_position_refl.
Qed.

Lemma scan_racers_same (cfg : Config) (lp : Dict.t Q) (obs : Obstacle)
  (names : list string) (gs gs' : GameState) :
  scan_racers cfg lp obs names gs = Ok (Some gs') ->
  store_ext same_position (gs_racers gs) (gs_racers gs').
Proof.
  induction names as [|nm names IH]; simpl; [discriminate|].
  destruct (Dict.get nm (gs_racers gs)) as [racer|] eqn:Er; [|exact IH].
  destruct (_ && _); [|exact IH].
  destruct (apply_hit cfg racer _ _ gs) as [r|] eqn:Eh; cbn [bind];
    [|discriminate].
  intros [= <-]. simpl.
  eapply store_ext_set; eauto using same_position_refl.
  exact (apply_hit_position _ _ _ _ _ _ Eh).
Qed.

Lemma foldM_rel {A S : Type} (T : S -> S -> Prop) (f : S -> A -> Result S)
  (l : list A) (s s' : S) :
  (forall s, T s s) ->
  (forall x y z, T x y -> T y z -> T x z) ->
  (forall s x s', f s x = Ok s' -> T s s') ->
  foldM f l s = Ok s' -> T s s'.
Proof.
  intros Hrefl Htrans Hf. revert s. induction l as [|x l IH]; intros s; simpl.
  - intros [= <-]. apply Hrefl.
  - destruct (f s x) as [s1|] eqn:E; cbn [bind]; [|discriminate].
    intros H. eapply Htrans; eauto.
Qed.

Lemma fold_left_rel {A S : Type} (T : S -> S -> Prop) (f : S -> A -> S)
  (l : list A) (s : S) :
  (forall s, T s s) ->
  (forall x y z, T x y -> T y z -> T x z) ->
  (forall s x, T s (f s x)) ->
  T s (fold_left f l s).
Proof.
  intros Hrefl Htrans Hf. revert s. induction l as [|x l IH]; intros s; simpl.
  - apply Hrefl.
  - eapply Htrans; [apply Hf|apply IH].
Qed.

Lemma same_store_refl (rs : Dict.t Racer) : store_ext same_position rs rs.
Proof. apply store_ext_refl, same_position_refl. Qed.

Lemma same_store_trans (a b c : Dict.t Racer) :
  store_ext same_position a b -> store_ext same_position b c ->
  store_ext same_position a c.
Proof. apply store_ext_trans, same_position_trans. Qed.

Lemma process_pending_events_same (cfg : Config) (gs gs' : GameState) :
  process_pending_events cfg gs = Ok gs' ->
  store_ext same_position (gs_racers gs) (gs_racers gs').
Proof.
  unfold process_pending_events.
  apply (foldM_rel (fun s s' => store_ext same_position (gs_racers s)
                                  (gs_racers s'))).
  - intros s. apply same_store_refl.
  - intros x y z. apply same_store_trans.
  - intros s x s'. apply process_event_same.
Qed.

Lemma check_obstacle_collisions_same (cfg : Config) (lp : Dict.t Q)
  (gs gs' : GameState) (new_obstacles : list Obstacle) :
  check_obstacle_collisions cfg lp gs = Ok (gs', new_obstacles) ->
  store_ext same_position (gs_racers gs) (gs_racers gs').
Proof.
  unfold check_obstacle_collisions. intros H.
  apply (foldM_rel (fun s s' => store_ext same_position (gs_racers (fst s))
                                  (gs_racers (fst s'))) _ _ _ _
           (fun s => same_store_refl _)
           (fun x y z => same_store_trans _ _ _)) in H; [exact H|].
  intros [s no] obs [s' no']. unfold check_obstacle.
  destruct (scan_racers cfg lp obs _ s) as [[gs1|]|] eqn:Es; cbn [bind];
    try discriminate; intros [= <- _]; simpl.
  - exact (scan_racers_same _ _ _ _ _ _ Es).
  - apply same_store_refl.
Qed.

Lemma update_racer_same (k : string) (f : Racer -> Racer) (rs : Dict.t Racer) :
  (forall r, position (f r) = position r) ->
  store_ext same_position rs (update_racer k f rs).
Proof.
  intros Hf. apply store_ext_update_racer.
  - apply same_position_refl.
  - intros r. apply Hf.
Qed.

Lemma check_overtakes_same (cfg : Config) (lp : Dict.t Q) (rs : Dict.t Racer) :
  store_ext same_position rs (check_overtakes cfg lp rs).
Proof.
  unfold check_overtakes.
  apply (fold_left_rel (store_ext same_position));
    [apply same_store_refl|apply same_store_trans|].
  intros s [i current_name]. unfold overtake_updates.
  destruct (index_of_name _ _) as [last_rank_index|]; [|apply same_store_refl].
  destruct (Nat.ltb i last_rank_index); [|apply same_store_refl].
  apply (fold_left_rel (store_ext same_position));
    [apply same_store_refl|apply same_store_trans|].
  intros s' j. destruct (nth_error _ j); [|apply same_store_refl].
  apply update_racer_same. intros r. apply update_relationship_position.
Qed.

Lemma finish_updates_same (cfg : Config) (winner_name : string)
  (rs : Dict.t Racer) :
  store_ext same_position rs (finish_updates cfg winner_name rs).
Proof.
  unfold finish_updates.
  apply (fold_left_rel (store_ext same_position));
    [apply same_store_refl|apply same_store_trans|].
  intros s [i r_name]. destruct (negb _); [|apply same_store_refl].
  apply (fold_left_rel (store_ext same_position));
    [apply same_store_refl|apply same_store_trans|].
  intros s' finisher_ahead.
  apply update_racer_same. intros r. apply update_relationship_position.
Qed.

Lemma update_traits_same (cfg : Config) (rs : Dict.t Racer) :
  store_ext same_position rs (update_traits cfg rs).
Proof.
  unfold update_traits. apply store_ext_map.
  intros nm r. unfold same_position.
  exact (proj1 (proj2 (proj2 (check_trait_conditions_frame_counters cfg r)))).
Qed.

(** ** One step of the race *)

Lemma not_behind_trans (nm : string) (x y z : Racer) :
  not_behind nm x y -> not_behind nm y z -> not_behind nm x z.
Proof. unfold not_behind. apply Qle_trans. Qed.

Lemma not_behind_same (nm : string) (x y z : Racer) :
  not_behind nm x y -> same_position nm y z -> not_behind nm x z.
Proof.
  unfold not_behind, same_position. intros H ->. exact H.
Qed.

Lemma execute_action_not_behind (cfg : Config)
  (actions : Dict.t (option Action * option string)) (rnd : string -> Rand)
  (gs gs' : GameState) (nm : string) :
  execute_action cfg actions rnd gs nm = Ok gs' ->
  store_ext not_behind (gs_racers gs) (gs_racers gs').
Proof.
  unfold execute_action.
  destruct (Dict.get nm (gs_racers gs)) as [racer|] eqn:Er.
  - destruct (Dict.get nm actions) as [[action target]|]; [|discriminate].
    assert (Huse : exists used r1 gs1,
              match action with
              | Some UseItem => use_item cfg racer target gs
              | _ => (false, racer, gs)
              end = (used, r1, gs1)
              /\ position r1 = position racer
              /\ gs_racers gs1 = gs_racers gs).
    { destruct action as [[|]|]; try (now exists false, racer, gs).
      destruct (use_item cfg racer target gs) as [[used r1] gs1] eqn:Eu.
      exists used, r1, gs1. split; auto. split.
      - exact (proj2 (use_item_stun _ _ _ _ _ _ _ Eu)).
      - exact (proj2 (use_item_relationships _ _ _ _ _ _ _ Eu)). }
    destruct Huse as (used & r1 & gs1 & -> & Hp1 & Hgs1).
    destruct (update_step cfg r1 gs1 (rnd nm)) as [r2|] eqn:Es; cbn [bind];
      [|discriminate].
    intros [= <-]. simpl. rewrite Hgs1.
    destruct (update_step_moves _ _ _ _ _ Es) as [Hmove _].
    rewrite Hp1 in Hmove.
    split; [eapply keys_set_existing; eauto|].
    intros nm' r0 H0. destruct (String.eqb nm' nm) eqn:E.
    + apply String.eqb_eq in E. subst nm'.
      rewrite get_set_same. exists r2. split; auto.
      assert (r0 = racer) by congruence. subst r0. exact Hmove.
    + apply String.eqb_neq in E. rewrite get_set_other by exact E.
      exists r0. split; auto. apply Qle_refl.
  - intros [= <-]. split; auto.
    intros nm' r0 H0. exists r0. split; auto. apply Qle_refl.
Qed.

Lemma execute_actions_not_behind (cfg : Config)
  (actions : Dict.t (option Action * option string)) (rnd : string -> Rand)
  (l : list string) (gs gs' : GameState) :
  foldM (execute_action cfg actions rnd) l gs = Ok gs' ->
  store_ext not_behind (gs_racers gs) (gs_racers gs').
Proof.
  revert gs. induction l as [|x l IH]; intros gs; simpl.
  - intros [= <-]. split; auto. intros nm r H. exists r. split; auto.
    apply Qle_refl.
  - destruct (execute_action cfg actions rnd gs x) as [gs1|] eqn:E;
      cbn [bind]; [|discriminate].
    intros H.
    apply (store_ext_trans not_behind not_behind _ _ (gs_racers gs1)).
    + intros nm a b c H1 H2. exact (not_behind_trans _ _ _ _ H1 H2).
    + exact (execute_action_not_behind _ _ _ _ _ _ E).
    + exact (IH _ H).
Qed.

(** Across a step that returns on a running race: same keys, and no racer
    further back. *)
Lemma run_step_store (g g' : Game) (a : option Action) (t : option string)
  (rnd : string -> Rand) (b : bool) :
  game_over g = false ->
  run_step g a t rnd = Ok (g', b) ->
  store_ext not_behind (racers g) (racers g').
Proof.
  intros Hover Hstep.
  destruct (run_step_running _ _ _ _ _ _ Hover Hstep)
    as (actions & gs0 & gs1 & gs2 & gs3 & obs & H0 & _ & H1 & H2 & H3 & H4).
  cbv zeta in H4. unfold execute_actions in H1. rewrite H0 in H1.
  apply execute_actions_not_behind in H1. rewrite H0 in H1.
  apply process_pending_events_same in H2.
  apply check_obstacle_collisions_same in H3.
  pose proof (check_overtakes_same (config g)
                (map (fun kv => (fst kv, position (snd kv))) (racers g))
                (gs_racers gs3)) as H5.
  assert (Hsame : store_ext same_position (gs_racers gs1) (racers g')).
  { apply (same_store_trans _ _ _ H2).
    apply (same_store_trans _ _ _ H3).
    apply (same_store_trans _ _ _ H5).
    destruct (first_finisher _ _) as [nm|]; destruct H4 as (-> & _ & _).
    - eapply same_store_trans; [apply (finish_updates_same (config g) nm)|].
      apply update_traits_same.
    - apply update_traits_same. }
  apply (store_ext_trans _ same_position _ _ _ _
           (fun nm x y z => not_behind_same nm x y z) H1 Hsame).
Qed.

(** X15.  A step that returns on a running race moves no racer backwards:
    every racer is found under its name afterwards, at a position not
    lower than before (hits, collisions, overtakes and the finish only
    touch timers, counters, scores and traits, and the step update never
    subtracts from the position). *)
Theorem run_step_advances (g g' : Game) (a : option Action) (t : option string)
  (rnd : string -> Rand) (b : bool) (nm : string) (r : Racer) :
  game_over g = false ->
  run_step g a t rnd = Ok (g', b) ->
  Dict.get nm (racers g) = Some r ->
  exists r', Dict.get nm (racers g') = Some r' /\
             (position r <= position r')%Q.
Proof.
  intros Hover Hstep Hr.
  destruct (run_step_store _ _ _ _ _ _ Hover Hstep) as [_ H].
  destruct (H nm r Hr) as (r' & Hr' & Hadv).
  exists r'. split; auto.
Qed.

Lemma run_step_running_fields (g g' : Game) (a : option Action)
  (t : option string) (rnd : string -> Rand) (b : bool) :
  game_over g = false ->
  run_step g a t rnd = Ok (g', b) ->
  config g' = config g /\
  step_count g' = step_count g + 1 /\
  player_name g' = player_name g /\
  last_positions g'
  = map (fun kv => (fst kv, position (snd kv))) (racers g) /\
  b = game_over g'.
Proof.
  intros Hrun. unfold run_step. rewrite Hrun.
  set (gs0 := get_state _).
  destruct (decide_actions (config g) gs0 a t rnd) as [actions|];
    cbn [bind]; [|discriminate].
  destruct (execute_actions (config g) actions rnd gs0) as [gs1|];
    cbn [bind]; [|discriminate].
  destruct (process_pending_events (config g) gs1) as [gs2|];
    cbn [bind]; [|discriminate].
  destruct (check_obstacle_collisions (config g) _ gs2) as [[gs3 obs]|];
    cbn [bind]; [|discriminate].
  destruct (first_finisher _ _); intros [= <- <-]; repeat split.
Qed.

(** X16.  What a step that returns on a running race keeps and records.
    The racers' names and their order are as before (no racer joins or
    leaves), configuration and player name are untouched, the step counter
    is one higher, [last_positions] holds every racer's position from
    before the step, and the value returned is the race's terminal
    flag. *)
Theorem run_step_frame (g g' : Game) (a : option Action) (t : option string)
  (rnd : string -> Rand) (b : bool) :
  game_over g = false ->
  run_step g a t rnd = Ok (g', b) ->
  Dict.keys (racers g') = Dict.keys (racers g) /\
  config g' = config g /\
  step_count g' = step_count g + 1 /\
  player_name g' = player_name g /\
  last_positions g'
  = map (fun kv => (fst kv, position (snd kv))) (racers g) /\
  b = game_over g'.
Proof.
  intros Hover Hstep. split.
  - exact (proj1 (run_step_store _ _ _ _ _ _ Hover Hstep)).
  - exact (run_step_running_fields _ _ _ _ _ _ Hover Hstep).
Qed.

Lemma In_update_racer_position (k : string) (f : Racer -> Racer)
  (rs : Dict.t Racer) (nm : string) (r : Racer) :
  (forall x, position (f x) = position x) ->
  In (nm, r) rs ->
  exists r', In (nm, r') (update_racer k f rs) /\ position r' = position r.
Proof.
  intros Hf Hin. unfold update_racer.
  destruct (Dict.get k rs) as [r1|] eqn:E; [|eauto].
  destruct (In_set k nm (f r1) r r1 rs Hin E) as [H|[-> ->]]; [eauto|].
  exists (f r1). split; [|apply Hf].
  eapply In_set_new; eauto.
Qed.

Lemma In_fold_left_position {A : Type} (step : Dict.t Racer -> A -> Dict.t Racer)
  (l : list A) (rs : Dict.t Racer) (nm : string) (r : Racer) :
  (forall s x n y, In (n, y) s ->
     exists y', In (n, y') (step s x) /\ position y' = position y) ->
  In (nm, r) rs ->
  exists r', In (nm, r') (fold_left step l rs) /\ position r' = position r.
Proof.
  intros Hstep. revert rs r. induction l as [|x l IH]; intros rs r Hin; simpl.
  - eauto.
  - destruct (Hstep rs x nm r Hin) as (r1 & H1 & Hp1).
    destruct (IH _ _ H1) as (r2 & H2 & Hp2).
    exists r2. split; auto. congruence.
Qed.

Lemma In_finish_updates_position (cfg : Config) (winner_name : string)
  (rs : Dict.t Racer) (nm : string) (r : Racer) :
  In (nm, r) rs ->
  exists r', In (nm, r') (finish_updates cfg winner_name rs)
             /\ position r' = position r.
Proof.
  unfold finish_updates. apply In_fold_left_position.
  intros s [i r_name] n y Hy. destruct (negb _); [|eauto].
  apply In_fold_left_position; auto.
  intros s' finisher_ahead n' y' Hy'.
  apply In_update_racer_position; auto.
  intros x. apply update_relationship_position.
Qed.

(** X17.  The win check of a step that returns on a running race.  If the
    step returns [True], a winner is recorded and a racer stored under
    the winner's name is at or past the track length; if it returns
    [False], the winner field is as before and every racer is short of the
    track length.  So the race ends exactly in the step that brings a
    racer to the line. *)
Theorem run_step_win_check (g g' : Game) (a : option Action)
  (t : option string) (rnd : string -> Rand) (b : bool) :
  game_over g = false ->
  run_step g a t rnd = Ok (g', b) ->
  (b = true ->
   exists nm r, winner g' = Some nm /\ In (nm, r) (racers g') /\
                (ZtoQ (track_length (config g)) <= position r)%Q) /\
  (b = false ->
   winner g' = winner g /\
   forall nm r, In (nm, r) (racers g') ->
                (position r < ZtoQ (track_length (config g)))%Q).
Proof.
  intros Hover Hstep.
  destruct (run_step_running_fields _ _ _ _ _ _ Hover Hstep)
    as (_ & _ & _ & _ & Hb).
  destruct (run_step_running _ _ _ _ _ _ Hover Hstep)
    as (actions & gs0 & gs1 & gs2 & gs3 & obs & _ & _ & _ & _ & _ & H4).
  cbv zeta in H4.
  set (rs := check_overtakes _ _ _) in H4.
  unfold first_finisher in H4.
  destruct (find _ rs) as [[nm r0]|] eqn:Ef.
  - destruct H4 as (Hr & Hw & Hg). split; [intros _|congruence].
    apply find_some in Ef. destruct Ef as [Hin Hpos]. simpl in Hpos.
    apply Qle_bool_iff in Hpos.
    destruct (In_finish_updates_position (config g) nm rs nm r0 Hin)
      as (r1 & H1 & Hp1).
    exists nm, (check_trait_conditions (config g) r1). split; auto. split.
    + rewrite Hr. unfold update_traits. apply in_map_iff.
      exists (nm, r1). auto.
    + rewrite (proj1 (proj2 (proj2
                 (check_trait_conditions_frame_counters (config g) r1)))).
      now rewrite Hp1.
  - destruct H4 as (Hr & Hw & Hg). split; [congruence|intros _].
    split; auto. intros nm r Hin. rewrite Hr in Hin.
    unfold update_traits in Hin. apply in_map_iff in Hin.
    destruct Hin as ([nm0 r0] & [= <- <-] & Hin0).
    rewrite (proj1 (proj2 (proj2
               (check_trait_conditions_frame_counters (config g) r0)))).
    pose proof (find_none _ _ Ef _ Hin0) as Hc. simpl in Hc.
    apply Qnot_le_lt. intros Hle. apply Qle_bool_iff in Hle. congruence.
Qed.

(** ** A step never fails *)

Lemma foldM_ok {A S : Type} (I : S -> Prop) (f : S -> A -> Result S)
  (l : list A) (s : S) :
  (forall s x, In x l -> I s -> exists s', f s x = Ok s' /\ I s') ->
  I s -> exists s', foldM f l s = Ok s' /\ I s'.
Proof.
  revert s. induction l as [|x l IH]; intros s Hf Hs; simpl.
  - eauto.
  - destruct (Hf s x (or_introl eq_refl) Hs) as (s1 & -> & Hs1). cbn [bind].
    apply IH; auto. intros s0 y Hy. apply Hf. now right.
Qed.

Lemma mapM_keys {V W : Type} (f : string * V -> Result (string * W))
  (l : list (string * V)) (l' : list (string * W)) :
  (forall kv y, f kv = Ok y -> fst y = fst kv) ->
  mapM f l = Ok l' -> Dict.keys l' = Dict.keys l.
Proof.
  intros Hf. revert l'. induction l as [|kv l IH]; intros l'; simpl.
  - now intros [= <-].
  - destruct (f kv) as [y|] eqn:E; cbn [bind]; [|discriminate].
    destruct (mapM f l) as [ys|]; cbn [bind]; [|discriminate].
    intros [= <-]. simpl. rewrite (Hf _ _ E). f_equal. now apply IH.
Qed.

Lemma decide_actions_keys (cfg : Config) (gs : GameState)
  (a : option Action) (t : option string) (rnd : string -> Rand)
  (actions : Dict.t (option Action * option string)) :
  decide_actions cfg gs a t rnd = Ok actions ->
  Dict.keys actions = Dict.keys (gs_racers gs).
Proof.
  unfold decide_actions. apply mapM_keys.
  intros [nm racer] y. destruct (is_player racer).
  - destruct a; intros [= <-]; reflexivity.
  - destruct (decide_action cfg racer gs (rnd nm)); cbn [bind];
      [intros [= <-]; reflexivity|discriminate].
Qed.

Lemma decide_actions_ok (cfg : Config) (g : Game) (a : option Action)
  (t : option string) (rnd : string -> Rand) :
  nemesis_targeting_threshold cfg < 0 ->
  exists actions, decide_actions cfg (get_state g) a t rnd = Ok actions.
Proof.
  intros Hthr. unfold decide_actions.
  destruct (mapM_ok
              (fun kv : string * Racer =>
                 let '(nm, racer) := kv in
                 if is_player racer
                 then match a with
                      | Some a0 => Ok (nm, (Some a0, t))
                      | None => Ok (nm, (Some Drive, None))
                      end
                 else a0 <- decide_action cfg racer (get_state g) (rnd nm) ;;
                      Ok (nm, a0))
              (gs_racers (get_state g))) as (actions & H & _); [|eauto].
  intros [nm racer] Hin. destruct (is_player racer) eqn:Hp.
  - destruct a; eauto.
  - destruct (decide_action_returns cfg g nm racer (rnd nm) Hthr Hin)
      as [act ->]. cbn [bind]. eauto.
Qed.

Lemma stun_recorded_same (r r' : Racer) :
  hit_timer r' = hit_timer r -> last_hit_by_item r' = last_hit_by_item r ->
  stun_recorded r -> stun_recorded r'.
Proof. unfold stun_recorded. intros -> ->. auto. Qed.

Lemma update_relationship_stun_recorded (r : Racer) (other : string)
  (change : Z) :
  stun_recorded r -> stun_recorded (update_relationship r other change).
Proof.
  apply stun_recorded_same;
    rewrite update_relationship_only_relationships; reflexivity.
Qed.

Lemma check_trait_conditions_stun_recorded (cfg : Config) (r : Racer) :
  stun_recorded r -> stun_recorded (check_trait_conditions cfg r).
Proof.
  apply stun_recorded_same.
  - exact (proj1 (proj2 (check_trait_conditions_frame cfg r))).
  - exact (proj2 (proj2 (proj2 (check_trait_conditions_frame_counters cfg r)))).
Qed.

Lemma apply_hit_ok (cfg : Config) (r : Racer) (a : option string) (i : Item)
  (gs : GameState) :
  i <> Boost -> stun_recorded r ->
  exists r', apply_hit cfg r a i gs = Ok r' /\ stun_recorded r'.
Proof.
  intros Hi Hr. destruct (Z_lt_le_dec 0 (hit_timer r)) as [Hh|Hh].
  - exists r. split; auto. unfold apply_hit.
    apply Z.ltb_lt in Hh. now rewrite Hh.
  - destruct (apply_hit_landed cfg r a i gs Hh Hi) as (r' & E & _).
    exists r'. split; auto.
    exact (apply_hit_stun_recorded _ _ _ _ _ _ E Hr).
Qed.

Lemma update_step_ok (cfg : Config) (gs : GameState) (rnd : Rand) (r : Racer) :
  speeds_in_range cfg -> stun_recorded r ->
  exists r', update_step cfg r gs rnd = Ok r' /\ stun_recorded r'.
Proof.
  intros Hcfg Hr. destruct (update_step_returns cfg gs rnd r Hcfg Hr) as [r' E].
  exists r'. split; auto.
  exact (update_step_stun_recorded _ _ _ _ _ E Hr).
Qed.

Lemma use_item_step_inv (cfg : Config) (r r' : Racer) (t : option string)
  (gs gs' : GameState) (used : bool) :
  use_item cfg r t gs = (used, r', gs') ->
  step_inv gs -> stun_recorded r ->
  stun_recorded r' /\
  Forall (fun o => obs_type o = Banana) (gs_obstacles gs') /\
  Forall (fun e => ev_item e <> Boost) (gs_pending_events gs').
Proof.
  intros Huse (_ & Hobs & Hev) Hr. split.
  - destruct (use_item_timers _ _ _ _ _ _ _ Huse) as [Hh _].
    destruct (use_item_stun _ _ _ _ _ _ _ Huse) as [Ha _].
    exact (stun_recorded_same _ _ Hh Ha Hr).
  - revert Huse. unfold use_item. destruct (current_item r) as [[| | |]|].
    + intros [= _ _ <-]. auto.
    + destruct (Dict.get_opt t (gs_racers gs)); intros [= _ _ <-]; simpl;
        auto.
      split; auto. apply Forall_app. split; auto.
      constructor; [simpl; discriminate|constructor].
    + destruct (Dict.get_opt t (gs_racers gs)) as [tr|];
        [destruct (Qltb _ (position tr))|]; intros [= _ _ <-]; simpl; auto.
      split; auto. apply Forall_app. split; auto.
      constructor; [simpl; discriminate|constructor].
    + intros [= _ _ <-]. simpl. split; auto.
      apply Forall_app. split; auto.
    + intros [= _ _ <-]. auto.
Qed.

(** The item use of an action, if any, keeps the invariant of the step. *)
Lemma action_use_step_inv (cfg : Config) (action : option Action)
  (racer : Racer) (target : option string) (gs : GameState) :
  step_inv gs -> stun_recorded racer ->
  exists used r1 gs1,
    match action with
    | Some UseItem => use_item cfg racer target gs
    | _ => (false, racer, gs)
    end = (used, r1, gs1)
    /\ stun_recorded r1 /\ step_inv gs1.
Proof.
  intros Hinv Hracer.
  destruct action as [[|]|]; try (now exists false, racer, gs).
  destruct (use_item cfg racer target gs) as [[used r1] gs1] eqn:Eu.
  exists used, r1, gs1. split; auto.
  destruct (use_item_step_inv _ _ _ _ _ _ _ Eu Hinv Hracer) as (H1 & H2 & H3).
  split; auto. split; auto.
  rewrite (proj2 (use_item_relationships _ _ _ _ _ _ _ Eu)).
  exact (proj1 Hinv).
Qed.

(** An action that goes through keeps the invariant of the step. *)
Lemma execute_action_step_inv (cfg : Config)
  (actions : Dict.t (option Action * option string)) (rnd : string -> Rand)
  (gs gs' : GameState) (nm : string) :
  step_inv gs -> execute_action cfg actions rnd gs nm = Ok gs' -> step_inv gs'.
Proof.
  intros Hinv. unfold execute_action.
  destruct (Dict.get nm (gs_racers gs)) as [racer|] eqn:Er;
    [|now intros [= <-]].
  destruct (Dict.get nm actions) as [[action target]|]; [|discriminate].
  pose proof (all_values_get _ _ _ _ (proj1 Hinv) Er) as Hracer.
  destruct (action_use_step_inv cfg action racer target gs Hinv Hracer)
    as (used & r1 & gs1 & -> & Hr1 & Hgs1).
  destruct (update_step cfg r1 gs1 (rnd nm)) as [r2|] eqn:Es; cbn [bind];
    [|discriminate].
  intros [= <-].
  pose proof (update_step_stun_recorded _ _ _ _ _ Es Hr1) as Hr2.
  destruct Hgs1 as (Hs & Ho & He). split; [|split]; simpl; auto.
  apply all_values_set; auto.
Qed.

(** Under speed changes in range, it goes through. *)
Lemma execute_action_ok (cfg : Config)
  (actions : Dict.t (option Action * option string)) (rnd : string -> Rand)
  (gs : GameState) (nm : string) :
  speeds_in_range cfg ->
  In nm (Dict.keys actions) -> step_inv gs ->
  exists gs', execute_action cfg actions rnd gs nm = Ok gs' /\ step_inv gs'.
Proof.
  intros Hcfg Hnm Hinv.
  assert (E : exists gs', execute_action cfg actions rnd gs nm = Ok gs').
  { unfold execute_action.
    destruct (Dict.get nm (gs_racers gs)) as [racer|] eqn:Er; [|eauto].
    unfold Dict.keys in Hnm. apply in_map_iff in Hnm.
    destruct Hnm as ([nm' act] & Hfst & Hin). simpl in Hfst. subst nm'.
    destruct (In_get _ _ _ Hin) as [[action target] ->].
    pose proof (all_values_get _ _ _ _ (proj1 Hinv) Er) as Hracer.
    destruct (action_use_step_inv cfg action racer target gs Hinv Hracer)
      as (used & r1 & gs1 & -> & Hr1 & Hgs1).
    destruct (update_step_ok cfg gs1 (rnd nm) r1 Hcfg Hr1) as (r2 & -> & Hr2).
    cbn [bind]. eauto. }
  destruct E as [gs' E]. exists gs'. split; [exact E|].
  exact (execute_action_step_inv _ _ _ _ _ _ Hinv E).
Qed.

Lemma process_event_ok (cfg : Config) (gs : GameState) (event : Event) :
  ev_item event <> Boost ->
  all_values stun_recorded (gs_racers gs) ->
  exists gs', process_event cfg gs event = Ok gs' /\
              all_values stun_recorded (gs_racers gs').
Proof.
  intros Hi Hinv. unfold process_event. destruct (ev_type event).
  destruct (Dict.get (ev_target event) (gs_racers gs)) as [tr|] eqn:Et;
    [|eauto].
  destruct (apply_hit_ok cfg tr (Some (ev_attacker event)) (ev_item event) gs
              Hi (all_values_get _ _ _ _ Hinv Et)) as (r & -> & Hr).
  cbn [bind]. eexists. split; [reflexivity|]. simpl.
  apply all_values_set; auto.
Qed.

Lemma scan_racers_ok (cfg : Config) (lp : Dict.t Q) (obs : Obstacle)
  (names : list string) (gs : GameState) :
  obs_type obs <> Boost ->
  all_values stun_recorded (gs_racers gs) ->
  exists res, scan_racers cfg lp obs names gs = Ok res /\
              forall gs', res = Some gs' ->
                          all_values stun_recorded (gs_racers gs').
Proof.
  intros Hi Hinv. induction names as [|nm names IH]; simpl.
  - exists None. split; auto. discriminate.
  - destruct (Dict.get nm (gs_racers gs)) as [racer|] eqn:Er; [|exact IH].
    destruct (_ && _); [|exact IH].
    destruct (apply_hit_ok cfg racer (Some (obs_owner obs)) (obs_type obs) gs
                Hi (all_values_get _ _ _ _ Hinv Er)) as (r & -> & Hr).
    cbn [bind]. eexists. split; [reflexivity|].
    intros gs' [= <-]. simpl. apply all_values_set; auto.
Qed.

Lemma check_obstacle_ok (cfg : Config) (lp : Dict.t Q)
  (st : GameState * list Obstacle) (obs : Obstacle) :
  obs_type obs = Banana ->
  all_values stun_recorded (gs_racers (fst st))
  /\ Forall (fun o => obs_type o = Banana) (snd st) ->
  exists st', check_obstacle cfg lp st obs = Ok st' /\
              all_values stun_recorded (gs_racers (fst st'))
              /\ Forall (fun o => obs_type o = Banana) (snd st').
Proof.
  destruct st as [gs new_obstacles]. simpl. intros Hi [Hinv Hnew].
  destruct (scan_racers_ok cfg lp obs (Dict.keys (gs_racers gs)) gs)
    as (res & -> & Hres); auto; [congruence|].
  cbn [bind]. destruct res as [gs'|]; eexists; (split; [reflexivity|]);
    simpl; split; auto.
  apply Forall_app. split; auto.
Qed.

Section StoreAll.
Variable P : Racer -> Prop.
Hypothesis P_update_relationship :
  forall r other change, P r -> P (update_relationship r other change).

Lemma update_racer_all (nm : string) (f : Racer -> Racer) (rs : Dict.t Racer) :
  (forall r, P r -> P (f r)) ->
  all_values P rs -> all_values P (update_racer nm f rs).
Proof.
  intros Hf Hrs. unfold update_racer.
  destruct (Dict.get nm rs) as [r|] eqn:E; auto.
  apply all_values_set; auto. apply Hf.
  exact (all_values_get _ _ _ _ Hrs E).
Qed.

Lemma check_overtakes_all (cfg : Config) (lp : Dict.t Q) (rs : Dict.t Racer) :
  all_values P rs -> all_values P (check_overtakes cfg lp rs).
Proof.
  unfold check_overtakes. apply fold_left_inv.
  intros s [i current_name] Hs. unfold overtake_updates.
  destruct (index_of_name _ _) as [last_rank_index|]; auto.
  destruct (Nat.ltb i last_rank_index); auto.
  apply fold_left_inv; auto.
  intros s' j Hs'. destruct (nth_error _ j); auto.
  apply update_racer_all; auto.
Qed.

Lemma finish_updates_all (cfg : Config) (winner_name : string)
  (rs : Dict.t Racer) :
  all_values P rs -> all_values P (finish_updates cfg winner_name rs).
Proof.
  unfold finish_updates. apply fold_left_inv.
  intros s [i r_name] Hs. destruct (negb _); auto.
  apply fold_left_inv; auto.
  intros s' finisher_ahead Hs'.
  apply update_racer_all; auto.
Qed.
End StoreAll.

Lemma process_events_obstacles (cfg : Config) (l : list Event)
  (gs gs' : GameState) :
  foldM (process_event cfg) l gs = Ok gs' ->
  gs_obstacles gs' = gs_obstacles gs.
Proof.
  apply (foldM_rel (fun s s' => gs_obstacles s' = gs_obstacles s));
    [reflexivity|congruence|].
  intros s e s'. unfold process_event. destruct (ev_type e).
  destruct (Dict.get (ev_target e) (gs_racers s)); [|now intros [= <-]].
  destruct (apply_hit _ _ _ _ _); cbn [bind]; [|discriminate].
  now intros [= <-].
Qed.

(** Once the actions of a step on a running race have gone through, the
    rest of the step goes through, and the invariant holds at its end. *)
Lemma run_step_rest_ok (g : Game) (a : option Action) (t : option string)
  (rnd : string -> Rand)
  (actions : Dict.t (option Action * option string)) (gs1 : GameState) :
  game_over g = false ->
  decide_actions (config g)
    (get_state (mkGame (config g) (racers g) (player_name g) (winner g)
                  (step_count g + 1) (game_over g) (last_positions g)
                  (obstacles g))) a t rnd = Ok actions ->
  execute_actions (config g) actions rnd
    (get_state (mkGame (config g) (racers g) (player_name g) (winner g)
                  (step_count g + 1) (game_over g) (last_positions g)
                  (obstacles g))) = Ok gs1 ->
  step_inv gs1 ->
  exists g' b, run_step g a t rnd = Ok (g', b) /\ game_inv g'.
Proof.
  intros Hover Hdec H1 Hinv1. unfold run_step.
  rewrite Hover in Hdec, H1 |- *. rewrite Hdec. cbn [bind].
  rewrite H1. cbn [bind].
  destruct Hinv1 as (Hs1 & Ho1 & He1).
  destruct (foldM_ok (fun gs => all_values stun_recorded (gs_racers gs))
              (process_event (config g)) (gs_pending_events gs1) gs1)
    as (gs2 & H2 & Hs2); auto.
  { intros s x Hx Hs. apply process_event_ok; auto.
    rewrite Forall_forall in He1. auto. }
  unfold process_pending_events. rewrite H2. cbn [bind].
  assert (Ho2 : Forall (fun o => obs_type o = Banana) (gs_obstacles gs2)).
  { now rewrite (process_events_obstacles _ _ _ _ H2). }
  destruct (foldM_ok
              (fun st => all_values stun_recorded (gs_racers (fst st))
                         /\ Forall (fun o => obs_type o = Banana) (snd st))
              (check_obstacle (config g)
                 (map (fun kv => (fst kv, position (snd kv))) (racers g)))
              (gs_obstacles gs2) (gs2, []))
    as ([gs3 new_obstacles] & H3 & Hs3 & Ho3); auto.
  { intros s x Hx Hs. apply check_obstacle_ok; auto.
    rewrite Forall_forall in Ho2. auto. }
  unfold check_obstacle_collisions. rewrite H3. cbn [bind].
  simpl in Hs3, Ho3.
  pose proof (check_overtakes_all stun_recorded
                update_relationship_stun_recorded (config g)
                (map (fun kv => (fst kv, position (snd kv))) (racers g))
                _ Hs3) as Hs4.
  destruct (first_finisher _ _) as [nm|]; eexists; eexists;
    (split; [reflexivity|]); split; simpl; auto;
    apply (all_values_map stun_recorded stun_recorded);
    auto using check_trait_conditions_stun_recorded.
  apply finish_updates_all; auto using update_relationship_stun_recorded.
Qed.

Lemma get_state_step_inv (g : Game) : game_inv g -> step_inv (get_state g).
Proof.
  intros [Hrs Hobs]. split; [exact Hrs|]. split; [exact Hobs|constructor].
Qed.

(** A step on a running race whose decisions went through goes through
    under speed changes in range, and keeps the invariant. *)
Lemma run_step_tail_ok (g : Game) (a : option Action) (t : option string)
  (rnd : string -> Rand)
  (actions : Dict.t (option Action * option string)) :
  speeds_in_range (config g) ->
  game_inv g -> game_over g = false ->
  decide_actions (config g)
    (get_state (mkGame (config g) (racers g) (player_name g) (winner g)
                  (step_count g + 1) (game_over g) (last_positions g)
                  (obstacles g))) a t rnd = Ok actions ->
  exists g' b, run_step g a t rnd = Ok (g', b) /\ game_inv g'.
Proof.
  intros Hcfg Hg Hover Hdec.
  pose proof (decide_actions_keys _ _ _ _ _ _ Hdec) as Hkeys.
  set (g0 := mkGame _ _ _ _ _ _ _ _) in *.
  destruct (foldM_ok step_inv (execute_action (config g) actions rnd)
              (Dict.keys (gs_racers (get_state g0))) (get_state g0))
    as (gs1 & H1 & Hinv1).
  { intros s x Hx Hs. apply execute_action_ok; auto. now rewrite Hkeys. }
  { apply get_state_step_inv. exact Hg. }
  exact (run_step_rest_ok g a t rnd actions gs1 Hover Hdec H1 Hinv1).
Qed.

(** A step that returns keeps the invariant, whatever the configuration. *)
Lemma run_step_game_inv (g g' : Game) (a : option Action) (t : option string)
  (rnd : string -> Rand) (b : bool) :
  game_inv g -> run_step g a t rnd = Ok (g', b) -> game_inv g'.
Proof.
  intros Hg Hstep. destruct (game_over g) eqn:Hover.
  - unfold run_step in Hstep. rewrite Hover in Hstep.
    now injection Hstep as <- _.
  - assert (Hrun : exists actions gs1,
              decide_actions (config g)
                (get_state (mkGame (config g) (racers g) (player_name g)
                              (winner g) (step_count g + 1) (game_over g)
                              (last_positions g) (obstacles g))) a t rnd
              = Ok actions /\
              execute_actions (config g) actions rnd
                (get_state (mkGame (config g) (racers g) (player_name g)
                              (winner g) (step_count g + 1) (game_over g)
                              (last_positions g) (obstacles g)))
              = Ok gs1).
    { unfold run_step in Hstep. rewrite Hover in Hstep |- *.
      destruct (decide_actions _ _ a t rnd) as [actions|]; cbn [bind] in Hstep;
        [|discriminate].
      destruct (execute_actions _ actions rnd _) as [gs1|] eqn:E1;
        [|discriminate].
      exists actions, gs1. split; [reflexivity|exact E1]. }
    destruct Hrun as (actions & gs1 & Hdec & H1).
    assert (Hinv1 : step_inv gs1).
    { unfold execute_actions in H1.
      refine (foldM_inv step_inv _ _ _ _ _ _ H1).
      - intros s x s' Hs. now apply execute_action_step_inv.
      - apply get_state_step_inv. exact Hg. }
    destruct (run_step_rest_ok g a t rnd actions gs1 Hover Hdec H1 Hinv1)
      as (g1 & b1 & E & Hg1).
    rewrite E in Hstep. now injection Hstep as <- _.
Qed.

Lemma initialize_relationships_stun_recorded (self : Racer)
  (all_racers : list Racer) :
  stun_recorded self ->
  stun_recorded (initialize_relationships self all_racers).
Proof.
  unfold initialize_relationships. apply fold_left_inv.
  intros s r Hs. destruct (negb _); auto.
Qed.

Lemma reachable_game_inv (g : Game) : reachable g -> game_inv g.
Proof.
  induction 1 as [cfg u|g g' a t rnd b Hg IH Hstep|g r1 r2 v Hg IH
                 |g r0 i Hg IH|g cfg Hg IH].
  - split; [|constructor].
    unfold Game_init. cbv zeta. cbn [racers].
    apply all_values_map with (P := stun_recorded).
    + intros r. apply initialize_relationships_stun_recorded.
    + apply all_values_fold_set with (key := fun nm => nm)
        (val := fun nm => Racer_init cfg nm false (u nm)).
      * intros nm. unfold stun_recorded. simpl. lia.
      * repeat constructor. unfold stun_recorded. simpl. lia.
  - exact (run_step_game_inv _ _ _ _ _ _ IH Hstep).
  - destruct IH as [Hrs Hobs]. unfold rel_command.
    destruct (Dict.get r1 (racers g)) as [x1|] eqn:E1; [|split; auto].
    destruct (Dict.get r2 (racers g)) as [x2|]; [|split; auto].
    destruct (negb _); [|split; auto].
    split; simpl; auto. apply all_values_set; auto.
    apply update_relationship_stun_recorded.
    exact (all_values_get _ _ _ _ Hrs E1).
  - destruct IH as [Hrs Hobs]. split; simpl; auto.
    apply update_racer_all; auto.
  - exact IH.
Qed.

(** X18.  In a reachable race whose targeting threshold is negative and
    whose boost bonus and hit penalties convert to a float, a step never
    fails: whatever the player's action and target and the random draws,
    [run_step] returns a race and a flag.  (No decision raises on the
    step's snapshot, every action is found, the hit item of a stunned
    racer is on record, only shells and bananas ever hit, and the step
    updates add speed changes that convert.) *)
Theorem run_step_never_raises (g : Game) (a : option Action)
  (t : option string) (rnd : string -> Rand) :
  reachable g ->
  nemesis_targeting_threshold (config g) < 0 ->
  speeds_in_range (config g) ->
  exists g' b, run_step g a t rnd = Ok (g', b).
Proof.
  intros Hreach Hthr Hcfg. destruct (game_over g) eqn:Hover.
  - exists g, true. unfold run_step. now rewrite Hover.
  - destruct (decide_actions_ok (config g)
                (mkGame (config g) (racers g) (player_name g) (winner g)
                   (step_count g + 1) (game_over g) (last_positions g)
                   (obstacles g)) a t rnd Hthr) as [actions Hdec].
    destruct (run_step_tail_ok g a t rnd actions Hcfg
                (reachable_game_inv g Hreach) Hover Hdec) as (g' & b & E & _).
    eauto.
Qed.

(** X19.  In every reachable race every obstacle on the track is a
    banana, and a racer whose hit timer is positive has the item that hit
    it on record. *)
Theorem reachable_obstacles_and_stuns (g : Game) :
  reachable g ->
  (forall o, In o (obstacles g) -> obs_type o = Banana) /\
  (forall nm r, Dict.get nm (racers g) = Some r -> 0 < hit_timer r ->
                exists i, last_hit_by_item r = AttrVal i).
Proof.
  intros Hreach. destruct (reachable_game_inv g Hreach) as [Hrs Hobs].
  split.
  - now apply Forall_forall.
  - intros nm r Hr Hh.
    pose proof (all_values_get _ _ _ _ Hrs Hr Hh) as Hattr.
    destruct (last_hit_by_item r) as [|i]; [congruence|eauto].
Qed.

Lemma duel_after_26_reachable : reachable duel_after_26.
Proof.
  apply (reachable_run_steps (Game_init duel duel_speeds) duel_after_26
           duel_inputs).
  - apply reach_init.
  - vm_compute. reflexivity.
Qed.

Lemma run_step_advances_witness :
  exists r', Dict.get "CPU_1" (racers short_race_end) = Some r' /\
             (position short_race_cpu <= position r')%Q.
Proof.
  apply (run_step_advances short_race_start short_race_end None None no_draws
           true "CPU_1" short_race_cpu).
  - reflexivity.
  - vm_compute. reflexivity.
  - vm_compute. reflexivity.
Defined.

Lemma run_step_frame_witness :
  Dict.keys (racers short_race_end) = Dict.keys (racers short_race_start) /\
  config short_race_end = config short_race_start /\
  step_count short_race_end = step_count short_race_start + 1 /\
  player_name short_race_end = player_name short_race_start /\
  last_positions short_race_end
  = map (fun kv => (fst kv, position (snd kv))) (racers short_race_start) /\
  true = game_over short_race_end.
Proof.
  apply (run_step_frame short_race_start short_race_end None None no_draws
           true).
  - reflexivity.
  - vm_compute. reflexivity.
Defined.

Lemma run_step_win_check_witness :
  (true = true ->
   exists nm r, winner short_race_end = Some nm /\
                In (nm, r) (racers short_race_end) /\
                (ZtoQ (track_length (config short_race_start)) <= position r)%Q)
  /\
  (true = false ->
   winner short_race_end = winner short_race_start /\
   forall nm r, In (nm, r) (racers short_race_end) ->
                (position r < ZtoQ (track_length (config short_race_start)))%Q).
Proof.
  apply (run_step_win_check short_race_start short_race_end None None no_draws
           true).
  - reflexivity.
  - vm_compute. reflexivity.
Defined.

Lemma run_step_never_raises_witness :
  exists g' b,
    run_step duel_after_26 (Some UseItem) (Some "Nobody") duel_draws
    = Ok (g', b).
Proof.
  apply (run_step_never_raises duel_after_26 (Some UseItem) (Some "Nobody")
           duel_draws).
  - exact duel_after_26_reachable.
  - vm_compute. reflexivity.
  - repeat split; vm_compute; reflexivity.
Defined.

Lemma reachable_obstacles_and_stuns_witness :
  (forall o, In o (obstacles duel_after_26) -> obs_type o = Banana) /\
  (forall nm r, Dict.get nm (racers duel_after_26) = Some r ->
                0 < hit_timer r ->
                exists i, last_hit_by_item r = AttrVal i).
Proof.
  apply (reachable_obstacles_and_stuns duel_after_26).
  exact duel_after_26_reachable.
Defined.

(** ** The snapshot and the details query *)

Section SortingPerm.
Context {A : Type} (le : A -> A -> bool).

Lemma insert_by_perm (x : A) (l : list A) :
  Permutation (insert_by le x l) (x :: l).
Proof.
  induction l as [|y l IH]; simpl; [reflexivity|].
  destruct (le x y); [reflexivity|].
  rewrite IH. apply perm_swap.
Qed.

Lemma sorted_by_perm (l : list A) : Permutation (sorted_by le l) l.
Proof.
  induction l as [|x l IH]; simpl; [reflexivity|].
  rewrite insert_by_perm. now constructor.
Qed.
End SortingPerm.

(** X20.  The snapshot of a race.  Its position list names every racer of
    the race exactly once, is in descending order of position, and the
    pending events start empty; racers and obstacles are the race's
    own. *)
Theorem get_state_snapshot (g : Game) :
  Permutation (gs_positions (get_state g))
    (map (fun kv => (name (snd kv), position (snd kv))) (racers g)) /\
  Desc (gs_positions (get_state g)) /\
  gs_racers (get_state g) = racers g /\
  gs_obstacles (get_state g) = obstacles g /\
  gs_pending_events (get_state g) = [].
Proof.
  split; [|split; [apply get_state_positions_desc|repeat split]].
  unfold get_state. cbn [gs_positions]. unfold sorted_desc, Dict.values.
  rewrite sorted_by_perm. rewrite map_map. reflexivity.
Qed.

Lemma sorted_asc_sorted {A : Type} (key : A -> Z) (l : list A) :
  StronglySorted (fun a b => key a <= key b) (sorted_asc key l).
Proof.
  unfold sorted_asc.
  eapply StronglySorted_impl;
    [|apply sorted_by_sorted with (le := fun x y => Z.leb (key x) (key y))].
  - intros a b H. now apply Z.leb_le.
  - intros x y. rewrite !Z.leb_le. lia.
  - intros x y z. rewrite !Z.leb_le. lia.
Qed.

(** X21.  The details query.  For a name that is no racer's it reports
    "not found" and does not fail.  For a racer whose [last_hit_by_item]
    a hit has assigned it returns the record: the relationships are
    those of the racer in ascending order of score (most hated first),
    and the two hit counts list exactly the entries with a positive
    count. *)
Theorem get_racer_details_found (g : Game) (nm : string) :
  (Dict.get nm (racers g) = None ->
   get_racer_details g nm = Ok (NotFound nm)) /\
  (forall r by_item,
     Dict.get nm (racers g) = Some r ->
     last_hit_by_item r = AttrVal by_item ->
     exists d,
       get_racer_details g nm = Ok (Found d) /\
       d_last_hit_by d = last_hit_by r /\
       d_last_hit_by_item d = by_item /\
       Permutation (d_relationships d) (relationships r) /\
       StronglySorted (fun a b => snd a <= snd b) (d_relationships d) /\
       (forall kv, In kv (d_hit_by_count d) <->
                   In kv (hit_by_count r) /\ 0 < snd kv) /\
       (forall kv, In kv (d_hit_others_count d) <->
                   In kv (hit_others_count r) /\ 0 < snd kv)).
Proof.
  unfold get_racer_details. split.
  - intros ->. reflexivity.
  - intros r by_item -> ->. cbn [getattr bind].
    eexists. split; [reflexivity|]. cbn.
    split; [reflexivity|]. split; [reflexivity|].
    split; [apply sorted_by_perm|]. split; [apply sorted_asc_sorted|].
    split; intros kv; rewrite filter_In, Z.ltb_lt; tauto.
Qed.

Lemma get_racer_details_found_witness :
  get_racer_details duel_after_26 "Nobody" = Ok (NotFound "Nobody") /\
  exists d,
    get_racer_details duel_after_26 "CPU_1" = Ok (Found d) /\
    d_last_hit_by d = Some "Player" /\
    d_last_hit_by_item d = Some GreenShell.
Proof.
  destruct (get_racer_details_found duel_after_26 "Nobody") as [Hnone _].
  destruct (get_racer_details_found duel_after_26 "CPU_1") as [_ Hsome].
  split.
  - apply Hnone. vm_compute. reflexivity.
  - destruct (Hsome duel_cpu (Some GreenShell)) as (d & Hd & H1 & H2 & _).
    + vm_compute. reflexivity.
    + vm_compute. reflexivity.
    + exists d. split; [exact Hd|]. split.
      * rewrite H1. vm_compute. reflexivity.
      * exact H2.
Defined.

(** ** The constructed race *)

Section DictKeys.
Context {V : Type}.

Lemma In_keys_set (x k : string) (v : V) (d : Dict.t V) :
  In x (Dict.keys (Dict.set k v d)) -> x = k \/ In x (Dict.keys d).
Proof.
  unfold Dict.keys. induction d as [|[k' v'] d IH]; simpl.
  - intros [<-|[]]. now left.
  - destruct (String.eqb k k'); simpl; [tauto|].
    intros [<-|H]; [tauto|]. destruct (IH H); tauto.
Qed.

Lemma NoDup_keys_set (k : string) (v : V) (d : Dict.t V) :
  NoDup (Dict.keys d) -> NoDup (Dict.keys (Dict.set k v d)).
Proof.
  unfold Dict.keys. induction d as [|[k' v'] d IH]; simpl; intros H.
  - repeat constructor. tauto.
  - inversion H as [|? ? Hnotin Hd]; subst.
    destruct (String.eqb k k') eqn:E; simpl; [now constructor|].
    constructor; [|auto].
    intros Hin. apply In_keys_set in Hin. destruct Hin as [->|Hin]; [|tauto].
    now rewrite String.eqb_refl in E.
Qed.

Lemma Forall_set_entry (P : string * V -> Prop) (k : string) (v : V)
  (d : Dict.t V) :
  Forall P d -> P (k, v) -> Forall P (Dict.set k v d).
Proof.
  intros H Hv. induction d as [|[k' v'] d IH]; simpl.
  - constructor; auto.
  - inversion H as [|? ? Hkv Hd]; subst.
    destruct (String.eqb k k') eqn:E.
    + apply String.eqb_eq in E. subst k'. constructor; auto.
    + constructor; auto.
Qed.

Lemma mem_map (k : string) (f : V -> V) (d : Dict.t V) :
  Dict.mem k (map (fun kv => (fst kv, f (snd kv))) d) = Dict.mem k d.
Proof.
  unfold Dict.mem. rewrite get_map. now destruct (Dict.get k d).
Qed.
End DictKeys.

Lemma initialize_relationships_fields (self : Racer) (all_racers : list Racer) :
  let r := initialize_relationships self all_racers in
  name r = name self /\ is_player r = is_player self /\
  position r = position self /\ base_speed r = base_speed self /\
  current_item r = current_item self /\
  boost_timer r = boost_timer self /\ hit_timer r = hit_timer self /\
  next_item_box_pos r = next_item_box_pos self.
Proof.
  cbv zeta. unfold initialize_relationships. revert self.
  induction all_racers as [|x l IH]; intros self; simpl.
  - repeat split.
  - destruct (negb (String.eqb (name x) (name self)));
      destruct (IH (with_hit_others_count
                      (Dict.set (name x) 0 (hit_others_count self))
                      (with_hit_by_count
                         (Dict.set (name x) 0 (hit_by_count self))
                         (with_relationships
                            (Dict.set (name x) 0 (relationships self)) self))))
        as (H1 & H2 & H3 & H4 & H5 & H6 & H7 & H8);
      destruct (IH self) as (G1 & G2 & G3 & G4 & G5 & G6 & G7 & G8);
      repeat split; assumption.
Qed.

(** The scores after [initialize_relationships]: 0 towards every listed
    racer with another name, the old entry otherwise. *)
Lemma initialize_relationships_get (self : Racer) (all_racers : list Racer)
  (other : string) :
  Dict.get other (relationships (initialize_relationships self all_racers))
  = if negb (String.eqb other (name self))
       && existsb (fun r => String.eqb (name r) other) all_racers
    then Some 0
    else Dict.get other (relationships self).
Proof.
  unfold initialize_relationships. revert self.
  induction all_racers as [|x l IH]; intros self; simpl.
  - now rewrite andb_false_r.
  - destruct (String.eqb (name x) (name self)) eqn:Exs; simpl.
    + rewrite IH. apply String.eqb_eq in Exs.
      destruct (String.eqb other (name self)) eqn:Eos; simpl; auto.
      destruct (String.eqb (name x) other) eqn:Exo; simpl; auto.
      apply String.eqb_eq in Exo. apply String.eqb_neq in Eos. congruence.
    + rewrite IH. cbn [name relationships with_hit_others_count
                         with_hit_by_count with_relationships].
      destruct (String.eqb other (name self)) eqn:Eos; simpl.
      * apply String.eqb_eq in Eos. subst other.
        apply get_set_other. intros Heq. rewrite <- Heq in Exs.
        now rewrite String.eqb_refl in Exs.
      * destruct (String.eqb (name x) other) eqn:Exo; simpl.
        -- apply String.eqb_eq in Exo. subst other.
           destruct (existsb _ l); auto. apply get_set_same.
        -- destruct (existsb _ l); auto.
           apply get_set_other. intros Heq. subst other.
           now rewrite String.eqb_refl in Exo.
Qed.

Lemma existsb_name_mem (k : string) (d : Dict.t Racer) :
  Forall (fun kv => name (snd kv) = fst kv) d ->
  existsb (fun r => String.eqb (name r) k) (Dict.values d) = Dict.mem k d.
Proof.
  unfold Dict.mem, Dict.values. induction 1 as [|[k' v] d Hkv Hd IH]; simpl.
  - reflexivity.
  - simpl in Hkv. rewrite Hkv, IH. rewrite (String.eqb_sym k' k).
    now destruct (String.eqb k k').
Qed.

(** The store [Game.__init__] fills before the relationships are set
    up: unique names, every racer freshly constructed under its key. *)
Lemma Game_init_store (cfg : Config) (u : string -> Q) (names : list string)
  (d : Dict.t Racer) :
  NoDup (Dict.keys d) ->
  Forall (fun kv => exists pl, snd kv = Racer_init cfg (fst kv) pl (u (fst kv)))
    d ->
  let d' := fold_left (fun d nm => Dict.set nm (Racer_init cfg nm false (u nm)) d)
              names d in
  NoDup (Dict.keys d') /\
  Forall (fun kv => exists pl, snd kv = Racer_init cfg (fst kv) pl (u (fst kv)))
    d'.
Proof.
  cbv zeta. revert d. induction names as [|nm names IH]; intros d Hn Hf; simpl.
  - auto.
  - apply IH.
    + now apply NoDup_keys_set.
    + apply Forall_set_entry; auto. simpl. eauto.
Qed.

(** X22.  The constructed race.  Racer names are unique, and every racer
    is stored under its own name at position 0 with an empty item slot
    and both timers at 0.  Its relationship map has an entry for exactly
    the other racers of the race, each with score 0, and none for
    itself. *)
Theorem Game_init_racers (cfg : Config) (u : string -> Q) :
  NoDup (Dict.keys (racers (Game_init cfg u))) /\
  forall nm r,
    Dict.get nm (racers (Game_init cfg u)) = Some r ->
    name r = nm /\ position r = 0%Q /\ current_item r = None /\
    boost_timer r = 0 /\ hit_timer r = 0 /\
    forall other,
      Dict.get other (relationships r)
      = if negb (String.eqb other nm)
           && Dict.mem other (racers (Game_init cfg u))
        then Some 0 else None.
Proof.
  unfold Game_init. cbv zeta. cbn [racers].
  set (rp := Racer_init cfg "Player" (player_controlled cfg) (u "Player")).
  set (names := map _ (seq 0 _)).
  assert (Hn0 : NoDup (Dict.keys (Dict.set "Player" rp []))).
  { simpl. constructor; [simpl; tauto|constructor]. }
  assert (Hf0 : Forall (fun kv => exists pl,
                          snd kv = Racer_init cfg (fst kv) pl (u (fst kv)))
                  (Dict.set "Player" rp [])).
  { simpl. constructor; [|constructor].
    exists (player_controlled cfg). reflexivity. }
  destruct (Game_init_store cfg u names (Dict.set "Player" rp []) Hn0 Hf0)
    as [Hnodup Hfresh].
  cbv zeta in Hnodup, Hfresh.
  set (d := fold_left _ names (Dict.set "Player" rp [])) in *.
  split.
  - now rewrite (keys_map (fun r => initialize_relationships r (Dict.values d))
                  d).
  - intros nm r.
    rewrite (get_map nm (fun r => initialize_relationships r (Dict.values d))
               d).
    destruct (Dict.get nm d) as [r0|] eqn:E; simpl; [|discriminate].
    intros [= <-].
    apply get_In in E. rewrite Forall_forall in Hfresh.
    destruct (Hfresh _ E) as [pl Hr0]. simpl in Hr0.
    destruct (initialize_relationships_fields r0 (Dict.values d))
      as (H1 & _ & H3 & _ & H5 & H6 & H7 & _).
    rewrite H1, H3, H5, H6, H7, Hr0. repeat split.
    intros other. rewrite initialize_relationships_get.
    rewrite (mem_map other
               (fun r => initialize_relationships r (Dict.values d)) d).
    rewrite existsb_name_mem.
    + rewrite <- Hr0. replace (name r0) with nm by (now rewrite Hr0).
      destruct (_ && _); auto. now rewrite Hr0.
    + rewrite Forall_forall. intros kv Hkv.
      destruct (Hfresh _ Hkv) as [pl' ->]. reflexivity.
Qed.

Lemma Game_init_racers_witness :
  name fresh_game_player = "Player" /\
  position fresh_game_player = 0%Q /\
  current_item fresh_game_player = None /\
  Dict.get "CPU_3" (relationships fresh_game_player) = Some 0 /\
  Dict.get "Player" (relationships fresh_game_player) = None /\
  Dict.get "CPU_8" (relationships fresh_game_player) = None.
Proof.
  destruct (Game_init_racers CONFIG (fun _ => 1 # 2)) as [_ H].
  destruct (H "Player" fresh_game_player) as (H1 & H2 & H3 & _ & _ & Hrel).
  - vm_compute. reflexivity.
  - split; [exact H1|]. split; [exact H2|]. split; [exact H3|].
    rewrite !Hrel. repeat split; vm_compute; reflexivity.
Defined.
